(** * Parametrized quantum gates of pyqtorch (modules/parametric.py)

    A shallow embedding of the gate classes [RotationGate], [U],
    [ControlledRotationGate] and [CPHASE] together with the small part of the
    tensor library they use.  Tensors of dtype [cdouble] are embedded over
    the complex numbers built on Stdlib's reals: the identities below are
    algebraic identities of [cos], [sin] and [exp], not statements about
    rounding. *)

From Stdlib Require Import String.
From Stdlib Require Import Reals Lra Lia Arith Bool List FinFun.
Import ListNotations.

Set Implicit Arguments.

(* ================================================================== *)
(** ** Python exceptions and the result monad *)

Inductive exn : Set :=
| AssertionError
| KeyError
| IndexError
| TypeError
| RuntimeError
| ShapeMismatchError.

Inductive result (A : Type) : Type :=
| Ok (a : A)
| Raise (e : exn).

Arguments Ok {A} a.
Arguments Raise {A} e.

Definition bind {A B : Type} (m : result A) (k : A -> result B) : result B :=
  match m with
  | Ok a => k a
  | Raise e => Raise e
  end.

Declare Scope result_scope.
Delimit Scope result_scope with result.
Notation "x <- m ;; k" := (bind m (fun x => k))
  (at level 61, m at next level, right associativity) : result_scope.
Notation "' pat <- m ;; k" := (bind m (fun pat => k))
  (at level 61, pat pattern, m at next level, right associativity) : result_scope.
Notation "m >>= k" := (bind m k) (at level 58, left associativity) : result_scope.
Local Open Scope result_scope.

(** [assert b] of Python. *)
Definition assert (b : bool) : result unit :=
  if b then Ok tt else Raise AssertionError.

(* ================================================================== *)
(** ** Complex numbers *)

Local Open Scope R_scope.

Definition C : Type := (R * R)%type.

Definition RtoC (x : R) : C := (x, 0).

(** The Python literal [1j]. *)
Definition Ci : C := (0, 1).
Definition Czero : C := (0, 0).
Definition Cone : C := (1, 0).

Definition Cplus (a b : C) : C := (fst a + fst b, snd a + snd b).
Definition Copp (a : C) : C := (- fst a, - snd a).
Definition Cminus (a b : C) : C := (fst a - fst b, snd a - snd b).
Definition Cmult (a b : C) : C :=
  (fst a * fst b - snd a * snd b, fst a * snd b + snd a * fst b).
Definition Cconj (a : C) : C := (fst a, - snd a).
Definition Cdiv (a b : C) : C :=
  ((fst a * fst b + snd a * snd b) / (fst b * fst b + snd b * snd b),
   (snd a * fst b - fst a * snd b) / (fst b * fst b + snd b * snd b)).

(** [torch.exp] on a complex entry: e^(a+ib) = e^a (cos b + i sin b). *)
Definition Cexp (z : C) : C := (exp (fst z) * cos (snd z), exp (fst z) * sin (snd z)).

(** Squared modulus. *)
Definition Cnorm2 (z : C) : R := fst z * fst z + snd z * snd z.

(* ================================================================== *)
(** ** Tensors

    A tensor is a shape together with its entries, read by multi-index.
    Only the entries at indices inside the shape are meaningful, so tensors
    are compared with [teq]. *)

Record tensor (A : Type) : Type := mkTensor {
  shape : list nat;
  item : list nat -> A
}.

Arguments mkTensor {A} shape item.

Definition ndim {A} (t : tensor A) : nat := length (shape t).

(** [idx] is a valid multi-index for shape [s]. *)
Definition in_range (s idx : list nat) : Prop := Forall2 lt idx s.

Definition teq {A} (t1 t2 : tensor A) : Prop :=
  shape t1 = shape t2 /\
  forall idx, in_range (shape t1) idx -> item t1 idx = item t2 idx.

(** [torch.tensor(x)] for a Python scalar: a rank-0 tensor. *)
Definition scalar_tensor {A} (x : A) : tensor A := mkTensor [] (fun _ => x).

(** [torch.tensor([x0, x1, ...])]. *)
Definition tensor1 {A} (d : A) (l : list A) : tensor A :=
  mkTensor [length l]
    (fun idx => match idx with
                | [k] => nth k l d
                | _ => d
                end).

(** [torch.tensor([[..], [..]])]: a matrix given by its rows. *)
Definition tensor2 {A} (d : A) (rows : list (list A)) : tensor A :=
  mkTensor [length rows; length (hd [] rows)]
    (fun idx => match idx with
                | [i; j] => nth j (nth i rows []) d
                | _ => d
                end).

(** [torch.eye(n, dtype=torch.cdouble)]. *)
Definition eye (n : nat) : tensor C :=
  mkTensor [n; n]
    (fun idx => match idx with
                | [i; j] => if Nat.eqb i j then Cone else Czero
                | _ => Czero
                end).

(** Entry-wise maps: [torch.cos], [torch.sin], [torch.exp], [torch.conj],
    division by a Python number, multiplication by a Python scalar, and
    the promotion of a real tensor in a mixed product. *)
Definition tmap {A B} (f : A -> B) (t : tensor A) : tensor B :=
  mkTensor (shape t) (fun idx => f (item t idx)).

Definition tcos : tensor R -> tensor R := tmap cos.
Definition tsin : tensor R -> tensor R := tmap sin.
Definition texp : tensor C -> tensor C := tmap Cexp.
Definition tconj : tensor C -> tensor C := tmap Cconj.
Definition to_complex : tensor R -> tensor C := tmap RtoC.
Definition tdivr (t : tensor R) (x : R) : tensor R := tmap (fun a => a / x) t.
Definition tdivc (t : tensor C) (x : R) : tensor C := tmap (fun a => Cdiv a (RtoC x)) t.
Definition smul (c : C) (t : tensor C) : tensor C := tmap (Cmult c) t.
(** [-t]. *)
Definition tneg : tensor R -> tensor R := tmap Ropp.

(** [len(t)]: the size of the first axis; a rank-0 tensor has no length. *)
Definition len {A} (t : tensor A) : result nat :=
  match shape t with
  | [] => Raise TypeError
  | n :: _ => Ok n
  end.

(** [t.size(d)] for a non-negative [d]. *)
Definition size {A} (t : tensor A) (d : nat) : result nat :=
  match nth_error (shape t) d with
  | Some n => Ok n
  | None => Raise IndexError
  end.

(** [t.size(-1)]. *)
Definition size_last {A} (t : tensor A) : result nat :=
  match rev (shape t) with
  | n :: _ => Ok n
  | [] => Raise IndexError
  end.

(** [t.squeeze(0)]: drops the first axis when it has size one, and is the
    identity otherwise. *)
Definition squeeze0 {A} (t : tensor A) : tensor A :=
  match shape t with
  | 1%nat :: s => mkTensor s (fun idx => item t (0%nat :: idx))
  | _ => t
  end.

(** [t.unsqueeze(d)]: a new axis of size one at position [d]. *)
Definition unsqueeze {A} (d : nat) (t : tensor A) : result (tensor A) :=
  if (d <=? ndim t)%nat
  then Ok (mkTensor (firstn d (shape t) ++ 1%nat :: skipn d (shape t))
                    (fun idx => item t (firstn d idx ++ skipn (S d) idx)))
  else Raise IndexError.

Fixpoint zip_with {A B D} (f : A -> B -> D) (l : list A) (l' : list B) : list D :=
  match l, l' with
  | a :: l, b :: l' => f a b :: zip_with f l l'
  | _, _ => []
  end.

(** [t.repeat(reps)]: the shape is padded with leading ones up to the
    length of [reps], every axis is tiled; fewer repeat counts than axes is
    an error. *)
Definition trepeat {A} (reps : list nat) (t : tensor A) : result (tensor A) :=
  let pad := (length reps - ndim t)%nat in
  let padded := List.repeat 1%nat pad ++ shape t in
  if (length reps <? ndim t)%nat then Raise RuntimeError
  else Ok (mkTensor (zip_with Nat.mul padded reps)
                    (fun idx => item t (skipn pad (zip_with Nat.modulo idx padded)))).

(** [torch.permute(t, dims)]: axis [k] of the result is axis [dims[k]] of
    [t]. *)
Definition is_perm (dims : list nat) : bool :=
  forallb (fun k => existsb (Nat.eqb k) dims) (seq 0 (length dims)).

Fixpoint index_of (a : nat) (l : list nat) : nat :=
  match l with
  | [] => 0%nat
  | d :: l' => if Nat.eqb d a then 0%nat else S (index_of a l')
  end.

Definition permute {A} (dims : list nat) (t : tensor A) : result (tensor A) :=
  if (length dims =? ndim t)%nat && is_perm dims
  then Ok (mkTensor (map (fun d => nth d (shape t) 0%nat) dims)
             (fun idx => item t (map (fun a => nth (index_of a dims) idx 0%nat)
                                     (seq 0 (length dims)))))
  else Raise RuntimeError.

(** [t[i, :]]: selection along the first axis of a tensor of rank 2 or
    more; on a lower rank there are too many indices. *)
Definition select0 {A} (i : nat) (t : tensor A) : result (tensor A) :=
  match shape t with
  | n :: (_ :: _) as s =>
      if (i <? n)%nat
      then Ok (mkTensor s (fun idx => item t (i :: idx)))
      else Raise IndexError
  | _ => Raise IndexError
  end.

(** Broadcasting of two shapes: the shorter one is padded with leading
    ones, then two sizes are compatible when they agree or one of them
    is one. *)
Definition pad_shape (n : nat) (s : list nat) : list nat :=
  List.repeat 1%nat (n - length s) ++ s.

Fixpoint broadcast_aligned (a b : list nat) : option (list nat) :=
  match a, b with
  | [], [] => Some []
  | x :: a', y :: b' =>
      match broadcast_aligned a' b' with
      | None => None
      | Some r =>
          if Nat.eqb x y then Some (x :: r)
          else if Nat.eqb x 1 then Some (y :: r)
          else if Nat.eqb y 1 then Some (x :: r)
          else None
      end
  | _, _ => None
  end.

Definition broadcast_shapes (a b : list nat) : option (list nat) :=
  let n := Nat.max (length a) (length b) in
  broadcast_aligned (pad_shape n a) (pad_shape n b).

(** The index of an operand of shape [s] read for the result index [idx]:
    the extra leading axes are dropped and axes of size one read entry 0. *)
Definition bindex (s idx : list nat) : list nat :=
  zip_with (fun x i => if Nat.eqb x 1 then 0%nat else i) s
           (skipn (length idx - length s) idx).

(** A binary entry-wise operation with broadcasting. *)
Definition broadcast2 {A B D} (f : A -> B -> D) (t1 : tensor A) (t2 : tensor B)
  : result (tensor D) :=
  match broadcast_shapes (shape t1) (shape t2) with
  | Some s =>
      Ok (mkTensor s (fun idx => f (item t1 (bindex (shape t1) idx))
                                   (item t2 (bindex (shape t2) idx))))
  | None => Raise RuntimeError
  end.

Definition tadd : tensor C -> tensor C -> result (tensor C) := broadcast2 Cplus.
Definition tsub : tensor C -> tensor C -> result (tensor C) := broadcast2 Cminus.
Definition tmul : tensor C -> tensor C -> result (tensor C) := broadcast2 Cmult.
Definition taddr : tensor R -> tensor R -> result (tensor R) := broadcast2 Rplus.
Definition tsubr : tensor R -> tensor R -> result (tensor R) := broadcast2 Rminus.

(** Assignment [t[i, j, :] = v] on a tensor of rank 3 or more.  The
    leading axes of size one of [v] are dropped, and what remains must
    expand to the shape of the slice. *)
Fixpoint strip_ones (s : list nat) : list nat :=
  match s with
  | 1%nat :: s' => strip_ones s'
  | _ => s
  end.

Fixpoint expand_aligned (src dst : list nat) : bool :=
  match src, dst with
  | [], [] => true
  | x :: src', y :: dst' => (Nat.eqb x y || Nat.eqb x 1) && expand_aligned src' dst'
  | _, _ => false
  end.

Definition expandable (src dst : list nat) : bool :=
  (length src <=? length dst)%nat && expand_aligned (pad_shape (length dst) src) dst.

Definition setitem2 {A} (i j : nat) (v : tensor A) (t : tensor A) : result (tensor A) :=
  match shape t with
  | n0 :: n1 :: (_ :: _) as s =>
      if (i <? n0)%nat && (j <? n1)%nat then
        let vs := strip_ones (shape v) in
        if expandable vs s then
          Ok (mkTensor (shape t)
                (fun idx =>
                   match idx with
                   | i' :: j' :: rest =>
                       if Nat.eqb i' i && Nat.eqb j' j
                       then item v (List.repeat 0%nat (ndim v - length vs) ++ bindex vs rest)
                       else item t idx
                   | _ => item t idx
                   end))
        else Raise RuntimeError
      else Raise IndexError
  | _ => Raise IndexError
  end.

(* ================================================================== *)
(** ** The collaborators of the gate classes

    [pyqtorch.core.batched_operation] and [pyqtorch.core.utils] are
    imported by the module and are not part of it. *)

Class Collaborators : Type := {
  _apply_batch_gate :
    tensor C -> tensor C -> list nat -> nat -> nat -> result (tensor C);
  create_controlled_batch_from_operation :
    tensor C -> nat -> result (tensor C)
}.

(** Modelled from the spec: the fixed base matrices of the registry, the
    2x2 identity and the Pauli matrices X, Y and Z. *)
Definition IMAT : tensor C := tensor2 Czero [[Cone; Czero]; [Czero; Cone]].
Definition XMAT : tensor C := tensor2 Czero [[Czero; Cone]; [Cone; Czero]].
Definition YMAT : tensor C := tensor2 Czero [[Czero; Copp Ci]; [Ci; Czero]].
Definition ZMAT : tensor C := tensor2 Czero [[Cone; Czero]; [Czero; Copp Cone]].

(** Modelled from the spec: [OPERATIONS_DICT] of [pyqtorch.core.utils], the
    registry of the base matrices under the names "I", "X", "Y" and "Z";
    any other name is unknown. *)
Definition OPERATIONS_DICT (name : string) : result (tensor C) :=
  if String.eqb name "I" then Ok IMAT
  else if String.eqb name "X" then Ok XMAT
  else if String.eqb name "Y" then Ok YMAT
  else if String.eqb name "Z" then Ok ZMAT
  else Raise KeyError.

(* ================================================================== *)
(** ** rot_matrices *)

Definition rot_matrices (theta : tensor R) (P I : tensor C) (batch_size : nat)
  : result (tensor C) :=
  cos_t <- unsqueeze 0 (tcos (tdivr theta 2)) >>= unsqueeze 1 ;;
  cos_t <- trepeat [2; 2; 1]%nat cos_t ;;
  sin_t <- unsqueeze 0 (tsin (tdivr theta 2)) >>= unsqueeze 1 ;;
  sin_t <- trepeat [2; 2; 1]%nat sin_t ;;
  batch_imat <- unsqueeze 2 I >>= trepeat [1; 1; batch_size]%nat ;;
  batch_operation_mat <- unsqueeze 2 P >>= trepeat [1; 1; batch_size]%nat ;;
  lhs <- tmul (to_complex cos_t) batch_imat ;;
  rhs <- tmul (smul Ci (to_complex sin_t)) batch_operation_mat ;;
  tsub lhs rhs.

(* ================================================================== *)
(** ** class RotationGate, and RX, RY, RZ *)

Module RotationGate.

Record t : Type := mk {
  qubits : list nat;
  n_qubits : nat;
  gate : string;
  imat : tensor C;
  paulimat : tensor C
}.

Definition n_params : nat := 1.

Definition init (gate : string) (qubits : list nat) (n_qubits : nat) : result t :=
  imat <- OPERATIONS_DICT "I" ;;
  paulimat <- OPERATIONS_DICT gate ;;
  Ok (mk qubits n_qubits gate imat paulimat).

Definition matrices (self : t) (thetas : tensor R) : result (tensor C) :=
  let theta := if Nat.eqb (ndim thetas) 2 then squeeze0 thetas else thetas in
  batch_size <- len theta ;;
  rot_matrices theta (paulimat self) (imat self) batch_size.

Definition apply `{Collaborators} (self : t) (matrices state : tensor C)
  : result (tensor C) :=
  batch_size <- size_last matrices ;;
  _apply_batch_gate state matrices (qubits self) (n_qubits self) batch_size.

Definition forward `{Collaborators} (self : t) (state : tensor C) (thetas : tensor R)
  : result (tensor C) :=
  mats <- matrices self thetas ;;
  apply self mats state.

End RotationGate.

Definition RX (qubits : list nat) (n_qubits : nat) : result RotationGate.t :=
  RotationGate.init "X" qubits n_qubits.
Definition RY (qubits : list nat) (n_qubits : nat) : result RotationGate.t :=
  RotationGate.init "Y" qubits n_qubits.
Definition RZ (qubits : list nat) (n_qubits : nat) : result RotationGate.t :=
  RotationGate.init "Z" qubits n_qubits.

(* ================================================================== *)
(** ** class U *)

Module U.

Record t : Type := mk {
  qubits : list nat;
  n_qubits : nat;
  a : tensor C;
  b : tensor C;
  c : tensor C;
  d : tensor C
}.

Definition n_params : nat := 3.

Definition init (qubits : list nat) (n_qubits : nat) : result t :=
  a <- unsqueeze 2 (tensor2 Czero [[Cone; Czero]; [Czero; Czero]]) ;;
  b <- unsqueeze 2 (tensor2 Czero [[Czero; Cone]; [Czero; Czero]]) ;;
  c <- unsqueeze 2 (tensor2 Czero [[Czero; Czero]; [Cone; Czero]]) ;;
  d <- unsqueeze 2 (tensor2 Czero [[Czero; Czero]; [Czero; Cone]]) ;;
  Ok (mk qubits n_qubits a b c d).

Definition matrices (self : t) (thetas : tensor R) : result (tensor C) :=
  thetas <- (if Nat.eqb (ndim thetas) 1 then unsqueeze 1 thetas else Ok thetas) ;;
  n0 <- size thetas 0 ;;
  _ <- assert (Nat.eqb n0 3) ;;
  phi <- select0 0 thetas ;;
  theta <- select0 1 thetas ;;
  omega <- select0 2 thetas ;;
  batch_size <- size thetas 1 ;;
  s <- taddr phi omega ;;
  let t_plus := texp (tdivc (smul (Copp Ci) (to_complex s)) 2) in
  m <- tsubr phi omega ;;
  let t_minus := texp (tdivc (smul (Copp Ci) (to_complex m)) 2) in
  sin_t <- unsqueeze 0 (tsin (tdivr theta 2)) >>= unsqueeze 1
             >>= trepeat [2; 2; 1]%nat ;;
  cos_t <- unsqueeze 0 (tcos (tdivr theta 2)) >>= unsqueeze 1
             >>= trepeat [2; 2; 1]%nat ;;
  a <- trepeat [1; 1; batch_size]%nat (a self)
         >>= (fun x => tmul x (to_complex cos_t))
         >>= (fun x => tmul x t_plus) ;;
  b <- trepeat [1; 1; batch_size]%nat (b self)
         >>= (fun x => tmul x (to_complex sin_t))
         >>= (fun x => tmul x (tconj t_minus)) ;;
  c <- trepeat [1; 1; batch_size]%nat (c self)
         >>= (fun x => tmul x (to_complex sin_t))
         >>= (fun x => tmul x t_minus) ;;
  d <- trepeat [1; 1; batch_size]%nat (d self)
         >>= (fun x => tmul x (to_complex cos_t))
         >>= (fun x => tmul x (tconj t_plus)) ;;
  tsub a b >>= (fun x => tadd x c) >>= (fun x => tadd x d).

Definition apply `{Collaborators} (self : t) (matrices state : tensor C)
  : result (tensor C) :=
  batch_size <- size_last matrices ;;
  _apply_batch_gate state matrices (qubits self) (n_qubits self) batch_size.

Definition forward `{Collaborators} (self : t) (state : tensor C) (thetas : tensor R)
  : result (tensor C) :=
  mats <- matrices self thetas ;;
  apply self mats state.

End U.

(* ================================================================== *)
(** ** class ControlledRotationGate, and CRX, CRY, CRZ *)

Module ControlledRotationGate.

Record t : Type := mk {
  qubits : list nat;
  n_qubits : nat;
  gate : string;
  imat : tensor C;
  paulimat : tensor C
}.

Definition n_params : nat := 1.

Definition init (gate : string) (qubits : list nat) (n_qubits : nat) : result t :=
  imat <- OPERATIONS_DICT "I" ;;
  paulimat <- OPERATIONS_DICT gate ;;
  Ok (mk qubits n_qubits gate imat paulimat).

Definition matrices (self : t) (thetas : tensor R) : result (tensor C) :=
  let theta := if Nat.eqb (ndim thetas) 2 then squeeze0 thetas else thetas in
  batch_size <- len theta ;;
  rot_matrices theta (paulimat self) (imat self) batch_size.

Definition apply `{Collaborators} (self : t) (matrices state : tensor C)
  : result (tensor C) :=
  batch_size <- size_last matrices ;;
  controlled_mats <- create_controlled_batch_from_operation matrices batch_size ;;
  _apply_batch_gate state controlled_mats (qubits self) (n_qubits self) batch_size.

Definition forward `{Collaborators} (self : t) (state : tensor C) (thetas : tensor R)
  : result (tensor C) :=
  mats <- matrices self thetas ;;
  apply self mats state.

End ControlledRotationGate.

Definition CRX (qubits : list nat) (n_qubits : nat) : result ControlledRotationGate.t :=
  ControlledRotationGate.init "X" qubits n_qubits.
Definition CRY (qubits : list nat) (n_qubits : nat) : result ControlledRotationGate.t :=
  ControlledRotationGate.init "Y" qubits n_qubits.
Definition CRZ (qubits : list nat) (n_qubits : nat) : result ControlledRotationGate.t :=
  ControlledRotationGate.init "Z" qubits n_qubits.

(* ================================================================== *)
(** ** class CPHASE *)

Module CPHASE.

Record t : Type := mk {
  qubits : list nat;
  n_qubits : nat;
  imat : tensor C
}.

Definition n_params : nat := 1.

Definition init (qubits : list nat) (n_qubits : nat) : t :=
  mk qubits n_qubits (eye 4).

Definition matrices (self : t) (thetas : tensor R) : result (tensor C) :=
  let theta := if Nat.eqb (ndim thetas) 2 then squeeze0 thetas else thetas in
  batch_size <- len theta ;;
  mat <- trepeat [batch_size; 1; 1]%nat (imat self) ;;
  mat <- permute [1; 2; 0]%nat mat ;;
  phase_rotation_angles <-
    tmul (scalar_tensor Ci) (to_complex theta)
      >>= (fun x => unsqueeze 0 (texp x)) >>= unsqueeze 1 ;;
  setitem2 3 3 phase_rotation_angles mat.

Definition apply `{Collaborators} (self : t) (matrices state : tensor C)
  : result (tensor C) :=
  batch_size <- size_last matrices ;;
  _apply_batch_gate state matrices (qubits self) (n_qubits self) batch_size.

Definition forward `{Collaborators} (self : t) (state : tensor C) (thetas : tensor R)
  : result (tensor C) :=
  mats <- matrices self thetas ;;
  apply self mats state.

End CPHASE.

(* ================================================================== *)
(** ** Matrices: the slices of a gate matrix batch *)

Definition matrix : Type := nat -> nat -> C.

(** The slice [M[:, :, k]] of a matrix batch. *)
Definition slice (M : tensor C) (k : nat) : matrix := fun i j => item M [i; j; k].

(** A rank-2 tensor read as a matrix. *)
Definition as_matrix (M : tensor C) : matrix := fun i j => item M [i; j].

Definition Csum (l : list C) : C := fold_right Cplus Czero l.

Definition mid : matrix := fun i j => if Nat.eqb i j then Cone else Czero.
Definition mmul (n : nat) (a b : matrix) : matrix :=
  fun i j => Csum (map (fun l => Cmult (a i l) (b l j)) (seq 0 n)).
Definition madj (a : matrix) : matrix := fun i j => Cconj (a j i).
Definition mscale (z : C) (a : matrix) : matrix := fun i j => Cmult z (a i j).
Definition msub (a b : matrix) : matrix := fun i j => Cminus (a i j) (b i j).

(** Equality of the [n] x [n] entries. *)
Definition meq (n : nat) (a b : matrix) : Prop :=
  forall i j, (i < n)%nat -> (j < n)%nat -> a i j = b i j.

Definition unitary (n : nat) (a : matrix) : Prop := meq n (mmul n a (madj a)) mid.

(** Equality up to a global phase: a factor of modulus one. *)
Definition meq_up_to_phase (n : nat) (a b : matrix) : Prop :=
  exists g : C, Cnorm2 g = 1 /\ meq n a (mscale g b).

(** The closed form of a rotation about the axis of [P], in the words of
    the specification: R(theta) = cos(theta/2) I - i sin(theta/2) P. *)
Definition rotation_closed_form (I P : matrix) (theta : R) : matrix :=
  msub (mscale (RtoC (cos (theta / 2))) I)
       (mscale (Cmult Ci (RtoC (sin (theta / 2)))) P).

(** The closed form of the U gate, entry by entry:
    a cos(t/2) e^(-i(p+w)/2) - b sin(t/2) e^(+i(p-w)/2)
    + c sin(t/2) e^(-i(p-w)/2) + d cos(t/2) e^(+i(p+w)/2),
    with a, b, c, d the projectors |0><0|, |0><1|, |1><0|, |1><1|. *)
Definition expi (x : R) : C := (cos x, sin x).

Definition U_closed_form (phi theta omega : R) : matrix :=
  fun i j =>
    match i, j with
    | 0%nat, 0%nat => Cmult (RtoC (cos (theta / 2))) (expi (- ((phi + omega) / 2)))
    | 0%nat, 1%nat => Copp (Cmult (RtoC (sin (theta / 2))) (expi ((phi - omega) / 2)))
    | 1%nat, 0%nat => Cmult (RtoC (sin (theta / 2))) (expi (- ((phi - omega) / 2)))
    | 1%nat, 1%nat => Cmult (RtoC (cos (theta / 2))) (expi ((phi + omega) / 2))
    | _, _ => Czero
    end.

(** The controlled-phase matrix in the words of the specification:
    diagonal, with entries 1, 1, 1, e^(i theta). *)
Definition CPHASE_closed_form (theta : R) : matrix :=
  fun i j =>
    if Nat.eqb i j then (if Nat.eqb i 3 then expi theta else Cone) else Czero.

(** A parameter batch for a gate with one parameter: shape (B,) or (1,B). *)
Definition batch_shape (thetas : tensor R) (B : nat) : Prop :=
  shape thetas = [B] \/ shape thetas = [1%nat; B].

(** Its k-th angle. *)
Definition batch_angle (thetas : tensor R) (k : nat) : R :=
  match shape thetas with
  | [_] => item thetas [k]
  | _ => item thetas [0%nat; k]
  end.

(* ================================================================== *)
(** ** The collaborators, from their contracts *)

Fixpoint eqb_shape (a b : list nat) : bool :=
  match a, b with
  | [], [] => true
  | x :: a', y :: b' => Nat.eqb x y && eqb_shape a' b'
  | _, _ => false
  end.

(** Modelled from the spec: [create_controlled_batch_from_operation]
    (embed_as_controlled) of [pyqtorch.core.batched_operation].  It returns
    a matrix batch of double the linear dimension, with the given batch in
    the lower-right block and the identity elsewhere, and fails when the
    given matrices are not square. *)
Definition embed_as_controlled (matrix_batch : tensor C) (batch_size : nat)
  : result (tensor C) :=
  match shape matrix_batch with
  | [d; d'; _] =>
      if Nat.eqb d d'
      then Ok (mkTensor [2 * d; 2 * d; batch_size]%nat
                 (fun idx =>
                    match idx with
                    | [i; j; k] =>
                        if (d <=? i)%nat && (d <=? j)%nat
                        then item matrix_batch [i - d; j - d; k]%nat
                        else if Nat.eqb i j then Cone else Czero
                    | _ => Czero
                    end))
      else Raise ShapeMismatchError
  | _ => Raise ShapeMismatchError
  end.

(** Bits of a matrix index, first target qubit first (most significant):
    the first qubit of a controlled gate is the control, whose high value
    selects the lower-right block. *)
Fixpoint nat_to_bits (k n : nat) : list nat :=
  match k with
  | O => []
  | S k' => ((n / 2 ^ k') mod 2)%nat :: nat_to_bits k' n
  end.

Definition bits_to_nat (bits : list nat) : nat :=
  fold_left (fun acc b => (2 * acc + b)%nat) bits 0%nat.

Fixpoint update_nth {A} (n : nat) (x : A) (l : list A) : list A :=
  match l, n with
  | [], _ => []
  | _ :: l', O => x :: l'
  | a :: l', S n' => a :: update_nth n' x l'
  end.

Fixpoint set_bits (qs bits idx : list nat) : list nat :=
  match qs, bits with
  | q :: qs', b :: bits' => set_bits qs' bits' (update_nth q b idx)
  | _, _ => idx
  end.

(** Modelled from the spec: [_apply_batch_gate] of
    [pyqtorch.core.batched_operation].  It contracts the matrix batch
    against the target qubit axes of the state, keeping the other axes and
    the batch axis; it fails when a target qubit is not below [n_qubits],
    when the matrices are not of dimension 2^len(target_qubits), or when
    the batch sizes disagree. *)
Definition apply_batch_gate (state matrix_batch : tensor C)
    (target_qubits : list nat) (n_qubits batch_size : nat) : result (tensor C) :=
  let k := length target_qubits in
  if forallb (fun q => (q <? n_qubits)%nat) target_qubits
     && eqb_shape (shape matrix_batch) [2 ^ k; 2 ^ k; batch_size]%nat
     && eqb_shape (shape state) (List.repeat 2%nat n_qubits ++ [batch_size])
  then Ok (mkTensor (shape state)
             (fun idx =>
                let b := nth n_qubits idx 0%nat in
                let row := bits_to_nat (map (fun q => nth q idx 0%nat) target_qubits) in
                Csum (map (fun col =>
                             Cmult (item matrix_batch [row; col; b])
                                   (item state (set_bits target_qubits (nat_to_bits k col) idx)))
                          (seq 0 (2 ^ k)))))
  else Raise ShapeMismatchError.

Definition spec_collaborators : Collaborators := {|
  _apply_batch_gate := apply_batch_gate;
  create_controlled_batch_from_operation := embed_as_controlled
|}.

(** The state has no amplitude where qubit [q] is not [v]: qubit [q] is
    fixed at |v>. *)
Definition qubit_fixed (q v : nat) (state : tensor C) : Prop :=
  forall idx, in_range (shape state) idx -> nth q idx 0%nat <> v ->
    item state idx = Czero.

(** The computational basis state |bits>, with batch size one. *)
Definition basis_state (bits : list nat) : tensor C :=
  mkTensor (List.repeat 2%nat (length bits) ++ [1%nat])
    (fun idx => if eqb_shape idx (bits ++ [0%nat]) then Cone else Czero).

(* ================================================================== *)
(** ** CPHASE.matrices with its storage

    [CPHASE.matrices] writes in place.  Here the complex tensors it
    handles are views of storages kept in a store: [repeat] copies into a
    new storage, [permute] returns a view of the storage of its argument,
    and the assignment [mat[3, 3, :] = ...] writes through the view.  The
    real parameter tensor and the phases, which are only read, stay
    values. *)

Module Mem.

Definition storage : Type := list C.
Definition store : Type := list storage.

(** A tensor object: a strided view of the storage [buf]. *)
Record view : Type := mkView {
  buf : nat;
  vshape : list nat;
  strides : list nat;
  offset : nat
}.

Definition numel (s : list nat) : nat := fold_right Nat.mul 1%nat s.

Fixpoint contiguous_strides (s : list nat) : list nat :=
  match s with
  | [] => []
  | _ :: s' => numel s' :: contiguous_strides s'
  end.

(** The multi-index of position [p] of a contiguous tensor of shape [s]. *)
Fixpoint unravel (s : list nat) (p : nat) : list nat :=
  match s with
  | [] => []
  | _ :: s' => (p / numel s')%nat :: unravel s' (p mod numel s')
  end.

Definition offset_of (v : view) (idx : list nat) : nat :=
  (offset v + fold_right Nat.add 0 (zip_with Nat.mul idx (strides v)))%nat.

(** The value a view currently shows. *)
Definition read (h : store) (v : view) : tensor C :=
  mkTensor (vshape v) (fun idx => nth (offset_of v idx) (nth (buf v) h []) Czero).

(** A new storage holding the entries of [t] in row-major order. *)
Definition alloc (t : tensor C) (h : store) : store * view :=
  (h ++ [map (fun p => item t (unravel (shape t) p)) (seq 0 (numel (shape t)))],
   mkView (length h) (shape t) (contiguous_strides (shape t)) 0).

(** [v.repeat(reps)] copies. *)
Definition repeat (reps : list nat) (v : view) (h : store) : result (store * view) :=
  t <- trepeat reps (read h v) ;;
  Ok (alloc t h).

(** [torch.permute(v, dims)] is a view of the same storage. *)
Definition permute (dims : list nat) (v : view) : result view :=
  if (length dims =? length (vshape v))%nat && is_perm dims
  then Ok (mkView (buf v)
                  (map (fun d => nth d (vshape v) 0%nat) dims)
                  (map (fun d => nth d (strides v) 0%nat) dims)
                  (offset v))
  else Raise RuntimeError.

Fixpoint all_indices (s : list nat) : list (list nat) :=
  match s with
  | [] => [[]]
  | n :: s' => flat_map (fun i => map (cons i) (all_indices s')) (seq 0 n)
  end.

Definition write (l : nat) (p : nat) (x : C) (h : store) : store :=
  update_nth l (update_nth p x (nth l h [])) h.

(** [v[i, j, :] = val] writes the storage of [v]. *)
Definition setitem2 (i j : nat) (val : tensor C) (v : view) (h : store) : result store :=
  match vshape v with
  | n0 :: n1 :: (_ :: _) as s =>
      if (i <? n0)%nat && (j <? n1)%nat then
        let vs := strip_ones (shape val) in
        if expandable vs s then
          Ok (fold_left
                (fun h rest =>
                   write (buf v) (offset_of v (i :: j :: rest))
                         (item val (List.repeat 0%nat (ndim val - length vs)
                                      ++ bindex vs rest)) h)
                (all_indices s) h)
        else Raise RuntimeError
      else Raise IndexError
  | _ => Raise IndexError
  end.

(** The gate object, with its registered buffer [imat] in the store. *)
Record t : Type := mk {
  qubits : list nat;
  n_qubits : nat;
  imat : view
}.

Definition init (qubits : list nat) (n_qubits : nat) (h : store) : store * t :=
  let '(h', imat) := alloc (eye 4) h in
  (h', mk qubits n_qubits imat).

Definition matrices (self : t) (thetas : tensor R) (h : store)
  : result (store * view) :=
  let theta := if Nat.eqb (ndim thetas) 2 then squeeze0 thetas else thetas in
  batch_size <- len theta ;;
  '(h, mat) <- repeat [batch_size; 1; 1]%nat (imat self) h ;;
  mat <- permute [1; 2; 0]%nat mat ;;
  phase_rotation_angles <-
    tmul (scalar_tensor Ci) (to_complex theta)
      >>= (fun x => unsqueeze 0 (texp x)) >>= unsqueeze 1 ;;
  h <- setitem2 3 3 phase_rotation_angles mat h ;;
  Ok (h, mat).

End Mem.

(* ================================================================== *)
(** ** More on matrices *)

Definition mopp (a : matrix) : matrix := fun i j => Copp (a i j).

(** The determinant of a 2x2 matrix. *)
Definition mdet2 (a : matrix) : C :=
  Cminus (Cmult (a 0%nat 0%nat) (a 1%nat 1%nat)) (Cmult (a 0%nat 1%nat) (a 1%nat 0%nat)).

Definition hermitian (n : nat) (a : matrix) : Prop := meq n (madj a) a.

(* ================================================================== *)
(** * Properties of the gates *)

(** ** Facts on indices and shapes *)

Lemma in_range_nil : in_range [] [].
Proof. constructor. Qed.

Lemma in_range_cons n s i idx :
  in_range (n :: s) (i :: idx) <-> (i < n)%nat /\ in_range s idx.
Proof.
  unfold in_range. split.
  - intros H; inversion H; subst; auto.
  - intros [H1 H2]; constructor; assumption.
Qed.

Lemma in_range_length s idx : in_range s idx -> length idx = length s.
Proof. unfold in_range. induction 1; simpl; congruence. Qed.

Lemma in_range_app_inv p s ip js :
  length ip = length p -> in_range (p ++ s) (ip ++ js) ->
  in_range p ip /\ in_range s js.
Proof.
  revert ip. induction p as [|x p IH]; intros [|i ip] Hl H; simpl in *; try discriminate.
  - split; [constructor | assumption].
  - apply in_range_cons in H. destruct H as [Hi H].
    destruct (IH ip) as [H1 H2]; [lia | assumption |].
    split; [apply in_range_cons; auto | assumption].
Qed.

Lemma zip_index_id s idx :
  in_range s idx ->
  zip_with (fun x i => if Nat.eqb x 1 then 0%nat else i) s idx = idx.
Proof.
  unfold in_range. induction 1 as [|i x idx s Hlt _ IH]; simpl; [reflexivity|].
  rewrite IH. destruct (Nat.eqb_spec x 1); [f_equal; lia | reflexivity].
Qed.

Lemma bindex_suffix s ip js :
  in_range s js -> bindex s (ip ++ js) = js.
Proof.
  intros H. unfold bindex. rewrite length_app, (@in_range_length _ _ H).
  replace (length ip + length s - length s)%nat with (length ip + 0)%nat by lia.
  rewrite skipn_app, Nat.add_0_r, skipn_all, Nat.sub_diag. simpl.
  apply zip_index_id, H.
Qed.

Lemma bindex_id s idx : in_range s idx -> bindex s idx = idx.
Proof. intros H. apply (@bindex_suffix s [] idx H). Qed.

Lemma broadcast_aligned_refl s : broadcast_aligned s s = Some s.
Proof.
  induction s as [|x s IH]; simpl; [reflexivity|].
  now rewrite IH, Nat.eqb_refl.
Qed.

Lemma broadcast_aligned_ones_r p s :
  broadcast_aligned (p ++ s) (List.repeat 1%nat (length p) ++ s) = Some (p ++ s).
Proof.
  induction p as [|x p IH]; simpl; [apply broadcast_aligned_refl|].
  rewrite IH. destruct (Nat.eqb x 1); reflexivity.
Qed.

Lemma broadcast_aligned_ones_l p s :
  broadcast_aligned (List.repeat 1%nat (length p) ++ s) (p ++ s) = Some (p ++ s).
Proof.
  induction p as [|x p IH]; simpl; [apply broadcast_aligned_refl|].
  rewrite IH. destruct x as [|[|x]]; reflexivity.
Qed.

Lemma pad_shape_suffix p s : pad_shape (length (p ++ s)) s = List.repeat 1%nat (length p) ++ s.
Proof. unfold pad_shape. rewrite length_app. f_equal. f_equal. lia. Qed.

Lemma pad_shape_full s : pad_shape (length s) s = s.
Proof. unfold pad_shape. now rewrite Nat.sub_diag. Qed.

Lemma broadcast_shapes_suffix_r p s : broadcast_shapes (p ++ s) s = Some (p ++ s).
Proof.
  unfold broadcast_shapes.
  replace (Nat.max (length (p ++ s)) (length s)) with (length (p ++ s))
    by (rewrite length_app; lia).
  rewrite pad_shape_full, pad_shape_suffix. apply broadcast_aligned_ones_r.
Qed.

Lemma broadcast_shapes_suffix_l p s : broadcast_shapes s (p ++ s) = Some (p ++ s).
Proof.
  unfold broadcast_shapes.
  replace (Nat.max (length s) (length (p ++ s))) with (length (p ++ s))
    by (rewrite length_app; lia).
  rewrite pad_shape_full, pad_shape_suffix. apply broadcast_aligned_ones_l.
Qed.

(** ** Specifications of the tensor operations, in the shapes the gates use *)

Section TensorOps.
Context {A B D : Type}.

Lemma broadcast2_suffix_r (f : A -> B -> D) t1 t2 p :
  shape t1 = p ++ shape t2 ->
  exists t, broadcast2 f t1 t2 = Ok t /\ shape t = shape t1 /\
    forall ip js, in_range (shape t1) (ip ++ js) -> length ip = length p ->
      item t (ip ++ js) = f (item t1 (ip ++ js)) (item t2 js).
Proof.
  intros Hs. unfold broadcast2. rewrite Hs, broadcast_shapes_suffix_r.
  eexists; split; [reflexivity|]. split; [reflexivity|].
  intros ip js Hr Hl. simpl.
  destruct (@in_range_app_inv _ _ _ _ Hl Hr) as [_ Hjs].
  rewrite (@bindex_id _ _ Hr), (@bindex_suffix _ ip _ Hjs). reflexivity.
Qed.

Lemma broadcast2_suffix_l (f : A -> B -> D) t1 t2 p :
  shape t2 = p ++ shape t1 ->
  exists t, broadcast2 f t1 t2 = Ok t /\ shape t = shape t2 /\
    forall ip js, in_range (shape t2) (ip ++ js) -> length ip = length p ->
      item t (ip ++ js) = f (item t1 js) (item t2 (ip ++ js)).
Proof.
  intros Hs. unfold broadcast2. rewrite Hs, broadcast_shapes_suffix_l.
  eexists; split; [reflexivity|]. split; [reflexivity|].
  intros ip js Hr Hl. simpl.
  destruct (@in_range_app_inv _ _ _ _ Hl Hr) as [_ Hjs].
  rewrite (@bindex_id _ _ Hr), (@bindex_suffix _ ip _ Hjs). reflexivity.
Qed.

Lemma broadcast2_same (f : A -> B -> D) t1 t2 :
  shape t1 = shape t2 ->
  exists t, broadcast2 f t1 t2 = Ok t /\ shape t = shape t1 /\
    forall idx, in_range (shape t1) idx ->
      item t idx = f (item t1 idx) (item t2 idx).
Proof.
  intros Hs. destruct (@broadcast2_suffix_r f t1 t2 [] Hs) as (t & E & Ht & Hi).
  exists t. repeat split; trivial. intros idx Hr. apply (Hi [] idx Hr eq_refl).
Qed.
End TensorOps.

Section Tiling.
Context {A : Type}.

(** [v.unsqueeze(0).unsqueeze(1)] on a vector. *)
Lemma unsqueeze01 (v : tensor A) n :
  shape v = [n] ->
  exists t, unsqueeze 0 v >>= unsqueeze 1 = Ok t /\ shape t = [1; 1; n]%nat /\
    forall i j k, item t [i; j; k] = item v [k].
Proof.
  intros Hs. unfold unsqueeze, ndim. rewrite Hs. simpl. rewrite ?Hs. simpl.
  eexists; split; [reflexivity|]. split; reflexivity.
Qed.

(** [t.repeat((2, 2, 1))] on a (1,1,n) tensor. *)
Lemma trepeat221 (t : tensor A) n :
  shape t = [1; 1; n]%nat ->
  exists t', trepeat [2; 2; 1]%nat t = Ok t' /\ shape t' = [2; 2; n]%nat /\
    forall i j k, (k < n)%nat -> item t' [i; j; k] = item t [0; 0; k]%nat.
Proof.
  intros Hs. unfold trepeat, ndim. rewrite Hs.
  eexists; split; [reflexivity|]. split.
  - simpl. now rewrite Nat.mul_1_r.
  - intros i j k Hk. cbn [item length Nat.sub List.repeat app zip_with skipn].
    now rewrite !Nat.mod_1_r, (Nat.mod_small k n Hk).
Qed.

(** [M.unsqueeze(2).repeat(1, 1, n)] on a matrix. *)
Lemma batch_of_matrix (M : tensor A) a b n :
  shape M = [a; b] ->
  exists t, unsqueeze 2 M >>= trepeat [1; 1; n]%nat = Ok t /\
    shape t = [a; b; n] /\
    forall i j k, (i < a)%nat -> (j < b)%nat -> item t [i; j; k] = item M [i; j].
Proof.
  intros Hs. unfold unsqueeze, trepeat, ndim. rewrite Hs. simpl. rewrite ?Hs.
  eexists; split; [reflexivity|]. split.
  - simpl. now rewrite !Nat.mul_1_r, Nat.add_0_r.
  - intros i j k Hi Hj. cbn [item length Nat.sub List.repeat app zip_with skipn firstn].
    now rewrite (Nat.mod_small i a Hi), (Nat.mod_small j b Hj).
Qed.

(** [t.repeat(1, 1, n)] on a (a,b,1) tensor. *)
Lemma trepeat11n (t : tensor A) a b n :
  shape t = [a; b; 1]%nat ->
  exists t', trepeat [1; 1; n]%nat t = Ok t' /\ shape t' = [a; b; n] /\
    forall i j k, (i < a)%nat -> (j < b)%nat -> item t' [i; j; k] = item t [i; j; 0]%nat.
Proof.
  intros Hs. unfold trepeat, ndim. rewrite Hs.
  eexists; split; [reflexivity|]. split.
  - simpl. now rewrite !Nat.mul_1_r, Nat.add_0_r.
  - intros i j k Hi Hj. cbn [item length Nat.sub List.repeat app zip_with skipn].
    now rewrite (Nat.mod_small i a Hi), (Nat.mod_small j b Hj), Nat.mod_1_r.
Qed.
End Tiling.

(** ** Complex arithmetic *)

Ltac unfold_C :=
  unfold Cexp, Cdiv, Cmult, Cminus, Cplus, Copp, Cconj, RtoC, Ci, Cone, Czero, Cnorm2 in *;
  cbn [fst snd] in *.

(** Two complex numbers are equal when their parts are. *)
Ltac c_eq := unfold_C; apply injective_projections; cbn [fst snd].

Lemma cos2_sin2 x : cos x * cos x + sin x * sin x = 1.
Proof. generalize (sin2_cos2 x). unfold Rsqr. lra. Qed.

(** ** rot_matrices *)

Tactic Notation "step" constr(H) "as" ident(t) ident(Hs) ident(Hi) :=
  let E := fresh "E" in
  destruct H as (t & E & Hs & Hi); rewrite E; cbn [bind]; clear E.

Lemma in_range3 a b c i j k :
  (i < a)%nat -> (j < b)%nat -> (k < c)%nat -> in_range [a; b; c] [i; j; k].
Proof.
  intros. repeat (apply in_range_cons; split; trivial). apply in_range_nil.
Qed.

Section Broadcast.
Context {A B D : Type} (f : A -> B -> D).

Lemma broadcast2_333 t1 t2 a b n :
  shape t1 = [a; b; n] -> shape t2 = [a; b; n] ->
  exists t, broadcast2 f t1 t2 = Ok t /\ shape t = [a; b; n] /\
    forall i j k, (i < a)%nat -> (j < b)%nat -> (k < n)%nat ->
      item t [i; j; k] = f (item t1 [i; j; k]) (item t2 [i; j; k]).
Proof.
  intros H1 H2.
  destruct (@broadcast2_same _ _ _ f t1 t2) as (t & E & Ht & Hi); [congruence|].
  exists t. split; [assumption|]. split; [congruence|].
  intros i j k Hi' Hj Hk. apply Hi. rewrite H1. now apply in_range3.
Qed.

Lemma broadcast2_331 t1 t2 a b n :
  shape t1 = [a; b; n] -> shape t2 = [n] ->
  exists t, broadcast2 f t1 t2 = Ok t /\ shape t = [a; b; n] /\
    forall i j k, (i < a)%nat -> (j < b)%nat -> (k < n)%nat ->
      item t [i; j; k] = f (item t1 [i; j; k]) (item t2 [k]).
Proof.
  intros H1 H2.
  destruct (@broadcast2_suffix_r _ _ _ f t1 t2 [a; b]) as (t & E & Ht & Hi).
  { rewrite H1, H2. reflexivity. }
  exists t. split; [assumption|]. split; [congruence|].
  intros i j k Hi' Hj Hk. apply (Hi [i; j] [k]); [|reflexivity].
  rewrite H1. now apply in_range3.
Qed.

Lemma broadcast2_11 t1 t2 n :
  shape t1 = [n] -> shape t2 = [n] ->
  exists t, broadcast2 f t1 t2 = Ok t /\ shape t = [n] /\
    forall k, (k < n)%nat -> item t [k] = f (item t1 [k]) (item t2 [k]).
Proof.
  intros H1 H2.
  destruct (@broadcast2_same _ _ _ f t1 t2) as (t & E & Ht & Hi); [congruence|].
  exists t. split; [assumption|]. split; [congruence|].
  intros k Hk. apply Hi. rewrite H1. apply in_range_cons. split; [assumption|apply in_range_nil].
Qed.

Lemma broadcast2_01 t1 t2 n :
  shape t1 = [] -> shape t2 = [n] ->
  exists t, broadcast2 f t1 t2 = Ok t /\ shape t = [n] /\
    forall k, (k < n)%nat -> item t [k] = f (item t1 []) (item t2 [k]).
Proof.
  intros H1 H2.
  destruct (@broadcast2_suffix_l _ _ _ f t1 t2 [n]) as (t & E & Ht & Hi).
  { rewrite H1, H2. reflexivity. }
  exists t. split; [assumption|]. split; [congruence|].
  intros k Hk. apply (Hi [k] []); [|reflexivity].
  rewrite H2. apply in_range_cons. split; [assumption|apply in_range_nil].
Qed.
End Broadcast.

Lemma rot_matrices_spec (theta : tensor R) (P I : tensor C) (n : nat) :
  shape theta = [n] -> shape P = [2; 2]%nat -> shape I = [2; 2]%nat ->
  exists M, rot_matrices theta P I n = Ok M /\ shape M = [2; 2; n]%nat /\
    forall i j k, (i < 2)%nat -> (j < 2)%nat -> (k < n)%nat ->
      item M [i; j; k] =
      Cminus (Cmult (RtoC (cos (item theta [k] / 2))) (item I [i; j]))
             (Cmult (Cmult Ci (RtoC (sin (item theta [k] / 2)))) (item P [i; j])).
Proof.
  intros Ht HP HI. unfold rot_matrices, tmul, tsub.
  step (@unsqueeze01 _ (tcos (tdivr theta 2)) n Ht) as c0 Hc0 Hc0i.
  step (@trepeat221 _ c0 n Hc0) as cos_t Hcos Hcosi.
  step (@unsqueeze01 _ (tsin (tdivr theta 2)) n Ht) as s0 Hs0 Hs0i.
  step (@trepeat221 _ s0 n Hs0) as sin_t Hsin Hsini.
  step (@batch_of_matrix _ I 2 2 n HI) as bi Hbi Hbii.
  step (@batch_of_matrix _ P 2 2 n HP) as bp Hbp Hbpi.
  step (@broadcast2_333 _ _ _ Cmult (to_complex cos_t) bi 2 2 n Hcos Hbi) as l Hl Hli.
  step (@broadcast2_333 _ _ _ Cmult (smul Ci (to_complex sin_t)) bp 2 2 n Hsin Hbp)
    as r Hr Hri.
  destruct (@broadcast2_333 _ _ _ Cminus l r 2 2 n Hl Hr) as (M & E & HM & HMi).
  exists M. split; [assumption|]. split; [assumption|].
  intros i j k Hi Hj Hk.
  rewrite HMi, Hli, Hri by assumption.
  cbn [item to_complex smul tmap].
  rewrite Hcosi, Hc0i, Hsini, Hs0i, Hbii, Hbpi by assumption. reflexivity.
Qed.

(** The parameter normalisation shared by the gates with one parameter. *)
Lemma squeeze_batch (thetas : tensor R) n :
  batch_shape thetas n ->
  let theta := if Nat.eqb (ndim thetas) 2 then squeeze0 thetas else thetas in
  shape theta = [n] /\ forall k, item theta [k] = batch_angle thetas k.
Proof.
  unfold batch_shape, batch_angle, squeeze0, ndim.
  intros [H | H]; rewrite H; cbn; rewrite ?H; split; auto.
Qed.

Lemma OPERATIONS_DICT_shape gate P :
  OPERATIONS_DICT gate = Ok P -> shape P = [2; 2]%nat.
Proof.
  unfold OPERATIONS_DICT.
  repeat (match goal with |- context [String.eqb ?a ?b] => destruct (String.eqb a b) end);
    intros H; inversion H; reflexivity.
Qed.

Lemma RotationGate_init_inv gate qubits nq g :
  RotationGate.init gate qubits nq = Ok g ->
  RotationGate.imat g = IMAT /\ OPERATIONS_DICT gate = Ok (RotationGate.paulimat g) /\
  RotationGate.qubits g = qubits /\ RotationGate.n_qubits g = nq.
Proof.
  unfold RotationGate.init. cbn [OPERATIONS_DICT String.eqb Ascii.eqb Bool.eqb bind].
  destruct (OPERATIONS_DICT gate) as [P|e] eqn:E; cbn [bind]; intros H; inversion H.
  cbn. auto.
Qed.

Lemma RotationGate_matrices_spec gate qubits nq g thetas n :
  RotationGate.init gate qubits nq = Ok g -> batch_shape thetas n ->
  exists M, RotationGate.matrices g thetas = Ok M /\ shape M = [2; 2; n]%nat /\
    forall i j k, (i < 2)%nat -> (j < 2)%nat -> (k < n)%nat ->
      item M [i; j; k] =
      Cminus (Cmult (RtoC (cos (batch_angle thetas k / 2))) (item IMAT [i; j]))
             (Cmult (Cmult Ci (RtoC (sin (batch_angle thetas k / 2))))
                    (item (RotationGate.paulimat g) [i; j])).
Proof.
  intros Hg Hb. destruct (RotationGate_init_inv _ _ _ Hg) as (HI & HP & _).
  destruct (squeeze_batch Hb) as [Hs Ha].
  unfold RotationGate.matrices, len. rewrite Hs. cbn [bind]. rewrite HI.
  destruct (@rot_matrices_spec _ (RotationGate.paulimat g) IMAT n Hs
              (OPERATIONS_DICT_shape _ HP) eq_refl) as (M & E & HM & HMi).
  exists M. split; [assumption|]. split; [assumption|].
  intros i j k Hi Hj Hk. rewrite HMi, Ha by assumption. reflexivity.
Qed.

(** ** Rotations about a Pauli axis *)

Lemma pauli_cases gate P :
  OPERATIONS_DICT gate = Ok P -> P = IMAT \/ P = XMAT \/ P = YMAT \/ P = ZMAT.
Proof.
  unfold OPERATIONS_DICT.
  repeat (match goal with |- context [String.eqb ?a ?b] => destruct (String.eqb a b) end);
    intros H; inversion H; auto.
Qed.

(** Splits a goal on matrix entries of a 2x2 (or 4x4) matrix into its cases. *)
Ltac entries i j :=
  repeat (destruct i as [|i]; [|try lia]);
  repeat (destruct j as [|j]; [|try lia]).

(** *** Matrices up to [meq] *)

Lemma meq_refl n a : meq n a a.
Proof. intros i j _ _. reflexivity. Qed.

Lemma meq_sym n a b : meq n a b -> meq n b a.
Proof. intros H i j Hi Hj. symmetry. now apply H. Qed.

Lemma meq_trans n a b c : meq n a b -> meq n b c -> meq n a c.
Proof. intros H1 H2 i j Hi Hj. rewrite H1 by assumption. now apply H2. Qed.

Lemma mmul_meq n a a' b b' :
  meq n a a' -> meq n b b' -> meq n (mmul n a b) (mmul n a' b').
Proof.
  intros Ha Hb i j Hi Hj. unfold mmul. f_equal.
  apply map_ext_in. intros l Hl. apply in_seq in Hl.
  rewrite Ha, Hb by lia. reflexivity.
Qed.

Lemma madj_meq n a a' : meq n a a' -> meq n (madj a) (madj a').
Proof. intros Ha i j Hi Hj. unfold madj. now rewrite Ha. Qed.

Lemma unitary_meq n a a' : meq n a a' -> unitary n a' -> unitary n a.
Proof.
  intros Ha Hu. unfold unitary.
  eapply meq_trans; [apply mmul_meq; [exact Ha | apply madj_meq, Ha] | exact Hu].
Qed.

Lemma IMAT_identity : meq 2 (as_matrix IMAT) mid.
Proof. intros i j Hi Hj. entries i j; reflexivity. Qed.

Ltac pauli_entries HP i j :=
  destruct HP as [-> | [-> | [-> | ->]]];
  destruct i as [|[|i]]; try lia; destruct j as [|[|j]]; try lia;
  cbv [mmul madj rotation_closed_form msub mscale as_matrix mid Csum seq map fold_right
       item IMAT XMAT YMAT ZMAT tensor2 nth Nat.eqb];
  c_eq.

Lemma rot_unitary P theta :
  P = IMAT \/ P = XMAT \/ P = YMAT \/ P = ZMAT ->
  unitary 2 (rotation_closed_form (as_matrix IMAT) (as_matrix P) theta).
Proof.
  intros HP i j Hi Hj. pose proof (cos2_sin2 (theta / 2)) as Hcs.
  pauli_entries HP i j; nra.
Qed.

Lemma rot_inverse P theta :
  P = IMAT \/ P = XMAT \/ P = YMAT \/ P = ZMAT ->
  meq 2 (mmul 2 (rotation_closed_form (as_matrix IMAT) (as_matrix P) theta)
                (rotation_closed_form (as_matrix IMAT) (as_matrix P) (- theta)))
        mid.
Proof.
  intros HP i j Hi Hj. pose proof (cos2_sin2 (theta / 2)) as Hcs.
  unfold rotation_closed_form.
  replace (- theta / 2) with (- (theta / 2)) by lra.
  rewrite cos_neg, sin_neg.
  pauli_entries HP i j; nra.
Qed.

Lemma rot_zero P :
  P = IMAT \/ P = XMAT \/ P = YMAT \/ P = ZMAT ->
  meq 2 (rotation_closed_form (as_matrix IMAT) (as_matrix P) 0) mid.
Proof.
  intros HP i j Hi Hj. unfold rotation_closed_form.
  replace (0 / 2) with 0 by lra. rewrite cos_0, sin_0.
  pauli_entries HP i j; lra.
Qed.

(** The slices of the batch built by a rotation gate. *)
Lemma RotationGate_slices gate qubits nq g thetas n :
  RotationGate.init gate qubits nq = Ok g -> batch_shape thetas n ->
  exists M, RotationGate.matrices g thetas = Ok M /\ shape M = [2; 2; n]%nat /\
    forall k, (k < n)%nat ->
      meq 2 (slice M k)
          (rotation_closed_form (as_matrix IMAT) (as_matrix (RotationGate.paulimat g))
                                (batch_angle thetas k)).
Proof.
  intros Hg Hb.
  destruct (RotationGate_matrices_spec _ _ _ Hg Hb) as (M & E & HM & HMi).
  exists M. split; [assumption|]. split; [assumption|].
  intros k Hk i j Hi Hj. unfold slice. now rewrite HMi.
Qed.

Lemma batch_shape_tneg thetas n : batch_shape thetas n -> batch_shape (tneg thetas) n.
Proof. exact (fun H => H). Qed.

Lemma batch_angle_tneg thetas k : batch_angle (tneg thetas) k = - batch_angle thetas k.
Proof. unfold batch_angle, tneg, tmap. cbn. now destruct (shape thetas) as [|? [|? ?]]. Qed.

(** ** The U gate *)

Lemma Cexp_half_phase x :
  Cexp (Cdiv (Cmult (Copp Ci) (RtoC x)) (RtoC 2)) = expi (- (x / 2)).
Proof.
  unfold Cexp, Cdiv, Cmult, Copp, Ci, RtoC, expi. cbn [fst snd].
  replace ((- 0 * x - - (1) * 0) * 2 + (- 0 * 0 + - (1) * x) * 0) with 0 by ring.
  replace (((- 0 * 0 + - (1) * x) * 2 - (- 0 * x - - (1) * 0) * 0) / (2 * 2 + 0 * 0))
    with (- (x / 2)) by field.
  replace (0 / (2 * 2 + 0 * 0)) with 0 by field.
  rewrite exp_0. f_equal; ring.
Qed.

Lemma Cconj_expi x : Cconj (expi x) = expi (- x).
Proof. unfold Cconj, expi. cbn [fst snd]. now rewrite cos_neg, sin_neg. Qed.

Lemma U_init_ok qubits nq :
  U.init qubits nq =
  Ok (U.mk qubits nq
        (mkTensor [2; 2; 1]%nat (fun idx => item (tensor2 Czero [[Cone; Czero]; [Czero; Czero]])
                                             (firstn 2 idx ++ skipn 3 idx)))
        (mkTensor [2; 2; 1]%nat (fun idx => item (tensor2 Czero [[Czero; Cone]; [Czero; Czero]])
                                             (firstn 2 idx ++ skipn 3 idx)))
        (mkTensor [2; 2; 1]%nat (fun idx => item (tensor2 Czero [[Czero; Czero]; [Cone; Czero]])
                                             (firstn 2 idx ++ skipn 3 idx)))
        (mkTensor [2; 2; 1]%nat (fun idx => item (tensor2 Czero [[Czero; Czero]; [Czero; Cone]])
                                             (firstn 2 idx ++ skipn 3 idx)))).
Proof. reflexivity. Qed.

Lemma U_matrices_spec qubits nq u thetas n :
  U.init qubits nq = Ok u -> shape thetas = [3; n]%nat ->
  exists M, U.matrices u thetas = Ok M /\ shape M = [2; 2; n]%nat /\
    forall k, (k < n)%nat ->
      meq 2 (slice M k)
          (U_closed_form (item thetas [0; k]%nat) (item thetas [1; k]%nat)
                         (item thetas [2; k]%nat)).
Proof.
  intros Hu Hs. rewrite U_init_ok in Hu. inversion Hu as [Hu']. clear Hu Hu'.
  unfold U.matrices, ndim, size, select0, assert, taddr, tsubr, tmul, tsub, tadd.
  rewrite Hs. cbn [length Nat.eqb bind nth_error Nat.ltb Nat.leb].
  rewrite !Hs. cbn [length Nat.eqb bind nth_error Nat.ltb Nat.leb].
  set (phi := mkTensor [n] (fun idx => item thetas (0%nat :: idx))).
  set (theta := mkTensor [n] (fun idx => item thetas (1%nat :: idx))).
  set (omega := mkTensor [n] (fun idx => item thetas (2%nat :: idx))).
  step (@broadcast2_11 _ _ _ Rplus phi omega n eq_refl eq_refl) as s Hss Hsi.
  step (@broadcast2_11 _ _ _ Rminus phi omega n eq_refl eq_refl) as m Hms Hmi.
  step (@unsqueeze01 _ (tsin (tdivr theta 2)) n eq_refl) as s0 Hs0 Hs0i.
  step (@trepeat221 _ s0 n Hs0) as sin_t Hsin Hsini.
  step (@unsqueeze01 _ (tcos (tdivr theta 2)) n eq_refl) as c0 Hc0 Hc0i.
  step (@trepeat221 _ c0 n Hc0) as cos_t Hcos Hcosi.
  cbn [U.a U.b U.c U.d].
  set (t_plus := texp (tdivc (smul (Copp Ci) (to_complex s)) 2)).
  set (t_minus := texp (tdivc (smul (Copp Ci) (to_complex m)) 2)).
  assert (Htp : shape t_plus = [n]) by exact Hss.
  assert (Htm : shape t_minus = [n]) by exact Hms.
  match goal with |- context [trepeat _ ?t >>= _ >>= _] =>
    step (@trepeat11n _ t 2 2 n eq_refl) as ra Hra Hrai end.
  step (@broadcast2_333 _ _ _ Cmult ra (to_complex cos_t) 2 2 n Hra Hcos) as a1 Ha1 Ha1i.
  step (@broadcast2_331 _ _ _ Cmult a1 t_plus 2 2 n Ha1 Htp) as a Ha Hai.
  match goal with |- context [trepeat _ ?t >>= _ >>= _] =>
    step (@trepeat11n _ t 2 2 n eq_refl) as rb Hrb Hrbi end.
  step (@broadcast2_333 _ _ _ Cmult rb (to_complex sin_t) 2 2 n Hrb Hsin) as b1 Hb1 Hb1i.
  step (@broadcast2_331 _ _ _ Cmult b1 (tconj t_minus) 2 2 n Hb1 Htm) as b Hb Hbi.
  match goal with |- context [trepeat _ ?t >>= _ >>= _] =>
    step (@trepeat11n _ t 2 2 n eq_refl) as rc Hrc Hrci end.
  step (@broadcast2_333 _ _ _ Cmult rc (to_complex sin_t) 2 2 n Hrc Hsin) as c1 Hc1 Hc1i.
  step (@broadcast2_331 _ _ _ Cmult c1 t_minus 2 2 n Hc1 Htm) as c Hc Hci.
  match goal with |- context [trepeat _ ?t >>= _ >>= _] =>
    step (@trepeat11n _ t 2 2 n eq_refl) as rd Hrd Hrdi end.
  step (@broadcast2_333 _ _ _ Cmult rd (to_complex cos_t) 2 2 n Hrd Hcos) as d1 Hd1 Hd1i.
  step (@broadcast2_331 _ _ _ Cmult d1 (tconj t_plus) 2 2 n Hd1 Htp) as d Hd Hdi.
  step (@broadcast2_333 _ _ _ Cminus a b 2 2 n Ha Hb) as ab Hab Habi.
  step (@broadcast2_333 _ _ _ Cplus ab c 2 2 n Hab Hc) as abc Habc Habci.
  destruct (@broadcast2_333 _ _ _ Cplus abc d 2 2 n Habc Hd) as (M & E & HM & HMi).
  exists M. split; [assumption|]. split; [assumption|].
  intros k Hk i j Hi Hj. unfold slice.
  rewrite HMi, Habci, Habi, Hai, Hbi, Hci, Hdi, Ha1i, Hb1i, Hc1i, Hd1i,
    Hrai, Hrbi, Hrci, Hrdi by assumption.
  subst t_plus t_minus.
  cbn [item to_complex tconj texp tdivc smul tmap].
  rewrite Hsini, Hcosi, Hs0i, Hc0i, Hsi, Hmi by assumption.
  rewrite !Cexp_half_phase, !Cconj_expi.
  subst phi theta omega. cbn [item tsin tcos tdivr tmap].
  rewrite !Ropp_involutive.
  destruct i as [|[|i]]; try lia; destruct j as [|[|j]]; try lia;
    cbn [tensor2 item firstn skipn app nth U_closed_form];
    generalize (expi (- ((item thetas [0%nat; k] + item thetas [2%nat; k]) / 2)));
    generalize (expi ((item thetas [0%nat; k] + item thetas [2%nat; k]) / 2));
    generalize (expi (- ((item thetas [0%nat; k] - item thetas [2%nat; k]) / 2)));
    generalize (expi ((item thetas [0%nat; k] - item thetas [2%nat; k]) / 2));
    intros [a1r a1i] [a2r a2i] [a3r a3i] [a4r a4i];
    c_eq; ring.
Qed.

(** A rank-1 parameter tensor is promoted before anything else. *)
Lemma U_matrices_promote u (thetas : tensor R) m :
  shape thetas = [m] ->
  exists t', unsqueeze 1 thetas = Ok t' /\ shape t' = [m; 1%nat] /\
    (forall a b, item t' [a; b] = item thetas [a]) /\
    U.matrices u thetas = U.matrices u t'.
Proof.
  intros Hs.
  exists (mkTensor [m; 1%nat] (fun idx => item thetas (firstn 1 idx ++ skipn 2 idx))).
  split; [unfold unsqueeze, ndim; rewrite Hs; reflexivity|].
  split; [reflexivity|]. split; [reflexivity|].
  unfold U.matrices, unsqueeze, ndim. rewrite Hs. reflexivity.
Qed.

Lemma U_matrices_assert u (thetas : tensor R) m b :
  shape thetas = [m; b] -> m <> 3%nat -> U.matrices u thetas = Raise AssertionError.
Proof.
  intros Hs Hm. unfold U.matrices, ndim, size. rewrite Hs. cbn [length Nat.eqb bind].
  rewrite Hs. cbn [nth_error bind]. apply Nat.eqb_neq in Hm. rewrite Hm. reflexivity.
Qed.

Lemma U_decomposition phi theta omega :
  meq 2 (U_closed_form phi theta omega)
        (mmul 2 (mmul 2 (rotation_closed_form (as_matrix IMAT) (as_matrix ZMAT) omega)
                        (rotation_closed_form (as_matrix IMAT) (as_matrix YMAT) theta))
                (rotation_closed_form (as_matrix IMAT) (as_matrix ZMAT) phi)).
Proof.
  intros i j Hi Hj.
  unfold U_closed_form, expi.
  replace ((phi + omega) / 2) with (phi / 2 + omega / 2) by lra.
  replace ((phi - omega) / 2) with (phi / 2 - omega / 2) by lra.
  rewrite !cos_neg, !sin_neg, cos_plus, sin_plus, cos_minus, sin_minus.
  destruct i as [|[|i]]; try lia; destruct j as [|[|j]]; try lia;
    cbv [mmul madj rotation_closed_form msub mscale as_matrix mid Csum seq map fold_right
         item IMAT XMAT YMAT ZMAT tensor2 nth Nat.eqb];
    c_eq; ring.
Qed.

(** ** The controlled-phase gate *)

Lemma Cexp_imag x : Cexp (Cmult Ci (RtoC x)) = expi x.
Proof.
  unfold Cexp, Cmult, Ci, RtoC, expi. cbn [fst snd].
  replace (0 * x - 1 * 0) with 0 by ring.
  replace (0 * 0 + 1 * x) with x by ring.
  rewrite exp_0. f_equal; ring.
Qed.

Section Layout.
Context {A : Type}.

(** [t.repeat((n, 1, 1))] on a matrix. *)
Lemma trepeat_n11 (t : tensor A) a b n :
  shape t = [a; b] ->
  exists t', trepeat [n; 1; 1]%nat t = Ok t' /\ shape t' = [n; a; b] /\
    forall k i j, (i < a)%nat -> (j < b)%nat -> item t' [k; i; j] = item t [i; j].
Proof.
  intros Hs. unfold trepeat, ndim. rewrite Hs.
  eexists; split; [reflexivity|]. split.
  - simpl. now rewrite !Nat.mul_1_r, Nat.add_0_r.
  - intros k i j Hi Hj. cbn [item length Nat.sub List.repeat app zip_with skipn].
    now rewrite (Nat.mod_small i a Hi), (Nat.mod_small j b Hj).
Qed.

(** [torch.permute(t, (1, 2, 0))]. *)
Lemma permute_120 (t : tensor A) a b c :
  shape t = [a; b; c] ->
  exists t', permute [1; 2; 0]%nat t = Ok t' /\ shape t' = [b; c; a] /\
    forall i j k, item t' [i; j; k] = item t [k; i; j].
Proof.
  intros Hs. unfold permute, ndim. rewrite Hs.
  eexists; split; [reflexivity|]. split; reflexivity.
Qed.

(** [t[i0, j0, :] = v] for a (1,1,n) value. *)
Lemma setitem2_slice (v t : tensor A) a b n i0 j0 :
  shape t = [a; b; n] -> shape v = [1; 1; n]%nat -> (i0 < a)%nat -> (j0 < b)%nat ->
  exists t', setitem2 i0 j0 v t = Ok t' /\ shape t' = [a; b; n] /\
    forall i j k, (k < n)%nat ->
      item t' [i; j; k] =
      if Nat.eqb i i0 && Nat.eqb j j0 then item v [0; 0; k]%nat else item t [i; j; k].
Proof.
  intros Ht Hv Hi Hj. unfold setitem2, ndim. rewrite Ht, Hv.
  apply Nat.ltb_lt in Hi, Hj. rewrite Hi, Hj. cbn [andb strip_ones].
  destruct n as [|[|n]].
  - eexists; split; [reflexivity|]. split; [reflexivity|]. intros; lia.
  - eexists; split; [reflexivity|]. split; [reflexivity|].
    intros i j k Hk. assert (k = 0)%nat as -> by lia. reflexivity.
  - cbn [strip_ones]. unfold expandable, pad_shape.
    cbn [length Nat.leb Nat.sub List.repeat app expand_aligned andb].
    rewrite Nat.eqb_refl. cbn [orb andb].
    eexists; split; [reflexivity|]. split; [reflexivity|].
    intros i j k Hk. reflexivity.
Qed.
End Layout.

Lemma CPHASE_matrices_spec qubits nq thetas n :
  batch_shape thetas n ->
  exists M, CPHASE.matrices (CPHASE.init qubits nq) thetas = Ok M /\
    shape M = [4; 4; n]%nat /\
    forall k, (k < n)%nat -> meq 4 (slice M k) (CPHASE_closed_form (batch_angle thetas k)).
Proof.
  intros Hb. destruct (squeeze_batch Hb) as [Hs Ha].
  unfold CPHASE.matrices, len, tmul. rewrite Hs. cbn [bind CPHASE.imat CPHASE.init].
  set (theta := if Nat.eqb (ndim thetas) 2 then squeeze0 thetas else thetas) in *.
  step (@trepeat_n11 _ (eye 4) 4 4 n eq_refl) as m0 Hm0 Hm0i.
  step (@permute_120 _ m0 n 4 4 Hm0) as mat Hmat Hmati.
  step (@broadcast2_01 _ _ _ Cmult (scalar_tensor Ci) (to_complex theta) n eq_refl Hs)
    as ph Hph Hphi.
  step (@unsqueeze01 _ (texp ph) n Hph) as pra Hpra Hprai.
  destruct (@setitem2_slice _ pra mat 4 4 n 3 3 Hmat Hpra) as (M & E & HM & HMi); [lia | lia |].
  exists M. split; [assumption|]. split; [assumption|].
  intros k Hk i j Hi Hj. unfold slice, CPHASE_closed_form.
  rewrite HMi, Hprai, Hmati, Hm0i by assumption.
  cbn [item texp tmap]. rewrite Hphi by assumption.
  cbn [item scalar_tensor to_complex tmap]. rewrite Ha, Cexp_imag.
  do 4 (destruct i as [|i]; [do 4 (destruct j as [|j]; [reflexivity|]); lia|]). lia.
Qed.

Lemma U_closed_form_unitary phi theta omega : unitary 2 (U_closed_form phi theta omega).
Proof.
  intros i j Hi Hj.
  pose proof (cos2_sin2 (theta / 2)) as Ht.
  pose proof (cos2_sin2 ((phi + omega) / 2)) as Hp.
  pose proof (cos2_sin2 ((phi - omega) / 2)) as Hm.
  unfold mmul, madj, U_closed_form, expi.
  rewrite !cos_neg, !sin_neg.
  generalize dependent (cos (theta / 2)). generalize dependent (sin (theta / 2)).
  generalize dependent (cos ((phi + omega) / 2)). generalize dependent (sin ((phi + omega) / 2)).
  generalize dependent (cos ((phi - omega) / 2)). generalize dependent (sin ((phi - omega) / 2)).
  intros sm cm Hm sp cp Hp s c Ht.
  destruct i as [|[|i]]; try lia; destruct j as [|[|j]]; try lia;
    cbv [mid Csum seq map fold_right Nat.eqb]; c_eq.
  - transitivity (c * c * (cp * cp + sp * sp) + s * s * (cm * cm + sm * sm)); [ring|].
    rewrite Hp, Hm. lra.
  - ring.
  - transitivity ((cp * cm + sp * sm) * (c * s - c * s)); ring.
  - transitivity ((cp * sm - sp * cm) * (c * s - c * s) * 0); ring.
  - transitivity ((cp * cm + sp * sm) * (c * s - c * s)); ring.
  - ring.
  - transitivity (s * s * (cm * cm + sm * sm) + c * c * (cp * cp + sp * sp)); [ring|].
    rewrite Hp, Hm. lra.
  - ring.
Qed.

Lemma CPHASE_closed_form_unitary theta : unitary 4 (CPHASE_closed_form theta).
Proof.
  intros i j Hi Hj. pose proof (cos2_sin2 theta) as Ht.
  unfold mmul, madj, CPHASE_closed_form, expi.
  do 4 (destruct i as [|i];
        [do 4 (destruct j as [|j];
               [cbv [mid Csum seq map fold_right Nat.eqb]; c_eq; nra|]); lia|]).
  lia.
Qed.

Lemma meq_phase_one n a b : meq n a b -> meq_up_to_phase n a b.
Proof.
  intros H. exists Cone. split.
  - unfold Cnorm2, Cone. cbn [fst snd]. ring.
  - intros i j Hi Hj. rewrite (H i j Hi Hj). unfold mscale.
    destruct (b i j) as [x y]. c_eq; ring.
Qed.

(* ================================================================== *)
(** ** The rotation matrix builder *)

(** C1.  For an angle vector [theta] of length [n] and 2x2 matrices [P]
    and [I], [rot_matrices] returns a batch of shape (2,2,n) whose slice
    at [k] is cos(theta_k/2) I - i sin(theta_k/2) P.  Hence, for a
    parameter batch of shape (n,) or (1,n), [RotationGate.matrices]
    returns such a batch for the identity and the base matrix of the gate,
    the batch size being the length of the squeezed parameter. *)
Theorem C1_rot_matrices_closed_form :
  (forall (theta : tensor R) (P I : tensor C) (n : nat),
      shape theta = [n] -> shape P = [2; 2]%nat -> shape I = [2; 2]%nat ->
      exists M, rot_matrices theta P I n = Ok M /\ shape M = [2; 2; n]%nat /\
        forall k, (k < n)%nat ->
          meq 2 (slice M k)
              (rotation_closed_form (as_matrix I) (as_matrix P) (item theta [k]))) /\
  (forall gate qubits nq g (thetas : tensor R) (n : nat),
      RotationGate.init gate qubits nq = Ok g -> batch_shape thetas n ->
      meq 2 (as_matrix (RotationGate.imat g)) mid /\
      OPERATIONS_DICT gate = Ok (RotationGate.paulimat g) /\
      exists M, RotationGate.matrices g thetas = Ok M /\ shape M = [2; 2; n]%nat /\
        forall k, (k < n)%nat ->
          meq 2 (slice M k)
              (rotation_closed_form (as_matrix (RotationGate.imat g))
                                    (as_matrix (RotationGate.paulimat g))
                                    (batch_angle thetas k))).
Proof.
  split.
  - intros theta P I n Ht HP HI.
    destruct (@rot_matrices_spec theta P I n Ht HP HI) as (M & E & HM & HMi).
    exists M. split; [assumption|]. split; [assumption|].
    intros k Hk i j Hi Hj. unfold slice. now rewrite HMi.
  - intros gate qubits nq g thetas n Hg Hb.
    destruct (RotationGate_init_inv _ _ _ Hg) as (HI & HP & _).
    rewrite HI. split; [apply IMAT_identity|]. split; [assumption|].
    apply (RotationGate_slices _ _ _ Hg Hb).
Qed.

Lemma C1_witness :
  (exists M, rot_matrices (tensor1 0 [PI; 0]) XMAT IMAT 2 = Ok M /\
             shape M = [2; 2; 2]%nat) /\
  (exists M,
      RotationGate.matrices (RotationGate.mk [0%nat] 1 "X" IMAT XMAT) (tensor2 0 [[PI; 0]])
      = Ok M /\ shape M = [2; 2; 2]%nat).
Proof.
  split.
  - destruct (proj1 C1_rot_matrices_closed_form (tensor1 0 [PI; 0]) XMAT IMAT 2%nat
                eq_refl eq_refl eq_refl) as (M & E & HM & _).
    exists M. split; assumption.
  - destruct (proj2 C1_rot_matrices_closed_form "X"%string [0%nat] 1%nat
                (RotationGate.mk [0%nat] 1 "X" IMAT XMAT) (tensor2 0 [[PI; 0]]) 2%nat
                eq_refl (or_intror eq_refl)) as (_ & _ & M & E & HM & _).
    exists M. split; assumption.
Defined.

(* ================================================================== *)
(** ** The U gate against the product of rotations *)

(** C2.  For a parameter tensor of shape (3,n) with rows phi, theta,
    omega, the k-th matrix built by [U.matrices] is the product of the
    k-th matrices built by the rotation gates RZ at omega, RY at theta and
    RZ at phi; the two agree entry by entry, and so up to a global phase. *)
Theorem C2_U_is_RZ_RY_RZ :
  forall qubits nq (thetas : tensor R) (n : nat),
    shape thetas = [3; n]%nat ->
    exists u gz gy phi theta omega MU Mo Mt Mp,
      U.init qubits nq = Ok u /\ RZ qubits nq = Ok gz /\ RY qubits nq = Ok gy /\
      select0 0 thetas = Ok phi /\ select0 1 thetas = Ok theta /\
      select0 2 thetas = Ok omega /\
      U.matrices u thetas = Ok MU /\
      RotationGate.matrices gz omega = Ok Mo /\
      RotationGate.matrices gy theta = Ok Mt /\
      RotationGate.matrices gz phi = Ok Mp /\
      forall k, (k < n)%nat ->
        meq 2 (slice MU k) (mmul 2 (mmul 2 (slice Mo k) (slice Mt k)) (slice Mp k)) /\
        meq_up_to_phase 2 (slice MU k)
                        (mmul 2 (mmul 2 (slice Mo k) (slice Mt k)) (slice Mp k)).
Proof.
  intros qubits nq thetas n Hs.
  assert (Hz : RZ qubits nq = Ok (RotationGate.mk qubits nq "Z" IMAT ZMAT)) by reflexivity.
  assert (Hy : RY qubits nq = Ok (RotationGate.mk qubits nq "Y" IMAT YMAT)) by reflexivity.
  set (phi := mkTensor [n] (fun idx => item thetas (0%nat :: idx))).
  set (theta := mkTensor [n] (fun idx => item thetas (1%nat :: idx))).
  set (omega := mkTensor [n] (fun idx => item thetas (2%nat :: idx))).
  destruct (@U_matrices_spec qubits nq _ thetas n (U_init_ok qubits nq) Hs)
    as (MU & EU & _ & HU).
  destruct (@RotationGate_slices _ _ _ _ omega n Hz (or_introl eq_refl)) as (Mo & Eo & _ & Ho).
  destruct (@RotationGate_slices _ _ _ _ theta n Hy (or_introl eq_refl)) as (Mt & Et & _ & Ht).
  destruct (@RotationGate_slices _ _ _ _ phi n Hz (or_introl eq_refl)) as (Mp & Ep & _ & Hp).
  eexists _, _, _, phi, theta, omega, MU, Mo, Mt, Mp.
  split; [apply U_init_ok|]. split; [exact Hz|]. split; [exact Hy|].
  unfold select0. rewrite Hs. cbn [Nat.ltb Nat.leb].
  repeat (split; [reflexivity || assumption|]).
  intros k Hk.
  assert (H : meq 2 (slice MU k)
                (mmul 2 (mmul 2 (slice Mo k) (slice Mt k)) (slice Mp k))).
  { eapply meq_trans; [apply (HU k Hk)|].
    eapply meq_trans; [apply U_decomposition|].
    apply meq_sym.
    apply mmul_meq; [apply mmul_meq|]; [apply (Ho k Hk) | apply (Ht k Hk) | apply (Hp k Hk)]. }
  split; [exact H | apply meq_phase_one, H].
Qed.

Lemma C2_witness :
  exists u MU, U.init [0%nat] 1 = Ok u /\
    U.matrices u (tensor2 0 [[PI]; [PI / 2]; [0]]) = Ok MU.
Proof.
  destruct (@C2_U_is_RZ_RY_RZ [0%nat] 1%nat (tensor2 0 [[PI]; [PI / 2]; [0]]) 1%nat eq_refl)
    as (u & _ & _ & _ & _ & _ & MU & _ & _ & _ & Hu & _ & _ & _ & _ & _ & HM & _).
  exists u, MU. split; assumption.
Defined.

(* ================================================================== *)
(** ** Unitarity *)

(** C3.  Every matrix of the batch built by [matrices] is unitary, M M^+ =
    I, for a rotation gate over a base matrix of the registry and a
    parameter batch of shape (n,) or (1,n), for the U gate and a parameter
    tensor of shape (3,n) or (3,), and for the controlled-phase gate and a
    parameter batch of shape (n,) or (1,n). *)
Theorem C3_unitarity :
  (forall gate qubits nq g (thetas : tensor R) (n : nat),
      RotationGate.init gate qubits nq = Ok g -> batch_shape thetas n ->
      exists M, RotationGate.matrices g thetas = Ok M /\
        forall k, (k < n)%nat -> unitary 2 (slice M k)) /\
  (forall qubits nq u (thetas : tensor R) (n : nat),
      U.init qubits nq = Ok u ->
      shape thetas = [3; n]%nat \/ (shape thetas = [3%nat] /\ n = 1%nat) ->
      exists M, U.matrices u thetas = Ok M /\
        forall k, (k < n)%nat -> unitary 2 (slice M k)) /\
  (forall qubits nq (thetas : tensor R) (n : nat),
      batch_shape thetas n ->
      exists M, CPHASE.matrices (CPHASE.init qubits nq) thetas = Ok M /\
        forall k, (k < n)%nat -> unitary 4 (slice M k)).
Proof.
  split; [|split].
  - intros gate qubits nq g thetas n Hg Hb.
    destruct (RotationGate_slices _ _ _ Hg Hb) as (M & E & _ & HM).
    destruct (RotationGate_init_inv _ _ _ Hg) as (_ & HP & _).
    exists M. split; [assumption|]. intros k Hk.
    eapply unitary_meq; [apply (HM k Hk)|].
    apply (@rot_unitary _ _ (pauli_cases _ HP)).
  - intros qubits nq u thetas n Hu [Hs | [Hs ->]].
    + destruct (@U_matrices_spec _ _ _ thetas _ Hu Hs) as (M & E & _ & HM).
      exists M. split; [assumption|]. intros k Hk.
      eapply unitary_meq; [apply (HM k Hk) | apply U_closed_form_unitary].
    + destruct (@U_matrices_promote u thetas _ Hs) as (t' & _ & Hs' & _ & ->).
      destruct (@U_matrices_spec _ _ _ t' _ Hu Hs') as (M & E & _ & HM).
      exists M. split; [assumption|]. intros k Hk.
      eapply unitary_meq; [apply (HM k Hk) | apply U_closed_form_unitary].
  - intros qubits nq thetas n Hb.
    destruct (@CPHASE_matrices_spec qubits nq _ _ Hb) as (M & E & _ & HM).
    exists M. split; [assumption|]. intros k Hk.
    eapply unitary_meq; [apply (HM k Hk) | apply CPHASE_closed_form_unitary].
Qed.

Lemma C3_witness :
  (exists M, RotationGate.matrices (RotationGate.mk [0%nat] 1 "Y" IMAT YMAT)
               (tensor1 0 [PI / 3]) = Ok M /\ unitary 2 (slice M 0%nat)) /\
  (exists u M, U.init [0%nat] 1 = Ok u /\
               U.matrices u (tensor1 0 [PI; PI / 2; 1]) = Ok M /\ unitary 2 (slice M 0%nat)) /\
  (exists M, CPHASE.matrices (CPHASE.init [0; 1]%nat 2) (tensor2 0 [[PI / 4; 1]]) = Ok M /\
             unitary 4 (slice M 1%nat)).
Proof.
  destruct C3_unitarity as (Hr & Hu & Hc). split; [|split].
  - destruct (Hr "Y"%string [0%nat] 1%nat (RotationGate.mk [0%nat] 1 "Y" IMAT YMAT)
                (tensor1 0 [PI / 3]) 1%nat eq_refl (or_introl eq_refl)) as (M & E & HM).
    exists M. split; [exact E | apply HM; lia].
  - destruct (Hu [0%nat] 1%nat _ (tensor1 0 [PI; PI / 2; 1]) 1%nat (U_init_ok _ _)
                (or_intror (conj eq_refl eq_refl))) as (M & E & HM).
    eexists _, M. split; [apply U_init_ok|]. split; [exact E | apply HM; lia].
  - destruct (Hc [0; 1]%nat 2%nat (tensor2 0 [[PI / 4; 1]]) 2%nat (or_intror eq_refl))
      as (M & E & HM).
    exists M. split; [exact E | apply HM; lia].
Defined.

(* ================================================================== *)
(** ** The controlled-phase matrices *)

(** C5.  For a parameter batch of shape (n,) or (1,n), [CPHASE.matrices]
    returns a batch of shape (4,4,n) whose slice at [k] is diagonal with
    entries 1, 1, 1, e^(i theta_k): off the diagonal every entry is zero,
    and only the entry (3,3) differs from the identity. *)
Theorem C5_CPHASE_diagonal :
  forall qubits nq (thetas : tensor R) (n : nat),
    batch_shape thetas n ->
    exists M, CPHASE.matrices (CPHASE.init qubits nq) thetas = Ok M /\
      shape M = [4; 4; n]%nat /\
      forall k, (k < n)%nat ->
        meq 4 (slice M k) (CPHASE_closed_form (batch_angle thetas k)) /\
        (forall i j, (i < 4)%nat -> (j < 4)%nat ->
           slice M k i j =
           if Nat.eqb i 3 && Nat.eqb j 3 then expi (batch_angle thetas k) else mid i j).
Proof.
  intros qubits nq thetas n Hb.
  destruct (@CPHASE_matrices_spec qubits nq _ _ Hb) as (M & E & HS & HM).
  exists M. split; [assumption|]. split; [assumption|].
  intros k Hk. split; [apply (HM k Hk)|].
  intros i j Hi Hj. rewrite (HM k Hk i j Hi Hj). unfold CPHASE_closed_form, mid.
  do 4 (destruct i as [|i]; [do 4 (destruct j as [|j]; [reflexivity|]); lia|]). lia.
Qed.

Lemma C5_witness :
  exists M, CPHASE.matrices (CPHASE.init [0; 1]%nat 2) (tensor1 0 [PI; PI / 2; 0]) = Ok M /\
    shape M = [4; 4; 3]%nat /\ slice M 1%nat 3%nat 3%nat = expi (PI / 2).
Proof.
  destruct (@C5_CPHASE_diagonal [0; 1]%nat 2%nat (tensor1 0 [PI; PI / 2; 0]) 3%nat
              (or_introl eq_refl)) as (M & E & HS & HM).
  exists M. split; [exact E|]. split; [exact HS|].
  destruct (HM 1%nat ltac:(lia)) as [_ H33].
  apply (H33 3%nat 3%nat); lia.
Defined.

(* ================================================================== *)
(** ** Rotations at angle zero and at opposite angles *)

(** C9.  For RX, RY and RZ and a parameter batch of shape (n,) or (1,n),
    the product of the k-th matrix built at [thetas] and the k-th matrix
    built at [-thetas] is the identity, and the k-th matrix is the
    identity when the k-th angle is 0. *)
Theorem C9_rotation_identity :
  forall ctor, In ctor [RX; RY; RZ] ->
  forall qubits nq (thetas : tensor R) (n : nat),
    batch_shape thetas n ->
    exists g M M',
      ctor qubits nq = Ok g /\
      RotationGate.matrices g thetas = Ok M /\
      RotationGate.matrices g (tneg thetas) = Ok M' /\
      forall k, (k < n)%nat ->
        meq 2 (mmul 2 (slice M k) (slice M' k)) mid /\
        (batch_angle thetas k = 0 -> meq 2 (slice M k) mid).
Proof.
  intros ctor Hc qubits nq thetas n Hb.
  assert (Hg : exists gate, ctor qubits nq = RotationGate.init gate qubits nq /\
                 exists g, RotationGate.init gate qubits nq = Ok g).
  { destruct Hc as [<- | [<- | [<- | []]]];
      [exists "X"%string | exists "Y"%string | exists "Z"%string];
      (split; [reflexivity | eexists; reflexivity]). }
  destruct Hg as (gate & -> & g & Hg).
  destruct (RotationGate_slices _ _ _ Hg Hb) as (M & E & _ & HM).
  destruct (RotationGate_slices _ _ _ Hg (batch_shape_tneg Hb)) as (M' & E' & _ & HM').
  destruct (RotationGate_init_inv _ _ _ Hg) as (_ & HP & _).
  pose proof (pauli_cases _ HP) as Hcases.
  exists g, M, M'. repeat (split; [assumption|]).
  intros k Hk. split.
  - eapply meq_trans; [apply mmul_meq; [apply (HM k Hk) | apply (HM' k Hk)]|].
    rewrite batch_angle_tneg. apply (@rot_inverse _ _ Hcases).
  - intros H0. eapply meq_trans; [apply (HM k Hk)|]. rewrite H0.
    apply (@rot_zero _ Hcases).
Qed.

Lemma C9_witness :
  exists g M, RX [0%nat] 1 = Ok g /\
    RotationGate.matrices g (tensor1 0 [0; PI]) = Ok M /\ meq 2 (slice M 0%nat) mid.
Proof.
  destruct (@C9_rotation_identity RX (or_introl eq_refl) [0%nat] 1%nat
              (tensor1 0 [0; PI]) 2%nat (or_introl eq_refl)) as (g & M & M' & Hg & E & _ & H).
  exists g, M. split; [exact Hg|]. split; [exact E|].
  destruct (H 0%nat ltac:(lia)) as [_ H0]. apply H0. reflexivity.
Defined.

(* ================================================================== *)
(** ** The shape of the matrix batch *)

Lemma ControlledRotationGate_init_inv gate qubits nq g :
  ControlledRotationGate.init gate qubits nq = Ok g ->
  exists r, RotationGate.init gate qubits nq = Ok r /\
    ControlledRotationGate.imat g = RotationGate.imat r /\
    ControlledRotationGate.paulimat g = RotationGate.paulimat r /\
    ControlledRotationGate.qubits g = qubits /\
    ControlledRotationGate.n_qubits g = nq.
Proof.
  unfold ControlledRotationGate.init, RotationGate.init.
  cbn [OPERATIONS_DICT String.eqb Ascii.eqb Bool.eqb bind].
  destruct (OPERATIONS_DICT gate) as [P|e]; cbn [bind]; intros H; inversion H.
  eexists. split; [reflexivity|]. cbn. auto.
Qed.

Lemma ControlledRotationGate_matrices_plain g r thetas :
  ControlledRotationGate.imat g = RotationGate.imat r ->
  ControlledRotationGate.paulimat g = RotationGate.paulimat r ->
  ControlledRotationGate.matrices g thetas = RotationGate.matrices r thetas.
Proof.
  intros HI HP. unfold ControlledRotationGate.matrices, RotationGate.matrices.
  now rewrite HI, HP.
Qed.

(** C6, as stated, fails: the matrix batch returned by the [matrices]
    operation of CRX is the plain (2,2,batch) rotation batch, not a
    (4,4,batch) block matrix. *)
Lemma C6_counterexample :
  exists g M, CRX [0; 1]%nat 2 = Ok g /\
    ControlledRotationGate.matrices g (tensor1 0 [PI]) = Ok M /\
    shape M = [2; 2; 1]%nat /\ shape M <> [4; 4; 1]%nat.
Proof.
  eexists _, _. split; [reflexivity|]. split; [reflexivity|].
  split; [reflexivity | discriminate].
Qed.

(* ================================================================== *)
(** ** The shape check of the U gate *)

(** C7, amended.  For a parameter tensor of rank 1 or 2, [U.matrices]
    fails if and only if the first axis is not of size 3, and then with
    the assertion failure; a rank-1 tensor of length 3 is promoted to
    (3,1) and gives a (2,2,1) batch, and a tensor of shape (3,B) gives a
    (2,2,B) batch. *)
Theorem C7_U_shape_check :
  forall qubits nq u (thetas : tensor R),
    U.init qubits nq = Ok u ->
    ndim thetas = 1%nat \/ ndim thetas = 2%nat ->
    ((exists e, U.matrices u thetas = Raise e) <-> hd 0%nat (shape thetas) <> 3%nat) /\
    (hd 0%nat (shape thetas) <> 3%nat -> U.matrices u thetas = Raise AssertionError) /\
    (shape thetas = [3%nat] ->
       exists t' M, unsqueeze 1 thetas = Ok t' /\ shape t' = [3; 1]%nat /\
         U.matrices u thetas = U.matrices u t' /\
         U.matrices u thetas = Ok M /\ shape M = [2; 2; 1]%nat) /\
    (forall B, shape thetas = [3; B]%nat ->
       exists M, U.matrices u thetas = Ok M /\ shape M = [2; 2; B]%nat).
Proof.
  intros qubits nq u thetas Hu Hrank.
  assert (Hfail : hd 0%nat (shape thetas) <> 3%nat ->
                  U.matrices u thetas = Raise AssertionError).
  { intros Hne. unfold ndim in Hrank.
    destruct (shape thetas) as [|m [|b [|? ?]]] eqn:Hs; cbn in Hrank, Hne;
      try (destruct Hrank; discriminate).
    - destruct (@U_matrices_promote u thetas m Hs) as (t' & _ & Hs' & _ & ->).
      apply (@U_matrices_assert u t' m 1 Hs' Hne).
    - apply (@U_matrices_assert u thetas m b Hs Hne). }
  assert (Hok : hd 0%nat (shape thetas) = 3%nat -> exists M, U.matrices u thetas = Ok M).
  { intros He. unfold ndim in Hrank.
    destruct (shape thetas) as [|m [|b [|? ?]]] eqn:Hs; cbn in Hrank, He;
      try (destruct Hrank; discriminate); subst m.
    - destruct (@U_matrices_promote u thetas 3 Hs) as (t' & _ & Hs' & _ & ->).
      destruct (@U_matrices_spec _ _ _ t' _ Hu Hs') as (M & E & _). now exists M.
    - destruct (@U_matrices_spec _ _ _ thetas _ Hu Hs) as (M & E & _). now exists M. }
  split; [|split; [|split]].
  - split.
    + intros [e He] H3. destruct (Hok H3) as [M HM]. congruence.
    + intros Hne. exists AssertionError. now apply Hfail.
  - exact Hfail.
  - intros Hs.
    destruct (@U_matrices_promote u thetas 3 Hs) as (t' & Hun & Hs' & _ & Heq).
    destruct (@U_matrices_spec _ _ _ t' _ Hu Hs') as (M & E & HS & _).
    exists t', M. repeat (split; [assumption|]). split; [congruence | assumption].
  - intros B Hs.
    destruct (@U_matrices_spec _ _ _ thetas _ Hu Hs) as (M & E & HS & _).
    exists M. split; assumption.
Qed.

Lemma C7_witness :
  exists u M, U.init [0%nat] 1 = Ok u /\
    U.matrices u (tensor1 0 [PI; PI / 2; 0]) = Ok M /\ shape M = [2; 2; 1]%nat.
Proof.
  destruct (@C7_U_shape_check [0%nat] 1%nat _ (tensor1 0 [PI; PI / 2; 0])
              (U_init_ok _ _) (or_introl eq_refl)) as (_ & _ & H & _).
  destruct (H eq_refl) as (t' & M & _ & _ & _ & E & HS).
  eexists _, M. split; [apply U_init_ok|]. split; assumption.
Defined.

(* ================================================================== *)
(** ** forward *)

(** C8.  For every gate class and whatever the collaborators are,
    [forward(state, params)] is [apply(matrices(params), state)]: the
    matrices are built, a failure of [matrices] is the failure of
    [forward], and otherwise the result is that of [apply]. *)
Theorem C8_forward_is_apply_of_matrices :
  forall (collaborators : Collaborators) (state : tensor C) (thetas : tensor R),
    (forall g : RotationGate.t,
        RotationGate.forward g state thetas =
        match RotationGate.matrices g thetas with
        | Ok mats => RotationGate.apply g mats state
        | Raise e => Raise e
        end) /\
    (forall g : U.t,
        U.forward g state thetas =
        match U.matrices g thetas with
        | Ok mats => U.apply g mats state
        | Raise e => Raise e
        end) /\
    (forall g : ControlledRotationGate.t,
        ControlledRotationGate.forward g state thetas =
        match ControlledRotationGate.matrices g thetas with
        | Ok mats => ControlledRotationGate.apply g mats state
        | Raise e => Raise e
        end) /\
    (forall g : CPHASE.t,
        CPHASE.forward g state thetas =
        match CPHASE.matrices g thetas with
        | Ok mats => CPHASE.apply g mats state
        | Raise e => Raise e
        end).
Proof.
  intros collaborators state thetas. repeat split; intros g; reflexivity.
Qed.

(* ================================================================== *)
(** ** Controlled rotations on a state *)

(** *** Updating one index *)

Lemma update_nth_length {A} q (x : A) l : length (update_nth q x l) = length l.
Proof.
  revert q. induction l as [|a l IH]; intros [|q]; simpl; auto.
Qed.

Lemma nth_update_nth_eq {A} q (x d : A) l :
  (q < length l)%nat -> nth q (update_nth q x l) d = x.
Proof.
  revert q. induction l as [|a l IH]; intros [|q] H; simpl in *; try lia; auto.
  apply IH. lia.
Qed.

Lemma nth_update_nth_neq {A} p q (x d : A) l :
  p <> q -> nth p (update_nth q x l) d = nth p l d.
Proof.
  revert p q. induction l as [|a l IH]; intros [|p] [|q] H; simpl; auto; try lia.
Qed.

Lemma update_nth_same {A} q (d : A) l : update_nth q (nth q l d) l = l.
Proof.
  revert q. induction l as [|a l IH]; intros [|q]; simpl; auto. now rewrite IH.
Qed.

Lemma in_range_nth s idx q :
  in_range s idx -> (q < length s)%nat -> (nth q idx 0 < nth q s 0)%nat.
Proof.
  unfold in_range. intros H. revert q.
  induction H as [|i x idx s Hlt _ IH]; intros [|q] Hq; simpl in *; try lia; auto.
  apply IH. lia.
Qed.

Lemma in_range_update s idx q x :
  in_range s idx -> (x < nth q s 0)%nat -> in_range s (update_nth q x idx).
Proof.
  unfold in_range. intros H. revert q.
  induction H as [|i n idx s Hlt Hr IH]; intros [|q] Hx; simpl in *.
  - constructor.
  - constructor.
  - constructor; assumption.
  - constructor; [assumption | apply IH, Hx].
Qed.

Lemma nth_state_shape nq B q :
  (q < nq)%nat -> nth q (List.repeat 2%nat nq ++ [B]) 0%nat = 2%nat.
Proof.
  intros H. rewrite app_nth1 by (rewrite repeat_length; assumption).
  apply nth_repeat_lt, H.
Qed.

Lemma eqb_shape_refl s : eqb_shape s s = true.
Proof. induction s as [|x s IH]; simpl; [reflexivity|]. now rewrite Nat.eqb_refl. Qed.

(** *** The collaborators on well-formed arguments *)

Lemma embed_as_controlled_22 (M : tensor C) n :
  shape M = [2; 2; n]%nat ->
  exists CM, embed_as_controlled M n = Ok CM /\ shape CM = [4; 4; n]%nat /\
    forall i j k,
      item CM [i; j; k] =
      if (2 <=? i)%nat && (2 <=? j)%nat then item M [i - 2; j - 2; k]%nat
      else if Nat.eqb i j then Cone else Czero.
Proof.
  intros Hs. unfold embed_as_controlled. rewrite Hs. cbn [Nat.eqb].
  eexists; split; [reflexivity|]. split; reflexivity.
Qed.

Lemma apply_batch_gate_ok (state M : tensor C) qs nq B :
  Forall (fun q => (q < nq)%nat) qs ->
  shape M = [2 ^ length qs; 2 ^ length qs; B]%nat ->
  shape state = List.repeat 2%nat nq ++ [B] ->
  apply_batch_gate state M qs nq B =
  Ok (mkTensor (shape state)
        (fun idx =>
           Csum (map (fun col =>
                        Cmult (item M [bits_to_nat (map (fun q => nth q idx 0%nat) qs);
                                       col; nth nq idx 0%nat])
                              (item state (set_bits qs (nat_to_bits (length qs) col) idx)))
                     (seq 0 (2 ^ length qs))))).
Proof.
  intros Hq HM Hs. unfold apply_batch_gate.
  assert (Hf : forallb (fun q => (q <? nq)%nat) qs = true).
  { apply forallb_forall. intros q Hin. apply Nat.ltb_lt.
    rewrite Forall_forall in Hq. now apply Hq. }
  rewrite Hf, HM, Hs, !eqb_shape_refl. reflexivity.
Qed.

(** The state after a controlled rotation on qubits [c; t], entry by entry. *)
Lemma controlled_apply_items (g : ControlledRotationGate.t) (M state : tensor C) c t nq B :
  ControlledRotationGate.qubits g = [c; t] -> ControlledRotationGate.n_qubits g = nq ->
  (c < nq)%nat -> (t < nq)%nat ->
  shape M = [2; 2; B]%nat -> shape state = List.repeat 2%nat nq ++ [B] ->
  exists s', @ControlledRotationGate.apply spec_collaborators g M state = Ok s' /\
    shape s' = shape state /\
    forall idx,
      item s' idx =
      Csum (map (fun col =>
                   Cmult (let row := bits_to_nat [nth c idx 0%nat; nth t idx 0%nat] in
                          if (2 <=? row)%nat && (2 <=? col)%nat
                          then item M [row - 2; col - 2; nth nq idx 0%nat]%nat
                          else if Nat.eqb row col then Cone else Czero)
                         (item state (set_bits [c; t] (nat_to_bits 2 col) idx)))
                [0; 1; 2; 3]%nat).
Proof.
  intros Hq Hn Hc Ht HM Hs.
  unfold ControlledRotationGate.apply, size_last. rewrite HM, Hq, Hn. cbn [rev app bind].
  cbn [create_controlled_batch_from_operation _apply_batch_gate spec_collaborators].
  destruct (embed_as_controlled_22 M HM) as (CM & E & HCM & HCMi).
  rewrite E. cbn [bind].
  rewrite (@apply_batch_gate_ok state CM [c; t] nq B); [| |exact HCM|exact Hs].
  - eexists; split; [reflexivity|]. split; [reflexivity|].
    intros idx. cbn [item length Nat.pow Nat.mul Nat.add seq map].
    rewrite !HCMi. reflexivity.
  - repeat constructor; assumption.
Qed.

Lemma plain_apply_items (r : RotationGate.t) (M state : tensor C) t nq B :
  RotationGate.qubits r = [t] -> RotationGate.n_qubits r = nq ->
  (t < nq)%nat ->
  shape M = [2; 2; B]%nat -> shape state = List.repeat 2%nat nq ++ [B] ->
  exists s', @RotationGate.apply spec_collaborators r M state = Ok s' /\
    shape s' = shape state /\
    forall idx,
      item s' idx =
      Csum (map (fun col =>
                   Cmult (item M [bits_to_nat [nth t idx 0%nat]; col; nth nq idx 0%nat])
                         (item state (set_bits [t] (nat_to_bits 1 col) idx)))
                [0; 1]%nat).
Proof.
  intros Hq Hn Ht HM Hs.
  unfold RotationGate.apply, size_last. rewrite HM, Hq, Hn. cbn [rev app bind].
  cbn [_apply_batch_gate spec_collaborators].
  rewrite (@apply_batch_gate_ok state M [t] nq B); [| |exact HM|exact Hs].
  - eexists; split; [reflexivity|]. split; reflexivity.
  - repeat constructor; assumption.
Qed.

Lemma Cmult_0_r z : Cmult z Czero = Czero.
Proof. c_eq; ring. Qed.
Lemma Cmult_0_l z : Cmult Czero z = Czero.
Proof. c_eq; ring. Qed.
Lemma Cmult_1_l z : Cmult Cone z = z.
Proof. destruct z. c_eq; ring. Qed.
Lemma Cplus_0_r z : Cplus z Czero = z.
Proof. destruct z. c_eq; ring. Qed.
Lemma Cplus_0_l z : Cplus Czero z = z.
Proof. destruct z. c_eq; ring. Qed.

(** *** Indices of a register of [nq] qubits *)

Lemma state_index_length nq B idx :
  in_range (List.repeat 2%nat nq ++ [B]) idx -> length idx = S nq.
Proof.
  intros Hr. rewrite (@in_range_length _ _ Hr), length_app, repeat_length. simpl. lia.
Qed.

Lemma qubit_bit nq B idx q :
  in_range (List.repeat 2%nat nq ++ [B]) idx -> (q < nq)%nat -> (nth q idx 0 < 2)%nat.
Proof.
  intros Hr Hq. rewrite <- (@nth_state_shape nq B q Hq).
  apply in_range_nth; [assumption|].
  rewrite length_app, repeat_length. simpl. lia.
Qed.

Lemma in_range_set_qubit nq B idx q b :
  in_range (List.repeat 2%nat nq ++ [B]) idx -> (q < nq)%nat -> (b < 2)%nat ->
  in_range (List.repeat 2%nat nq ++ [B]) (update_nth q b idx).
Proof.
  intros Hr Hq Hb. apply in_range_update; [assumption|].
  now rewrite nth_state_shape.
Qed.

Lemma control_after_set nq B idx c t bc bt :
  in_range (List.repeat 2%nat nq ++ [B]) idx -> (c < nq)%nat -> c <> t ->
  nth c (update_nth t bt (update_nth c bc idx)) 0%nat = bc.
Proof.
  intros Hr Hc Hct. rewrite nth_update_nth_neq by assumption.
  apply nth_update_nth_eq. rewrite (@state_index_length nq B idx Hr). lia.
Qed.

Lemma update_nth_id {A} q (x d : A) l : nth q l d = x -> update_nth q x l = l.
Proof. intros <-. apply update_nth_same. Qed.

Section ControlledRotationOnState.
Variables (g : ControlledRotationGate.t) (r : RotationGate.t).
Variables (M state : tensor C) (c t nq B : nat).
Hypothesis Hgq : ControlledRotationGate.qubits g = [c; t].
Hypothesis Hgn : ControlledRotationGate.n_qubits g = nq.
Hypothesis Hrq : RotationGate.qubits r = [t].
Hypothesis Hrn : RotationGate.n_qubits r = nq.
Hypothesis Hc : (c < nq)%nat.
Hypothesis Ht : (t < nq)%nat.
Hypothesis Hct : c <> t.
Hypothesis HM : shape M = [2; 2; B]%nat.
Hypothesis Hs : shape state = List.repeat 2%nat nq ++ [B].

(** Where the controlled gate reads the state, for an index in range. *)
Lemma controlled_read_ok idx bc bt :
  in_range (List.repeat 2%nat nq ++ [B]) idx -> (bc < 2)%nat -> (bt < 2)%nat ->
  in_range (shape state) (update_nth t bt (update_nth c bc idx)) /\
  nth c (update_nth t bt (update_nth c bc idx)) 0%nat = bc.
Proof.
  clear g r Hgq Hgn Hrq Hrn M HM.
  intros Hr Hbc Hbt. split.
  - rewrite Hs. repeat apply in_range_set_qubit; assumption.
  - now apply (@control_after_set nq B).
Qed.

(** Control at |0>: the state is unchanged. *)
Lemma controlled_on_zero :
  qubit_fixed c 0 state ->
  exists s', @ControlledRotationGate.apply spec_collaborators g M state = Ok s' /\
    teq s' state.
Proof.
  clear r Hrq Hrn. intros Hfix.
  destruct (@controlled_apply_items g M state c t nq B Hgq Hgn Hc Ht HM Hs)
    as (s' & E & Hs' & Hi).
  exists s'. split; [assumption|]. split; [assumption|].
  intros idx Hr. rewrite Hs', Hs in Hr. rewrite Hi.
  pose proof (@qubit_bit nq B idx c Hr Hc) as Hic.
  pose proof (@qubit_bit nq B idx t Hr Ht) as Hit.
  cbn [map Csum fold_right].
  change (nat_to_bits 2 0) with [0; 0]%nat. change (nat_to_bits 2 1) with [0; 1]%nat.
  change (nat_to_bits 2 2) with [1; 0]%nat. change (nat_to_bits 2 3) with [1; 1]%nat.
  cbn [set_bits].
  destruct (@controlled_read_ok idx 1%nat 0%nat Hr) as [R10 C10]; [lia | lia |].
  destruct (@controlled_read_ok idx 1%nat 1%nat Hr) as [R11 C11]; [lia | lia |].
  rewrite (Hfix _ R10), (Hfix _ R11) by lia.
  rewrite !Cmult_0_r, !Cplus_0_r.
  destruct (nth c idx 0%nat) as [|[|ic]] eqn:Eic; [ | |lia].
  - rewrite (@update_nth_id _ c _ 0%nat idx Eic).
    destruct (nth t idx 0%nat) as [|[|it]] eqn:Eit; [ | |lia];
      cbn [bits_to_nat fold_left Nat.mul Nat.add Nat.leb Nat.eqb andb];
      rewrite ?Cmult_0_l, ?Cmult_1_l, ?Cplus_0_r, ?Cplus_0_l;
      now rewrite (@update_nth_id _ t _ 0%nat idx Eit).
  - rewrite (Hfix idx) by (rewrite ?Hs; auto; lia).
    destruct (nth t idx 0%nat) as [|[|it]] eqn:Eit; [ | |lia];
      cbn [bits_to_nat fold_left Nat.mul Nat.add Nat.leb Nat.eqb andb];
      now rewrite ?Cmult_0_l, ?Cplus_0_r.
Qed.

(** Control at |1>: the rotation acts on the target qubit alone. *)
Lemma controlled_on_one :
  qubit_fixed c 1 state ->
  exists s' s'',
    @ControlledRotationGate.apply spec_collaborators g M state = Ok s' /\
    @RotationGate.apply spec_collaborators r M state = Ok s'' /\
    teq s' s''.
Proof.
  intros Hfix.
  destruct (@controlled_apply_items g M state c t nq B Hgq Hgn Hc Ht HM Hs)
    as (s' & E & Hs' & Hi).
  destruct (@plain_apply_items r M state t nq B Hrq Hrn Ht HM Hs)
    as (s'' & E' & Hs'' & Hi').
  exists s', s''. split; [assumption|]. split; [assumption|].
  split; [congruence|].
  intros idx Hr. rewrite Hs', Hs in Hr. rewrite Hi, Hi'.
  pose proof (@qubit_bit nq B idx c Hr Hc) as Hic.
  pose proof (@qubit_bit nq B idx t Hr Ht) as Hit.
  cbn [map Csum fold_right].
  change (nat_to_bits 2 0) with [0; 0]%nat. change (nat_to_bits 2 1) with [0; 1]%nat.
  change (nat_to_bits 2 2) with [1; 0]%nat. change (nat_to_bits 2 3) with [1; 1]%nat.
  change (nat_to_bits 1 0) with [0%nat]. change (nat_to_bits 1 1) with [1%nat].
  cbn [set_bits].
  destruct (@controlled_read_ok idx 0%nat 0%nat Hr) as [R00 C00]; [lia | lia |].
  destruct (@controlled_read_ok idx 0%nat 1%nat Hr) as [R01 C01]; [lia | lia |].
  rewrite (Hfix _ R00), (Hfix _ R01) by lia.
  rewrite !Cmult_0_r, !Cplus_0_l.
  destruct (nth c idx 0%nat) as [|[|ic]] eqn:Eic; [ | |lia].
  - assert (Hz : forall bt, (bt < 2)%nat -> item state (update_nth t bt idx) = Czero).
    { intros bt Hbt. apply Hfix.
      - rewrite Hs. now apply in_range_set_qubit.
      - rewrite nth_update_nth_neq by assumption. lia. }
    rewrite !Hz by lia.
    destruct (nth t idx 0%nat) as [|[|it]] eqn:Eit; [ | |lia];
      cbn [bits_to_nat fold_left Nat.mul Nat.add Nat.leb Nat.eqb andb];
      now rewrite ?Cmult_0_l, ?Cmult_0_r, ?Cplus_0_r.
  - rewrite (@update_nth_id _ c _ 0%nat idx Eic).
    destruct (nth t idx 0%nat) as [|[|it]] eqn:Eit; [ | |lia];
      cbn [bits_to_nat fold_left Nat.mul Nat.add Nat.sub Nat.leb Nat.eqb andb];
      reflexivity.
Qed.
End ControlledRotationOnState.

Lemma eqb_shape_eq a b : eqb_shape a b = true -> a = b.
Proof.
  revert b. induction a as [|x a IH]; intros [|y b] H; simpl in H; try discriminate; auto.
  apply andb_true_iff in H. destruct H as [H1 H2].
  apply Nat.eqb_eq in H1. f_equal; auto.
Qed.

Lemma basis_state_fixed bits q :
  (q < length bits)%nat -> qubit_fixed q (nth q bits 0%nat) (basis_state bits).
Proof.
  intros Hq idx _ Hne. unfold basis_state. cbn [item].
  destruct (eqb_shape idx (bits ++ [0%nat])) eqn:E; [|reflexivity].
  apply eqb_shape_eq in E. subst idx. rewrite app_nth1 in Hne by assumption.
  now destruct Hne.
Qed.

(** The controlled gate builds the matrices of the rotation gate over the
    same base matrix. *)
Lemma controlled_matrices gate qubits qubits' nq g r thetas :
  ControlledRotationGate.init gate qubits nq = Ok g ->
  RotationGate.init gate qubits' nq = Ok r ->
  ControlledRotationGate.matrices g thetas = RotationGate.matrices r thetas.
Proof.
  intros Hg Hr.
  destruct (@ControlledRotationGate_init_inv gate qubits nq g Hg) as (r0 & Hr0 & HI & HP & _).
  destruct (@RotationGate_init_inv gate qubits nq r0 Hr0) as (HI0 & HP0 & _).
  destruct (@RotationGate_init_inv gate qubits' nq r Hr) as (HI1 & HP1 & _).
  apply ControlledRotationGate_matrices_plain; [congruence|].
  rewrite HP. rewrite HP0 in HP1. now inversion HP1.
Qed.

(** C4.  With the collaborators following their contracts, for a
    controlled rotation on distinct qubits [c] (control) and [t] (target)
    of a register of [nq] qubits: on a state whose control qubit is fixed
    at |0> the gate returns the state unchanged, and on a state whose
    control qubit is fixed at |1> it returns what the rotation gate over
    the same base matrix returns on the target qubit alone. *)
Theorem C4_controlled_rotation :
  forall gate c t nq g r (state : tensor C) (thetas : tensor R) (B : nat),
    ControlledRotationGate.init gate [c; t] nq = Ok g ->
    RotationGate.init gate [t] nq = Ok r ->
    (c < nq)%nat -> (t < nq)%nat -> c <> t ->
    shape state = List.repeat 2%nat nq ++ [B] ->
    batch_shape thetas B ->
    (qubit_fixed c 0 state ->
       exists s', @ControlledRotationGate.forward spec_collaborators g state thetas = Ok s' /\
         teq s' state) /\
    (qubit_fixed c 1 state ->
       exists s' s'',
         @ControlledRotationGate.forward spec_collaborators g state thetas = Ok s' /\
         @RotationGate.forward spec_collaborators r state thetas = Ok s'' /\
         teq s' s'').
Proof.
  intros gate c t nq g r state thetas B Hg Hr Hc Ht Hct Hs Hb.
  destruct (@ControlledRotationGate_init_inv gate [c; t] nq g Hg) as (_ & _ & _ & _ & Hgq & Hgn).
  destruct (@RotationGate_init_inv gate [t] nq r Hr) as (_ & _ & Hrq & Hrn).
  destruct (@RotationGate_slices gate [t] nq r thetas B Hr Hb) as (M & E & HM & _).
  unfold ControlledRotationGate.forward, RotationGate.forward.
  rewrite (@controlled_matrices gate [c; t] [t] nq g r thetas Hg Hr), E. cbn [bind].
  split; intros Hfix.
  - apply (@controlled_on_zero g M state c t nq B Hgq Hgn Hc Ht Hct HM Hs Hfix).
  - apply (@controlled_on_one g r M state c t nq B Hgq Hgn Hrq Hrn Hc Ht Hct HM Hs Hfix).
Qed.

Lemma C4_witness :
  (exists s',
      @ControlledRotationGate.forward spec_collaborators
        (ControlledRotationGate.mk [0; 1]%nat 2 "X" IMAT XMAT)
        (basis_state [0; 0]%nat) (tensor1 0 [PI]) = Ok s' /\
      teq s' (basis_state [0; 0]%nat)) /\
  (exists s' s'',
      @ControlledRotationGate.forward spec_collaborators
        (ControlledRotationGate.mk [0; 1]%nat 2 "X" IMAT XMAT)
        (basis_state [1; 0]%nat) (tensor1 0 [PI]) = Ok s' /\
      @RotationGate.forward spec_collaborators
        (RotationGate.mk [1%nat] 2 "X" IMAT XMAT)
        (basis_state [1; 0]%nat) (tensor1 0 [PI]) = Ok s'' /\
      teq s' s'').
Proof.
  split.
  - apply (proj1 (@C4_controlled_rotation "X"%string 0%nat 1%nat 2%nat _ _
                    (basis_state [0; 0]%nat) (tensor1 0 [PI]) 1%nat
                    eq_refl eq_refl ltac:(lia) ltac:(lia) ltac:(lia) eq_refl
                    (or_introl eq_refl))).
    apply (@basis_state_fixed [0; 0]%nat 0%nat). simpl. lia.
  - apply (proj2 (@C4_controlled_rotation "X"%string 0%nat 1%nat 2%nat _ _
                    (basis_state [1; 0]%nat) (tensor1 0 [PI]) 1%nat
                    eq_refl eq_refl ltac:(lia) ltac:(lia) ltac:(lia) eq_refl
                    (or_introl eq_refl))).
    apply (@basis_state_fixed [1; 0]%nat 0%nat). simpl. lia.
Defined.

(* ================================================================== *)
(** ** CPHASE.matrices and the store *)

(** *** Writes *)

Lemma write_length l p x h : length (Mem.write l p x h) = length h.
Proof. unfold Mem.write. apply update_nth_length. Qed.

Lemma write_frame l l' p x h :
  l' <> l -> nth l' (Mem.write l p x h) [] = nth l' h [].
Proof. intros H. unfold Mem.write. now apply nth_update_nth_neq. Qed.

Lemma write_here l p x h :
  (l < length h)%nat ->
  nth l (Mem.write l p x h) [] = update_nth p x (nth l h []).
Proof. intros H. unfold Mem.write. now apply nth_update_nth_eq. Qed.

Section Writes.
Variables (T : Type) (f : T -> nat) (val : T -> C) (l : nat).

Lemma writes_length L h :
  length (fold_left (fun h r => Mem.write l (f r) (val r) h) L h) = length h.
Proof.
  revert h. induction L as [|r L IH]; intros h; simpl; [reflexivity|].
  rewrite IH. apply write_length.
Qed.

Lemma writes_frame L h l' :
  l' <> l ->
  nth l' (fold_left (fun h r => Mem.write l (f r) (val r) h) L h) [] = nth l' h [].
Proof.
  intros Hl. revert h. induction L as [|r L IH]; intros h; simpl; [reflexivity|].
  rewrite IH. now apply write_frame.
Qed.

Lemma writes_here L h :
  (l < length h)%nat ->
  nth l (fold_left (fun h r => Mem.write l (f r) (val r) h) L h) [] =
  fold_left (fun st r => update_nth (f r) (val r) st) L (nth l h []).
Proof.
  revert h. induction L as [|r L IH]; intros h Hl; simpl; [reflexivity|].
  rewrite IH by (rewrite write_length; exact Hl).
  now rewrite write_here.
Qed.

Lemma updates_other L st q :
  (forall r, In r L -> f r <> q) ->
  nth q (fold_left (fun st r => update_nth (f r) (val r) st) L st) Czero = nth q st Czero.
Proof.
  revert st. induction L as [|r L IH]; intros st H; simpl; [reflexivity|].
  rewrite IH by (intros r' Hr'; apply H; now right).
  apply nth_update_nth_neq. intros E. apply (H r); [now left | now symmetry].
Qed.

Lemma updates_hit L st r :
  NoDup (map f L) -> In r L -> (f r < length st)%nat ->
  nth (f r) (fold_left (fun st r => update_nth (f r) (val r) st) L st) Czero = val r.
Proof.
  revert st. induction L as [|r0 L IH]; intros st Hnd Hin Hlt; [destruct Hin|].
  simpl in *. inversion Hnd as [|? ? Hnotin Hnd']; subst.
  destruct (Nat.eq_dec (f r0) (f r)) as [E | E].
  - rewrite updates_other.
    + rewrite <- E. rewrite nth_update_nth_eq by (rewrite E; exact Hlt).
      destruct Hin as [-> | Hin]; [reflexivity|].
      exfalso. apply Hnotin. rewrite E. now apply in_map.
    + intros r' Hr' E'. apply Hnotin. rewrite E, <- E'. now apply in_map.
  - destruct Hin as [-> | Hin]; [congruence|].
    apply IH; trivial. now rewrite update_nth_length.
Qed.
End Writes.

(** *** Layout of a contiguous (n,4,4) tensor *)

Lemma unravel_n44 n k i j :
  (i < 4)%nat -> (j < 4)%nat ->
  Mem.unravel [n; 4; 4]%nat (k * 16 + (i * 4 + j)) = [k; i; j].
Proof.
  intros Hi Hj. unfold Mem.unravel, Mem.numel. cbn [fold_right].
  assert (H1 : ((k * 16 + (i * 4 + j)) / 16 = k)%nat).
  { symmetry. apply (Nat.div_unique _ 16 k (i * 4 + j)); lia. }
  assert (H2 : ((k * 16 + (i * 4 + j)) mod 16 = i * 4 + j)%nat).
  { symmetry. apply (Nat.mod_unique _ 16 k (i * 4 + j)); lia. }
  assert (H3 : ((i * 4 + j) / 4 = i)%nat).
  { symmetry. apply (Nat.div_unique _ 4 i j); lia. }
  assert (H4 : ((i * 4 + j) mod 4 = j)%nat).
  { symmetry. apply (Nat.mod_unique _ 4 i j); lia. }
  change (4 * (4 * 1))%nat with 16%nat. change (4 * 1)%nat with 4%nat.
  rewrite H1, H2, H3, H4, Nat.div_1_r. reflexivity.
Qed.

Lemma nth_map_seq {A} (g : nat -> A) n q d :
  (q < n)%nat -> nth q (map g (seq 0 n)) d = g q.
Proof.
  intros H. rewrite (nth_indep _ d (g 0%nat)) by (rewrite length_map, length_seq; exact H).
  rewrite map_nth, seq_nth by exact H. reflexivity.
Qed.

Lemma all_indices_1 n : Mem.all_indices [n] = map (fun k => [k]) (seq 0 n).
Proof.
  cbn [Mem.all_indices]. generalize 0%nat.
  induction n as [|n IH]; intros a; simpl; [reflexivity|]. now rewrite IH.
Qed.

(** The value read for position [k] of the slice, for a (1,1,n) value. *)
Lemma slice_value {A} (v : tensor A) n :
  shape v = [1; 1; n]%nat ->
  expandable (strip_ones (shape v)) [n] = true /\
  forall k, (k < n)%nat ->
    item v (List.repeat 0%nat (ndim v - length (strip_ones (shape v)))
              ++ bindex (strip_ones (shape v)) [k])
    = item v [0; 0; k]%nat.
Proof.
  intros Hv. unfold ndim. rewrite Hv. cbn [strip_ones].
  destruct n as [|[|n]].
  - split; [reflexivity|]. intros; lia.
  - split; [reflexivity|]. intros k Hk. assert (k = 0)%nat as -> by lia. reflexivity.
  - cbn [strip_ones]. split.
    + unfold expandable, pad_shape.
      cbn [length Nat.leb Nat.sub List.repeat app expand_aligned andb].
      now rewrite Nat.eqb_refl.
    + intros k Hk. reflexivity.
Qed.

(** One call of [matrices], from a store in which the buffer of the gate
    holds the 4x4 identity. *)
Lemma Mem_matrices_spec (self : Mem.t) (thetas : tensor R) (n : nat) (h : Mem.store) :
  batch_shape thetas n ->
  teq (Mem.read h (Mem.imat self)) (eye 4) ->
  exists h' m,
    Mem.matrices self thetas h = Ok (h', m) /\
    length h' = S (length h) /\
    Mem.buf m = length h /\
    (forall l, (l < length h)%nat -> nth l h' [] = nth l h []) /\
    Mem.vshape m = [4; 4; n]%nat /\
    forall k, (k < n)%nat ->
      meq 4 (slice (Mem.read h' m) k) (CPHASE_closed_form (batch_angle thetas k)).
Proof.
  intros Hb [Hish Hi].
  destruct (squeeze_batch Hb) as [Hs Ha].
  unfold Mem.matrices, len, tmul, Mem.repeat. rewrite Hs. cbn [bind].
  set (theta := if Nat.eqb (ndim thetas) 2 then squeeze0 thetas else thetas) in *.
  step (@trepeat_n11 _ (Mem.read h (Mem.imat self)) 4 4 n Hish) as t0 Ht0 Ht0i.
  unfold Mem.alloc. rewrite Ht0. cbn [bind].
  unfold Mem.permute.
  cbn [Mem.vshape Mem.strides Mem.buf Mem.offset length Nat.eqb is_perm forallb existsb
       seq orb andb map nth Mem.contiguous_strides bind].
  change (Mem.numel [4; 4]%nat) with 16%nat. change (Mem.numel [4%nat]) with 4%nat.
  change (Mem.numel []) with 1%nat. change (Mem.numel [n; 4; 4]%nat) with (n * 16)%nat.
  step (@broadcast2_01 _ _ _ Cmult (scalar_tensor Ci) (to_complex theta) n eq_refl Hs)
    as ph Hph Hphi.
  step (@unsqueeze01 _ (texp ph) n Hph) as pra Hpra Hprai.
  destruct (slice_value pra Hpra) as [Hexp Hval].
  unfold Mem.setitem2. cbn [Mem.vshape Nat.ltb Nat.leb andb]. rewrite Hexp. cbn [bind].
  rewrite all_indices_1.
  set (data := map (fun p => item t0 (Mem.unravel [n; 4; 4]%nat p)) (seq 0 (n * 16))).
  set (mat := Mem.mkView (length h) [4; 4; n]%nat [4; 1; 16]%nat 0).
  set (f := fun rest : list nat => Mem.offset_of mat (3 :: 3 :: rest)%nat).
  set (val := fun rest : list nat =>
                item pra (List.repeat 0%nat (ndim pra - length (strip_ones (shape pra)))
                            ++ bindex (strip_ones (shape pra)) rest)).
  set (L := map (fun k => [k]) (seq 0 n)).
  eexists _, mat. split; [reflexivity|].
  split; [rewrite writes_length, length_app; simpl; lia|].
  split; [reflexivity|].
  split.
  { intros l Hl. rewrite writes_frame by (cbn [Mem.buf mat]; lia).
    now apply app_nth1. }
  split; [reflexivity|].
  intros k Hk i j Hi4 Hj4.
  unfold slice, Mem.read. cbn [item Mem.buf mat].
  rewrite writes_here by (rewrite length_app; simpl; lia).
  rewrite app_nth2, Nat.sub_diag by lia. cbn [nth].
  assert (Hoff : forall i j k, Mem.offset_of mat [i; j; k] = (k * 16 + (i * 4 + j))%nat).
  { intros. unfold Mem.offset_of. cbn. lia. }
  assert (Hlen : length data = (n * 16)%nat).
  { unfold data. now rewrite length_map, length_seq. }
  rewrite Hoff.
  destruct (Nat.eqb i 3 && Nat.eqb j 3) eqn:E33.
  - apply andb_true_iff in E33. destruct E33 as [Ei Ej].
    apply Nat.eqb_eq in Ei, Ej. subst i j.
    rewrite <- (Hoff 3%nat 3%nat k). change (Mem.offset_of mat [3; 3; k]%nat) with (f [k]).
    transitivity (val [k]).
    + apply (@updates_hit _ f val L data [k]).
      * unfold L. rewrite map_map. apply Injective_map_NoDup; [|apply seq_NoDup].
        intros a b Hab. unfold f in Hab. rewrite !Hoff in Hab. lia.
      * unfold L. apply (in_map (fun k => [k]) (seq 0 n) k). apply in_seq. lia.
      * unfold f. rewrite Hoff, Hlen. lia.
    + unfold val. rewrite Hval, Hprai by assumption. cbn [item texp tmap].
      rewrite Hphi by assumption. cbn [item scalar_tensor to_complex tmap].
      rewrite Ha, Cexp_imag. reflexivity.
  - transitivity (nth (k * 16 + (i * 4 + j)) data Czero).
    + apply (@updates_other _ f val L data).
      intros rest Hin. unfold L in Hin. apply in_map_iff in Hin.
      destruct Hin as (k' & <- & _). unfold f. rewrite Hoff.
      apply andb_false_iff in E33.
      destruct E33 as [E | E]; apply Nat.eqb_neq in E; lia.
    + unfold data. rewrite nth_map_seq by lia.
      rewrite unravel_n44, Ht0i, Hi by
        (try assumption; rewrite ?Hish; repeat (apply in_range_cons; split; trivial);
         apply in_range_nil).
      unfold CPHASE_closed_form. cbn [eye item].
      apply andb_false_iff in E33.
      destruct (Nat.eqb_spec i j) as [->|Hne]; [|reflexivity].
      destruct (Nat.eqb j 3) eqn:Ej; [|reflexivity].
      destruct E33; discriminate.
Qed.

Lemma read_frame (h h' : Mem.store) (v : Mem.view) :
  nth (Mem.buf v) h' [] = nth (Mem.buf v) h [] -> Mem.read h' v = Mem.read h v.
Proof. intros H. unfold Mem.read. now rewrite H. Qed.

(** The buffer registered by the constructor holds the identity. *)
Lemma Mem_init_identity qubits nq (h0 : Mem.store) :
  teq (Mem.read (fst (Mem.init qubits nq h0)) (Mem.imat (snd (Mem.init qubits nq h0))))
      (eye 4).
Proof.
  split; [reflexivity|].
  intros idx Hr. cbn [shape Mem.read Mem.vshape Mem.imat eye Mem.init Mem.alloc fst snd] in Hr.
  unfold in_range in Hr.
  inversion Hr as [|i a idx1 s1 Hi Hr1]; subst.
  inversion Hr1 as [|j b idx2 s2 Hj Hr2]; subst.
  inversion Hr2; subst.
  unfold Mem.read. cbn [item Mem.buf Mem.imat Mem.init Mem.alloc fst snd].
  rewrite app_nth2, Nat.sub_diag by lia. cbn [nth].
  do 4 (destruct i as [|i]; [do 4 (destruct j as [|j]; [reflexivity|]); lia|]). lia.
Qed.

Lemma Mem_init_spec qubits nq (h0 : Mem.store) :
  exists h self,
    Mem.init qubits nq h0 = (h, self) /\
    length h = S (length h0) /\
    Mem.buf (Mem.imat self) = length h0 /\
    teq (Mem.read h (Mem.imat self)) (eye 4).
Proof.
  exists (fst (Mem.init qubits nq h0)), (snd (Mem.init qubits nq h0)).
  split; [reflexivity|].
  split; [cbn; rewrite length_app; simpl; lia|]. split; [reflexivity|].
  apply Mem_init_identity.
Qed.

(** C10.  [CPHASE.matrices] writes only a storage it has allocated.  In
    any store where the buffer [imat] of the gate reads as the 4x4
    identity, a call allocates one new storage, returns a view of it whose
    slices are diag(1, 1, 1, e^(i theta_k)), and leaves every storage that
    existed before the call as it was, so [imat] reads the same after the
    call.  Hence two successive calls on a new gate both return correct
    batches, in different storages, and the second call does not change
    what the first one returned. *)
Theorem C10_CPHASE_matrices_fresh_storage :
  (forall (self : Mem.t) (thetas : tensor R) (n : nat) (h : Mem.store),
      batch_shape thetas n ->
      (Mem.buf (Mem.imat self) < length h)%nat ->
      teq (Mem.read h (Mem.imat self)) (eye 4) ->
      exists h' m,
        Mem.matrices self thetas h = Ok (h', m) /\
        Mem.buf m = length h /\
        (forall l, (l < length h)%nat -> nth l h' [] = nth l h []) /\
        Mem.read h' (Mem.imat self) = Mem.read h (Mem.imat self) /\
        shape (Mem.read h' m) = [4; 4; n]%nat /\
        forall k, (k < n)%nat ->
          meq 4 (slice (Mem.read h' m) k) (CPHASE_closed_form (batch_angle thetas k))) /\
  (forall qubits nq (h0 : Mem.store) (thetas1 thetas2 : tensor R) (n1 n2 : nat),
      batch_shape thetas1 n1 -> batch_shape thetas2 n2 ->
      exists h self h1 m1 h2 m2 M1 M2,
        Mem.init qubits nq h0 = (h, self) /\
        Mem.matrices self thetas1 h = Ok (h1, m1) /\
        Mem.matrices self thetas2 h1 = Ok (h2, m2) /\
        CPHASE.matrices (CPHASE.init qubits nq) thetas1 = Ok M1 /\
        CPHASE.matrices (CPHASE.init qubits nq) thetas2 = Ok M2 /\
        Mem.buf m1 <> Mem.buf m2 /\
        Mem.buf m1 <> Mem.buf (Mem.imat self) /\
        Mem.buf m2 <> Mem.buf (Mem.imat self) /\
        Mem.read h2 (Mem.imat self) = Mem.read h (Mem.imat self) /\
        Mem.read h2 m1 = Mem.read h1 m1 /\
        (forall k, (k < n1)%nat -> meq 4 (slice (Mem.read h2 m1) k) (slice M1 k)) /\
        (forall k, (k < n2)%nat -> meq 4 (slice (Mem.read h2 m2) k) (slice M2 k))).
Proof.
  assert (Hcall :
    forall (self : Mem.t) (thetas : tensor R) (n : nat) (h : Mem.store),
      batch_shape thetas n ->
      (Mem.buf (Mem.imat self) < length h)%nat ->
      teq (Mem.read h (Mem.imat self)) (eye 4) ->
      exists h' m,
        Mem.matrices self thetas h = Ok (h', m) /\
        Mem.buf m = length h /\
        (forall l, (l < length h)%nat -> nth l h' [] = nth l h []) /\
        Mem.read h' (Mem.imat self) = Mem.read h (Mem.imat self) /\
        shape (Mem.read h' m) = [4; 4; n]%nat /\
        forall k, (k < n)%nat ->
          meq 4 (slice (Mem.read h' m) k) (CPHASE_closed_form (batch_angle thetas k))).
  { intros self thetas n h Hb Hlt Hid.
    destruct (@Mem_matrices_spec self thetas n h Hb Hid)
      as (h' & m & E & _ & Hbuf & Hframe & Hsh & Hres).
    exists h', m. repeat (split; [assumption|]).
    split; [apply read_frame, Hframe, Hlt|]. split; assumption. }
  split; [exact Hcall|].
  intros qubits nq h0 thetas1 thetas2 n1 n2 Hb1 Hb2.
  destruct (Mem_init_spec qubits nq h0) as (h & self & Einit & Hlen & Hibuf & Hid).
  destruct (Hcall self thetas1 n1 h Hb1 ltac:(lia) Hid)
    as (h1 & m1 & E1 & Hbuf1 & Hframe1 & Hread1 & _ & Hres1).
  destruct (@Mem_matrices_spec self thetas1 n1 h Hb1 Hid) as (h1' & m1' & E1' & Hlen1 & _).
  rewrite E1 in E1'. inversion E1'; subst h1' m1'. clear E1'.
  assert (Hid1 : teq (Mem.read h1 (Mem.imat self)) (eye 4)) by (rewrite Hread1; exact Hid).
  destruct (Hcall self thetas2 n2 h1 Hb2 ltac:(lia) Hid1)
    as (h2 & m2 & E2 & Hbuf2 & Hframe2 & Hread2 & _ & Hres2).
  destruct (@CPHASE_matrices_spec qubits nq thetas1 n1 Hb1) as (M1 & EM1 & _ & HM1).
  destruct (@CPHASE_matrices_spec qubits nq thetas2 n2 Hb2) as (M2 & EM2 & _ & HM2).
  assert (Hkeep : Mem.read h2 m1 = Mem.read h1 m1).
  { apply read_frame, Hframe2. lia. }
  exists h, self, h1, m1, h2, m2, M1, M2.
  repeat (split; [assumption || lia || congruence|]).
  split.
  - intros k Hk. rewrite Hkeep.
    eapply meq_trans; [apply (Hres1 k Hk) | apply meq_sym, (HM1 k Hk)].
  - intros k Hk.
    eapply meq_trans; [apply (Hres2 k Hk) | apply meq_sym, (HM2 k Hk)].
Qed.

Lemma C10_witness :
  (exists h' m,
      Mem.matrices (snd (Mem.init [0; 1]%nat 2 [])) (tensor1 0 [PI])
                   (fst (Mem.init [0; 1]%nat 2 [])) = Ok (h', m) /\
      Mem.buf m = 1%nat /\
      Mem.read h' (Mem.imat (snd (Mem.init [0; 1]%nat 2 [])))
      = Mem.read (fst (Mem.init [0; 1]%nat 2 [])) (Mem.imat (snd (Mem.init [0; 1]%nat 2 [])))) /\
  (exists h self h1 m1 h2 m2,
      Mem.init [0; 1]%nat 2 [] = (h, self) /\
      Mem.matrices self (tensor1 0 [PI]) h = Ok (h1, m1) /\
      Mem.matrices self (tensor1 0 [PI / 2; 0]) h1 = Ok (h2, m2) /\
      Mem.read h2 (Mem.imat self) = Mem.read h (Mem.imat self) /\
      Mem.read h2 m1 = Mem.read h1 m1).
Proof.
  split.
  - destruct (proj1 C10_CPHASE_matrices_fresh_storage
                (snd (Mem.init [0; 1]%nat 2 [])) (tensor1 0 [PI]) 1%nat
                (fst (Mem.init [0; 1]%nat 2 []))
                (or_introl eq_refl) (Nat.lt_0_1) (Mem_init_identity [0; 1]%nat 2 []))
      as (h' & m & E & Hbuf & _ & Hread & _).
    exists h', m. split; [exact E|]. split; [exact Hbuf | exact Hread].
  - destruct (proj2 C10_CPHASE_matrices_fresh_storage [0; 1]%nat 2%nat []
                (tensor1 0 [PI]) (tensor1 0 [PI / 2; 0]) 1%nat 2%nat
                (or_introl eq_refl) (or_introl eq_refl))
      as (h & self & h1 & m1 & h2 & m2 & M1 & M2 & Hi & E1 & E2
          & _ & _ & _ & _ & _ & Hr & Hk & _).
    exists h, self, h1, m1, h2, m2. repeat (split; [assumption|]). assumption.
Defined.

(** Outside the parameter batches of the data model: a tensor of rank 3
    whose first axis has size 3 passes the assertion of [U.matrices] and
    fails afterwards, in [repeat]. *)
Remark U_matrices_rank3 u (thetas : tensor R) b d :
  shape thetas = [3; b; d]%nat -> U.matrices u thetas = Raise RuntimeError.
Proof.
  intros Hs.
  unfold U.matrices, ndim, size, select0, assert, taddr, tsubr.
  rewrite Hs. cbn [length Nat.eqb bind nth_error Nat.ltb Nat.leb].
  rewrite !Hs. cbn [length Nat.eqb bind nth_error Nat.ltb Nat.leb].
  set (phi := mkTensor [b; d] (fun idx => item thetas (0%nat :: idx))).
  set (theta := mkTensor [b; d] (fun idx => item thetas (1%nat :: idx))).
  set (omega := mkTensor [b; d] (fun idx => item thetas (2%nat :: idx))).
  destruct (@broadcast2_same _ _ _ Rplus phi omega eq_refl) as (s & E & _). rewrite E.
  destruct (@broadcast2_same _ _ _ Rminus phi omega eq_refl) as (m & E' & _). rewrite E'.
  reflexivity.
Qed.

(* ================================================================== *)
(** ** Which parameter tensors the builders accept *)

Lemma squeeze0_keeps {A} (t : tensor A) m s :
  shape t = m :: s -> m <> 1%nat -> squeeze0 t = t.
Proof.
  intros Hs Hm. unfold squeeze0. rewrite Hs.
  destruct m as [|[|m]]; [reflexivity | now destruct Hm | reflexivity].
Qed.

(** The angle normalisation leaves a tensor of rank 2 or more with that
    rank, unless it has shape (1,n). *)
Lemma unsqueezed_rank (thetas : tensor R) m n rest :
  shape thetas = m :: n :: rest -> m <> 1%nat \/ rest <> [] ->
  (if Nat.eqb (ndim thetas) 2 then squeeze0 thetas else thetas) = thetas.
Proof.
  intros Hs Hc. unfold ndim. rewrite Hs.
  destruct rest as [|c rest]; cbn [length Nat.eqb]; [|reflexivity].
  destruct Hc as [Hm | Hr]; [|now destruct Hr].
  apply (@squeeze0_keeps _ thetas m [n] Hs Hm).
Qed.

Lemma rot_matrices_high_rank (theta : tensor R) (P I : tensor C) b m n rest :
  shape theta = m :: n :: rest -> rot_matrices theta P I b = Raise RuntimeError.
Proof.
  intros Hs. unfold rot_matrices, unsqueeze, trepeat, tcos, tdivr, tmap, ndim.
  cbn [shape]. rewrite Hs. reflexivity.
Qed.

Lemma RotationGate_matrices_rank0 g (thetas : tensor R) :
  shape thetas = [] -> RotationGate.matrices g thetas = Raise TypeError.
Proof.
  intros Hs. unfold RotationGate.matrices, ndim, len. rewrite Hs. cbn [length Nat.eqb].
  rewrite Hs. reflexivity.
Qed.

Lemma RotationGate_matrices_high_rank g (thetas : tensor R) m n rest :
  shape thetas = m :: n :: rest -> m <> 1%nat \/ rest <> [] ->
  RotationGate.matrices g thetas = Raise RuntimeError.
Proof.
  intros Hs Hc. unfold RotationGate.matrices.
  rewrite (@unsqueezed_rank thetas m n rest Hs Hc). unfold len. rewrite Hs. cbn [bind].
  apply (@rot_matrices_high_rank thetas _ _ m m n rest Hs).
Qed.

(** X1.  [RotationGate.matrices] (and [ControlledRotationGate.matrices],
    the same function of the same buffers) accepts exactly the parameter
    tensors of shape (n,) or (1,n).  A rank-0 tensor has no length
    (TypeError); a tensor of rank 2 whose first axis is not 1, for instance
    the (3,n) tensor of the U gate, and every tensor of rank 3 or more
    fail in [repeat] (RuntimeError). *)
Theorem X1_rotation_matrices_domain :
  forall gate qubits nq g cg (thetas : tensor R),
    RotationGate.init gate qubits nq = Ok g ->
    ControlledRotationGate.init gate qubits nq = Ok cg ->
    ControlledRotationGate.matrices cg thetas = RotationGate.matrices g thetas /\
    (shape thetas = [] -> RotationGate.matrices g thetas = Raise TypeError) /\
    (forall m n rest, shape thetas = m :: n :: rest -> m <> 1%nat \/ rest <> [] ->
       RotationGate.matrices g thetas = Raise RuntimeError) /\
    ((exists M, RotationGate.matrices g thetas = Ok M) <->
     (exists n, batch_shape thetas n)).
Proof.
  intros gate qubits nq g cg thetas Hg Hcg.
  split; [apply (@controlled_matrices gate qubits qubits nq cg g thetas Hcg Hg)|].
  split; [apply RotationGate_matrices_rank0|].
  split; [intros m n rest; apply RotationGate_matrices_high_rank|].
  split.
  - intros [M HM]. destruct (shape thetas) as [|m [|n rest]] eqn:Hs.
    + rewrite (@RotationGate_matrices_rank0 g thetas Hs) in HM. discriminate.
    + exists m. now left.
    + destruct (Nat.eq_dec m 1) as [-> | Hm].
      * destruct rest as [|c rest]; [exists n; now right|].
        rewrite (@RotationGate_matrices_high_rank g thetas 1 n (c :: rest) Hs) in HM;
          [discriminate | right; discriminate].
      * rewrite (@RotationGate_matrices_high_rank g thetas m n rest Hs) in HM;
          [discriminate | now left].
  - intros [n Hb].
    destruct (@RotationGate_slices gate qubits nq g thetas n Hg Hb) as (M & E & _).
    now exists M.
Qed.

Lemma X1_witness :
  RotationGate.matrices (RotationGate.mk [0%nat] 1 "X" IMAT XMAT)
    (tensor2 0 [[PI; 0]; [1; 2]; [0; PI]]) = Raise RuntimeError.
Proof.
  apply (proj1 (proj2 (proj2 (@X1_rotation_matrices_domain "X"%string [0%nat] 1%nat
           (RotationGate.mk [0%nat] 1 "X" IMAT XMAT)
           (ControlledRotationGate.mk [0%nat] 1 "X" IMAT XMAT)
           (tensor2 0 [[PI; 0]; [1; 2]; [0; PI]]) eq_refl eq_refl)))
         3%nat 2%nat [] eq_refl).
  left. discriminate.
Defined.

Lemma CPHASE_matrices_rank0 self (thetas : tensor R) :
  shape thetas = [] -> CPHASE.matrices self thetas = Raise TypeError.
Proof.
  intros Hs. unfold CPHASE.matrices, ndim, len. rewrite Hs. cbn [length Nat.eqb].
  rewrite Hs. reflexivity.
Qed.

Lemma CPHASE_matrices_rank2 qubits nq (thetas : tensor R) m n :
  shape thetas = [m; n] -> m <> 1%nat ->
  CPHASE.matrices (CPHASE.init qubits nq) thetas = Raise RuntimeError.
Proof.
  intros Hs Hm. unfold CPHASE.matrices.
  rewrite (@unsqueezed_rank thetas m n [] Hs (or_introl Hm)).
  unfold len, tmul. rewrite Hs. cbn [bind CPHASE.imat CPHASE.init].
  step (@trepeat_n11 _ (eye 4) 4 4 m eq_refl) as m0 Hm0 Hm0i.
  step (@permute_120 _ m0 m 4 4 Hm0) as mat Hmat Hmati.
  destruct (@broadcast2_suffix_l _ _ _ Cmult (scalar_tensor Ci) (to_complex thetas) [m; n])
    as (ph & E & Hph & _).
  { cbn. rewrite Hs. reflexivity. }
  rewrite E. cbn [bind]. clear E.
  cbn [shape to_complex tmap] in Hph. rewrite Hs in Hph.
  unfold unsqueeze, texp, tmap, ndim. cbn [shape]. rewrite Hph.
  cbn [length Nat.leb bind firstn skipn app shape].
  unfold setitem2, ndim. rewrite Hmat. cbn [shape Nat.ltb Nat.leb andb strip_ones].
  destruct m as [|[|m]]; [reflexivity | now destruct Hm | reflexivity].
Qed.

(** X2.  Among the parameter tensors of rank at most 2,
    [CPHASE.matrices] accepts exactly those of shape (n,) or (1,n), as
    the note in its source assumes.  A rank-0 tensor has no length
    (TypeError), and a (m,n) tensor with m other than 1, for instance the
    (3,n) tensor of the U gate, fails in the assignment of the phases
    (RuntimeError): it is not read as a batch of n. *)
Theorem X2_CPHASE_matrices_domain :
  forall qubits nq (thetas : tensor R),
    (shape thetas = [] ->
       CPHASE.matrices (CPHASE.init qubits nq) thetas = Raise TypeError) /\
    (forall m n, shape thetas = [m; n] -> m <> 1%nat ->
       CPHASE.matrices (CPHASE.init qubits nq) thetas = Raise RuntimeError) /\
    ((ndim thetas <= 2)%nat ->
       ((exists M, CPHASE.matrices (CPHASE.init qubits nq) thetas = Ok M) <->
        (exists n, batch_shape thetas n))).
Proof.
  intros qubits nq thetas.
  split; [apply CPHASE_matrices_rank0|].
  split; [intros m n; apply CPHASE_matrices_rank2|].
  intros Hrank. split.
  - intros [M HM]. unfold ndim in Hrank.
    destruct (shape thetas) as [|m [|n [|c rest]]] eqn:Hs.
    + rewrite (@CPHASE_matrices_rank0 _ thetas Hs) in HM. discriminate.
    + exists m. now left.
    + destruct (Nat.eq_dec m 1) as [-> | Hm]; [exists n; now right|].
      rewrite (@CPHASE_matrices_rank2 qubits nq thetas m n Hs Hm) in HM. discriminate.
    + simpl in Hrank. lia.
  - intros [n Hb].
    destruct (@CPHASE_matrices_spec qubits nq thetas n Hb) as (M & E & _).
    now exists M.
Qed.

Lemma X2_witness :
  CPHASE.matrices (CPHASE.init [0; 1]%nat 2) (tensor2 0 [[PI; 0]; [1; 2]; [0; PI]])
  = Raise RuntimeError.
Proof.
  apply (proj1 (proj2 (@X2_CPHASE_matrices_domain [0; 1]%nat 2%nat
                         (tensor2 0 [[PI; 0]; [1; 2]; [0; PI]])))
           3%nat 2%nat eq_refl).
  discriminate.
Defined.

Lemma U_matrices_rank0 u (thetas : tensor R) :
  shape thetas = [] -> U.matrices u thetas = Raise IndexError.
Proof.
  intros Hs. unfold U.matrices, ndim, size. rewrite Hs. cbn [length Nat.eqb bind].
  rewrite Hs. reflexivity.
Qed.

Lemma U_matrices_assert_any u (thetas : tensor R) m rest :
  shape thetas = m :: rest -> m <> 3%nat -> U.matrices u thetas = Raise AssertionError.
Proof.
  intros Hs Hm. destruct rest as [|b rest].
  - destruct (@U_matrices_promote u thetas m Hs) as (t' & _ & Hs' & _ & ->).
    apply (@U_matrices_assert u t' m 1 Hs' Hm).
  - unfold U.matrices, ndim, size. rewrite Hs. cbn [length Nat.eqb bind].
    rewrite Hs. cbn [nth_error bind]. apply Nat.eqb_neq in Hm. rewrite Hm. reflexivity.
Qed.

Lemma U_matrices_high_rank u (thetas : tensor R) b c rest :
  shape thetas = 3%nat :: b :: c :: rest -> U.matrices u thetas = Raise RuntimeError.
Proof.
  intros Hs.
  unfold U.matrices, ndim, size, select0, assert, taddr, tsubr.
  rewrite Hs. cbn [length Nat.eqb bind nth_error Nat.ltb Nat.leb].
  rewrite !Hs. cbn [length Nat.eqb bind nth_error Nat.ltb Nat.leb].
  set (phi := mkTensor (b :: c :: rest) (fun idx => item thetas (0%nat :: idx))).
  set (theta := mkTensor (b :: c :: rest) (fun idx => item thetas (1%nat :: idx))).
  set (omega := mkTensor (b :: c :: rest) (fun idx => item thetas (2%nat :: idx))).
  destruct (@broadcast2_same _ _ _ Rplus phi omega eq_refl) as (s & E & _). rewrite E.
  destruct (@broadcast2_same _ _ _ Rminus phi omega eq_refl) as (m & E' & _). rewrite E'.
  reflexivity.
Qed.

(** X3.  [U.matrices] accepts exactly the parameter tensors of shape (3,)
    or (3,B), among all tensors.  A rank-0 tensor has no first axis
    (IndexError); a first axis of size other than 3 fails the assertion,
    whatever the rank; a tensor of rank 3 or more whose first axis has size
    3 passes the assertion and fails in [repeat] (RuntimeError). *)
Theorem X3_U_matrices_domain :
  forall qubits nq u (thetas : tensor R),
    U.init qubits nq = Ok u ->
    (shape thetas = [] -> U.matrices u thetas = Raise IndexError) /\
    (forall m rest, shape thetas = m :: rest -> m <> 3%nat ->
       U.matrices u thetas = Raise AssertionError) /\
    (forall b c rest, shape thetas = 3%nat :: b :: c :: rest ->
       U.matrices u thetas = Raise RuntimeError) /\
    ((exists M, U.matrices u thetas = Ok M) <->
     (shape thetas = [3%nat] \/ exists B, shape thetas = [3%nat; B])).
Proof.
  intros qubits nq u thetas Hu.
  split; [apply U_matrices_rank0|].
  split; [intros m rest; apply U_matrices_assert_any|].
  split; [intros b c rest; apply U_matrices_high_rank|].
  split.
  - intros [M HM]. destruct (shape thetas) as [|m rest] eqn:Hs.
    + rewrite (@U_matrices_rank0 u thetas Hs) in HM. discriminate.
    + destruct (Nat.eq_dec m 3) as [-> | Hm].
      * destruct rest as [|b [|c rest]]; [now left | right; now exists b |].
        rewrite (@U_matrices_high_rank u thetas b c rest Hs) in HM. discriminate.
      * rewrite (@U_matrices_assert_any u thetas m rest Hs Hm) in HM. discriminate.
  - intros [Hs | [B Hs]].
    + destruct (@U_matrices_promote u thetas 3 Hs) as (t' & _ & Hs' & _ & ->).
      destruct (@U_matrices_spec _ _ _ t' _ Hu Hs') as (M & E & _). now exists M.
    + destruct (@U_matrices_spec _ _ _ thetas _ Hu Hs) as (M & E & _). now exists M.
Qed.

Lemma X3_witness :
  exists u, U.init [0%nat] 1 = Ok u /\
    U.matrices u (tensor1 0 [PI; 0]) = Raise AssertionError.
Proof.
  eexists. split; [apply U_init_ok|].
  apply (proj1 (proj2 (@X3_U_matrices_domain [0%nat] 1%nat _ (tensor1 0 [PI; 0])
                         (U_init_ok _ _))) 2%nat [] eq_refl).
  discriminate.
Defined.

(* ================================================================== *)
(** ** rot_matrices with a batch size of its own *)

Section BroadcastLast.
Context {A B D : Type} (f : A -> B -> D).

(** Two (2,2,.) tensors whose last axes differ. *)
Lemma broadcast2_last_one_l t1 t2 b :
  shape t1 = [2; 2; 1]%nat -> shape t2 = [2; 2; b]%nat ->
  exists t, broadcast2 f t1 t2 = Ok t /\ shape t = [2; 2; b]%nat /\
    forall i j k, (i < 2)%nat -> (j < 2)%nat -> (k < b)%nat ->
      item t [i; j; k] = f (item t1 [i; j; 0%nat]) (item t2 [i; j; k]).
Proof.
  intros H1 H2. unfold broadcast2, broadcast_shapes, pad_shape. rewrite H1, H2.
  destruct b as [|[|b]]; (eexists; split; [reflexivity|]; split; [reflexivity|]);
    intros i j k Hi Hj Hk; [lia | | reflexivity].
  assert (k = 0)%nat as -> by lia. reflexivity.
Qed.

Lemma broadcast2_last_one_r t1 t2 n :
  shape t1 = [2; 2; n]%nat -> shape t2 = [2; 2; 1]%nat ->
  exists t, broadcast2 f t1 t2 = Ok t /\ shape t = [2; 2; n]%nat /\
    forall i j k, (i < 2)%nat -> (j < 2)%nat -> (k < n)%nat ->
      item t [i; j; k] = f (item t1 [i; j; k]) (item t2 [i; j; 0%nat]).
Proof.
  intros H1 H2. unfold broadcast2, broadcast_shapes, pad_shape. rewrite H1, H2.
  destruct n as [|[|n]]; (eexists; split; [reflexivity|]; split; [reflexivity|]);
    intros i j k Hi Hj Hk; [lia | | reflexivity].
  assert (k = 0)%nat as -> by lia. reflexivity.
Qed.

Lemma broadcast2_last_mismatch t1 t2 n b :
  shape t1 = [2; 2; n]%nat -> shape t2 = [2; 2; b]%nat ->
  n <> b -> n <> 1%nat -> b <> 1%nat ->
  broadcast2 f t1 t2 = Raise RuntimeError.
Proof.
  intros H1 H2 Hnb Hn Hb. unfold broadcast2, broadcast_shapes, pad_shape. rewrite H1, H2.
  cbn [length Nat.max Nat.sub List.repeat app broadcast_aligned].
  apply Nat.eqb_neq in Hnb, Hn, Hb. now rewrite Hnb, Hn, Hb.
Qed.
End BroadcastLast.

(** X4.  [rot_matrices] takes the batch size beside the angles.  With n
    angles and 2x2 matrices P and I: when the batch size is neither n nor
    1 and n is not 1, the product of the tiled cosines and the tiled
    identity fails to broadcast (RuntimeError); with one angle, the batch
    holds [batch_size] copies of the rotation at that angle; with batch
    size 1, the batch still has one rotation for each of the n angles. *)
Theorem X4_rot_matrices_batch_size :
  forall (theta : tensor R) (P I : tensor C) (n b : nat),
    shape theta = [n] -> shape P = [2; 2]%nat -> shape I = [2; 2]%nat ->
    (n <> b -> n <> 1%nat -> b <> 1%nat ->
       rot_matrices theta P I b = Raise RuntimeError) /\
    (n = 1%nat ->
       exists M, rot_matrices theta P I b = Ok M /\ shape M = [2; 2; b]%nat /\
         forall k, (k < b)%nat ->
           meq 2 (slice M k)
               (rotation_closed_form (as_matrix I) (as_matrix P) (item theta [0%nat]))) /\
    (b = 1%nat ->
       exists M, rot_matrices theta P I b = Ok M /\ shape M = [2; 2; n]%nat /\
         forall k, (k < n)%nat ->
           meq 2 (slice M k)
               (rotation_closed_form (as_matrix I) (as_matrix P) (item theta [k]))).
Proof.
  intros theta P I n b Ht HP HI.
  assert (Hpre :
    exists cos_t sin_t bi bp,
      rot_matrices theta P I b =
      (lhs <- tmul (to_complex cos_t) bi ;;
       rhs <- tmul (smul Ci (to_complex sin_t)) bp ;;
       tsub lhs rhs) /\
      shape cos_t = [2; 2; n]%nat /\ shape sin_t = [2; 2; n]%nat /\
      shape bi = [2; 2; b]%nat /\ shape bp = [2; 2; b]%nat /\
      (forall i j k, (k < n)%nat -> item cos_t [i; j; k] = cos (item theta [k] / 2)) /\
      (forall i j k, (k < n)%nat -> item sin_t [i; j; k] = sin (item theta [k] / 2)) /\
      (forall i j k, (i < 2)%nat -> (j < 2)%nat -> item bi [i; j; k] = item I [i; j]) /\
      (forall i j k, (i < 2)%nat -> (j < 2)%nat -> item bp [i; j; k] = item P [i; j])).
  { unfold rot_matrices.
    step (@unsqueeze01 _ (tcos (tdivr theta 2)) n Ht) as c0 Hc0 Hc0i.
    step (@trepeat221 _ c0 n Hc0) as cos_t Hcos Hcosi.
    step (@unsqueeze01 _ (tsin (tdivr theta 2)) n Ht) as s0 Hs0 Hs0i.
    step (@trepeat221 _ s0 n Hs0) as sin_t Hsin Hsini.
    step (@batch_of_matrix _ I 2 2 b HI) as bi Hbi Hbii.
    step (@batch_of_matrix _ P 2 2 b HP) as bp Hbp Hbpi.
    exists cos_t, sin_t, bi, bp. split; [reflexivity|].
    repeat (split; [assumption|]). split; [|split; [|split]]; try assumption.
    - intros i j k Hk. now rewrite Hcosi, Hc0i.
    - intros i j k Hk. now rewrite Hsini, Hs0i. }
  destruct Hpre
    as (cos_t & sin_t & bi & bp & -> & Hcos & Hsin & Hbi & Hbp & Hci & Hsi & Hbii & Hbpi).
  unfold tmul, tsub.
  split; [|split].
  - intros Hnb Hn Hb.
    now rewrite (@broadcast2_last_mismatch _ _ _ Cmult (to_complex cos_t) bi n b Hcos Hbi).
  - intros ->.
    step (@broadcast2_last_one_l _ _ _ Cmult (to_complex cos_t) bi b Hcos Hbi) as l Hl Hli.
    step (@broadcast2_last_one_l _ _ _ Cmult (smul Ci (to_complex sin_t)) bp b Hsin Hbp)
      as r Hr Hri.
    destruct (@broadcast2_333 _ _ _ Cminus l r 2 2 b Hl Hr) as (M & E & HM & HMi).
    exists M. split; [assumption|]. split; [assumption|].
    intros k Hk i j Hi Hj. unfold slice.
    rewrite HMi, Hli, Hri by assumption. cbn [item to_complex smul tmap].
    rewrite Hci, Hsi, Hbii, Hbpi by (assumption || lia). reflexivity.
  - intros ->.
    step (@broadcast2_last_one_r _ _ _ Cmult (to_complex cos_t) bi n Hcos Hbi) as l Hl Hli.
    step (@broadcast2_last_one_r _ _ _ Cmult (smul Ci (to_complex sin_t)) bp n Hsin Hbp)
      as r Hr Hri.
    destruct (@broadcast2_333 _ _ _ Cminus l r 2 2 n Hl Hr) as (M & E & HM & HMi).
    exists M. split; [assumption|]. split; [assumption|].
    intros k Hk i j Hi Hj. unfold slice.
    rewrite HMi, Hli, Hri by assumption. cbn [item to_complex smul tmap].
    rewrite Hci, Hsi, Hbii, Hbpi by (assumption || lia). reflexivity.
Qed.

Lemma X4_witness :
  rot_matrices (tensor1 0 [PI; 0]) XMAT IMAT 3 = Raise RuntimeError /\
  (exists M, rot_matrices (tensor1 0 [PI]) XMAT IMAT 3 = Ok M /\ shape M = [2; 2; 3]%nat) /\
  (exists M, rot_matrices (tensor1 0 [PI; 0]) XMAT IMAT 1 = Ok M /\ shape M = [2; 2; 2]%nat).
Proof.
  split; [|split].
  - apply (proj1 (@X4_rot_matrices_batch_size (tensor1 0 [PI; 0]) XMAT IMAT 2%nat 3%nat
                    eq_refl eq_refl eq_refl)); discriminate.
  - destruct (proj1 (proj2 (@X4_rot_matrices_batch_size (tensor1 0 [PI]) XMAT IMAT 1%nat 3%nat
                              eq_refl eq_refl eq_refl)) eq_refl) as (M & E & HM & _).
    exists M. split; assumption.
  - destruct (proj2 (proj2 (@X4_rot_matrices_batch_size (tensor1 0 [PI; 0]) XMAT IMAT 2%nat
                              1%nat eq_refl eq_refl eq_refl)) eq_refl) as (M & E & HM & _).
    exists M. split; assumption.
Defined.

(* ================================================================== *)
(** ** The batch entries are independent *)

Lemma U_slices_rank1 qubits nq u (thetas : tensor R) :
  U.init qubits nq = Ok u -> shape thetas = [3%nat] ->
  exists M, U.matrices u thetas = Ok M /\ shape M = [2; 2; 1]%nat /\
    meq 2 (slice M 0%nat)
        (U_closed_form (item thetas [0%nat]) (item thetas [1%nat]) (item thetas [2%nat])).
Proof.
  intros Hu Hs.
  destruct (@U_matrices_promote u thetas 3 Hs) as (t' & _ & Hs' & Hi & ->).
  destruct (@U_matrices_spec _ _ _ t' _ Hu Hs') as (M & E & HM & Hsl).
  exists M. split; [assumption|]. split; [assumption|].
  rewrite <- !(Hi _ 0%nat). apply Hsl. lia.
Qed.

(** X5.  The k-th matrix of a batch depends on the k-th parameters only:
    it is the matrix the gate builds for these parameters alone, as a batch
    of one.  This holds for the rotation gates, for the U gate (whose
    single parameter triple is given as a rank-1 tensor) and for the
    controlled-phase gate. *)
Theorem X5_batch_independence :
  (forall gate qubits nq g (thetas : tensor R) (n k : nat),
      RotationGate.init gate qubits nq = Ok g -> batch_shape thetas n -> (k < n)%nat ->
      exists M M1,
        RotationGate.matrices g thetas = Ok M /\
        RotationGate.matrices g (tensor1 0 [batch_angle thetas k]) = Ok M1 /\
        shape M1 = [2; 2; 1]%nat /\ meq 2 (slice M k) (slice M1 0%nat)) /\
  (forall qubits nq u (thetas : tensor R) (n k : nat),
      U.init qubits nq = Ok u -> shape thetas = [3; n]%nat -> (k < n)%nat ->
      exists M M1,
        U.matrices u thetas = Ok M /\
        U.matrices u (tensor1 0 [item thetas [0; k]%nat; item thetas [1; k]%nat;
                                 item thetas [2; k]%nat]) = Ok M1 /\
        shape M1 = [2; 2; 1]%nat /\ meq 2 (slice M k) (slice M1 0%nat)) /\
  (forall qubits nq (thetas : tensor R) (n k : nat),
      batch_shape thetas n -> (k < n)%nat ->
      exists M M1,
        CPHASE.matrices (CPHASE.init qubits nq) thetas = Ok M /\
        CPHASE.matrices (CPHASE.init qubits nq) (tensor1 0 [batch_angle thetas k]) = Ok M1 /\
        shape M1 = [4; 4; 1]%nat /\ meq 4 (slice M k) (slice M1 0%nat)).
Proof.
  split; [|split].
  - intros gate qubits nq g thetas n k Hg Hb Hk.
    destruct (@RotationGate_slices gate qubits nq g thetas n Hg Hb) as (M & E & _ & HM).
    destruct (@RotationGate_slices gate qubits nq g (tensor1 0 [batch_angle thetas k]) 1
                Hg (or_introl eq_refl)) as (M1 & E1 & HS1 & HM1).
    exists M, M1. repeat (split; [assumption|]).
    eapply meq_trans; [apply (HM k Hk)|]. apply meq_sym, (HM1 0%nat). lia.
  - intros qubits nq u thetas n k Hu Hs Hk.
    destruct (@U_matrices_spec _ _ _ thetas _ Hu Hs) as (M & E & _ & HM).
    destruct (@U_slices_rank1 qubits nq u
                (tensor1 0 [item thetas [0; k]%nat; item thetas [1; k]%nat;
                            item thetas [2; k]%nat]) Hu eq_refl) as (M1 & E1 & HS1 & HM1).
    exists M, M1. repeat (split; [assumption|]).
    eapply meq_trans; [apply (HM k Hk)|]. apply meq_sym, HM1.
  - intros qubits nq thetas n k Hb Hk.
    destruct (@CPHASE_matrices_spec qubits nq thetas n Hb) as (M & E & _ & HM).
    destruct (@CPHASE_matrices_spec qubits nq (tensor1 0 [batch_angle thetas k]) 1
                (or_introl eq_refl)) as (M1 & E1 & HS1 & HM1).
    exists M, M1. repeat (split; [assumption|]).
    eapply meq_trans; [apply (HM k Hk)|]. apply meq_sym, (HM1 0%nat). lia.
Qed.

Lemma X5_witness :
  (exists M M1,
      RotationGate.matrices (RotationGate.mk [0%nat] 1 "Y" IMAT YMAT)
                            (tensor1 0 [PI; 1; 2]) = Ok M /\
      RotationGate.matrices (RotationGate.mk [0%nat] 1 "Y" IMAT YMAT) (tensor1 0 [1]) = Ok M1 /\
      meq 2 (slice M 1%nat) (slice M1 0%nat)) /\
  (exists u M M1,
      U.init [0%nat] 1 = Ok u /\
      U.matrices u (tensor2 0 [[PI; 0]; [1; 2]; [0; PI]]) = Ok M /\
      U.matrices u (tensor1 0 [0; 2; PI]) = Ok M1 /\
      meq 2 (slice M 1%nat) (slice M1 0%nat)) /\
  (exists M M1,
      CPHASE.matrices (CPHASE.init [0; 1]%nat 2) (tensor2 0 [[PI; 1]]) = Ok M /\
      CPHASE.matrices (CPHASE.init [0; 1]%nat 2) (tensor1 0 [PI]) = Ok M1 /\
      meq 4 (slice M 0%nat) (slice M1 0%nat)).
Proof.
  destruct X5_batch_independence as (Hr & Hu & Hc). split; [|split].
  - destruct (Hr "Y"%string [0%nat] 1%nat (RotationGate.mk [0%nat] 1 "Y" IMAT YMAT)
                (tensor1 0 [PI; 1; 2]) 3%nat 1%nat eq_refl (or_introl eq_refl) ltac:(lia))
      as (M & M1 & E & E1 & _ & H).
    exists M, M1. repeat (split; [assumption|]). assumption.
  - destruct (Hu [0%nat] 1%nat _ (tensor2 0 [[PI; 0]; [1; 2]; [0; PI]]) 2%nat 1%nat
                (U_init_ok _ _) eq_refl ltac:(lia)) as (M & M1 & E & E1 & _ & H).
    eexists _, M, M1. split; [apply U_init_ok|]. repeat (split; [assumption|]). assumption.
  - destruct (Hc [0; 1]%nat 2%nat (tensor2 0 [[PI; 1]]) 2%nat 0%nat (or_intror eq_refl)
                ltac:(lia)) as (M & M1 & E & E1 & _ & H).
    exists M, M1. repeat (split; [assumption|]). assumption.
Defined.

(* ================================================================== *)
(** ** Algebra of the rotations about one axis *)

Ltac pauli_entries' HP i j :=
  destruct HP as [-> | [-> | [-> | ->]]];
  destruct i as [|[|i]]; try lia; destruct j as [|[|j]]; try lia;
  cbv [mmul madj mopp rotation_closed_form msub mscale as_matrix mid Csum seq map fold_right
       item IMAT XMAT YMAT ZMAT tensor2 nth Nat.eqb];
  c_eq.

Lemma rot_compose P a b :
  P = IMAT \/ P = XMAT \/ P = YMAT \/ P = ZMAT ->
  meq 2 (mmul 2 (rotation_closed_form (as_matrix IMAT) (as_matrix P) a)
                (rotation_closed_form (as_matrix IMAT) (as_matrix P) b))
        (rotation_closed_form (as_matrix IMAT) (as_matrix P) (a + b)).
Proof.
  intros HP i j Hi Hj. unfold rotation_closed_form.
  replace ((a + b) / 2) with (a / 2 + b / 2) by lra.
  rewrite cos_plus, sin_plus.
  pauli_entries' HP i j; ring.
Qed.

Lemma rot_adjoint P theta :
  P = IMAT \/ P = XMAT \/ P = YMAT \/ P = ZMAT ->
  meq 2 (rotation_closed_form (as_matrix IMAT) (as_matrix P) (- theta))
        (madj (rotation_closed_form (as_matrix IMAT) (as_matrix P) theta)).
Proof.
  intros HP i j Hi Hj. unfold rotation_closed_form.
  replace (- theta / 2) with (- (theta / 2)) by lra.
  rewrite cos_neg, sin_neg.
  pauli_entries' HP i j; ring.
Qed.

Lemma rot_shift P theta :
  P = IMAT \/ P = XMAT \/ P = YMAT \/ P = ZMAT ->
  meq 2 (rotation_closed_form (as_matrix IMAT) (as_matrix P) (theta + 2 * PI))
        (mopp (rotation_closed_form (as_matrix IMAT) (as_matrix P) theta)).
Proof.
  intros HP i j Hi Hj. unfold rotation_closed_form.
  replace ((theta + 2 * PI) / 2) with (theta / 2 + PI) by lra.
  rewrite neg_cos, neg_sin.
  pauli_entries' HP i j; ring.
Qed.

Lemma rot_period P theta :
  P = IMAT \/ P = XMAT \/ P = YMAT \/ P = ZMAT ->
  meq 2 (rotation_closed_form (as_matrix IMAT) (as_matrix P) (theta + 4 * PI))
        (rotation_closed_form (as_matrix IMAT) (as_matrix P) theta).
Proof.
  intros HP i j Hi Hj. unfold rotation_closed_form.
  replace ((theta + 4 * PI) / 2) with (theta / 2 + PI + PI) by lra.
  rewrite !neg_cos, !neg_sin, !Ropp_involutive. reflexivity.
Qed.

Lemma rot_det P theta :
  P = XMAT \/ P = YMAT \/ P = ZMAT ->
  mdet2 (rotation_closed_form (as_matrix IMAT) (as_matrix P) theta) = Cone.
Proof.
  intros HP. pose proof (cos2_sin2 (theta / 2)) as Hcs.
  destruct HP as [-> | [-> | ->]];
    cbv [mdet2 rotation_closed_form msub mscale as_matrix mid item IMAT XMAT YMAT ZMAT
         tensor2 nth Nat.eqb];
    c_eq; nra.
Qed.

(** The real and the imaginary part of an equation between complex numbers. *)
Ltac parts H :=
  let Hr := fresh H "r" in
  let Hi := fresh H "i" in
  pose proof (f_equal fst H) as Hr; pose proof (f_equal snd H) as Hi;
  cbn [fst snd] in Hr, Hi; clear H.

(** A rotation about any Hermitian unitary base matrix is unitary. *)
Lemma rot_unitary_general (I P : matrix) theta :
  meq 2 I mid -> hermitian 2 P -> unitary 2 P ->
  unitary 2 (rotation_closed_form I P theta).
Proof.
  intros HI HH HU i j Hi Hj.
  pose proof (cos2_sin2 (theta / 2)) as Hcs.
  assert (H00 := HH 0%nat 0%nat ltac:(lia) ltac:(lia)).
  assert (H01 := HH 0%nat 1%nat ltac:(lia) ltac:(lia)).
  assert (H11 := HH 1%nat 1%nat ltac:(lia) ltac:(lia)).
  assert (U00 := HU 0%nat 0%nat ltac:(lia) ltac:(lia)).
  assert (U01 := HU 0%nat 1%nat ltac:(lia) ltac:(lia)).
  assert (U11 := HU 1%nat 1%nat ltac:(lia) ltac:(lia)).
  unfold mmul, madj in U00, U01, U11.
  unfold madj in H00, H01, H11.
  cbv [mid Csum seq map fold_right Nat.eqb] in U00, U01, U11.
  destruct i as [|[|i]]; try lia; destruct j as [|[|j]]; try lia;
    unfold rotation_closed_form, mmul, madj, msub, mscale;
    cbv [Csum seq map fold_right];
    rewrite !HI by lia;
    cbv [mid Nat.eqb];
    destruct (P 0%nat 0%nat) as [a0 b0], (P 0%nat 1%nat) as [a1 b1],
             (P 1%nat 0%nat) as [a2 b2], (P 1%nat 1%nat) as [a3 b3];
    unfold_C;
    parts H00; parts H01; parts H11; parts U00; parts U01; parts U11;
    generalize dependent (cos (theta / 2)); generalize dependent (sin (theta / 2));
    intros s c Hcs;
    assert (b0 = 0) by lra; assert (b3 = 0) by lra; assert (b2 = - b1) by lra;
    subst a2 b0 b3 b2; apply injective_projections; cbn [fst snd].
  all: nra.
Qed.

Lemma mdet2_meq a b : meq 2 a b -> mdet2 a = mdet2 b.
Proof. intros H. unfold mdet2. now rewrite !H by lia. Qed.

Lemma U_closed_form_det phi theta omega : mdet2 (U_closed_form phi theta omega) = Cone.
Proof.
  pose proof (cos2_sin2 (theta / 2)) as Ht.
  pose proof (cos2_sin2 ((phi + omega) / 2)) as Hp.
  pose proof (cos2_sin2 ((phi - omega) / 2)) as Hm.
  unfold mdet2, U_closed_form, expi. rewrite !cos_neg, !sin_neg.
  generalize dependent (cos (theta / 2)). generalize dependent (sin (theta / 2)).
  generalize dependent (cos ((phi + omega) / 2)). generalize dependent (sin ((phi + omega) / 2)).
  generalize dependent (cos ((phi - omega) / 2)). generalize dependent (sin ((phi - omega) / 2)).
  intros sm cm Hm sp cp Hp s c Ht. c_eq.
  - transitivity (c * c * (cp * cp + sp * sp) + s * s * (cm * cm + sm * sm)); [ring|].
    rewrite Hp, Hm. lra.
  - ring.
Qed.

(** X6.  Rotations about one axis compose by adding their angles: for a
    rotation gate over a base matrix of the registry, the product of the
    k-th matrices built at two parameter batches is the k-th matrix built
    at the batch of the sums of their angles. *)
Theorem X6_rotation_composition :
  forall gate qubits nq g (thetas1 thetas2 thetas3 : tensor R) (n : nat),
    RotationGate.init gate qubits nq = Ok g ->
    batch_shape thetas1 n -> batch_shape thetas2 n -> batch_shape thetas3 n ->
    (forall k, (k < n)%nat ->
       batch_angle thetas3 k = batch_angle thetas1 k + batch_angle thetas2 k) ->
    exists M1 M2 M3,
      RotationGate.matrices g thetas1 = Ok M1 /\
      RotationGate.matrices g thetas2 = Ok M2 /\
      RotationGate.matrices g thetas3 = Ok M3 /\
      forall k, (k < n)%nat -> meq 2 (mmul 2 (slice M1 k) (slice M2 k)) (slice M3 k).
Proof.
  intros gate qubits nq g t1 t2 t3 n Hg Hb1 Hb2 Hb3 Hsum.
  destruct (@RotationGate_slices gate qubits nq g t1 n Hg Hb1) as (M1 & E1 & _ & H1).
  destruct (@RotationGate_slices gate qubits nq g t2 n Hg Hb2) as (M2 & E2 & _ & H2).
  destruct (@RotationGate_slices gate qubits nq g t3 n Hg Hb3) as (M3 & E3 & _ & H3).
  destruct (@RotationGate_init_inv gate qubits nq g Hg) as (_ & HP & _).
  pose proof (pauli_cases _ HP) as Hcases.
  exists M1, M2, M3. repeat (split; [assumption|]).
  intros k Hk.
  eapply meq_trans; [apply mmul_meq; [apply (H1 k Hk) | apply (H2 k Hk)]|].
  eapply meq_trans; [apply (@rot_compose _ _ _ Hcases)|].
  rewrite <- (Hsum k Hk). apply meq_sym, (H3 k Hk).
Qed.

Lemma X6_witness :
  exists M1 M2 M3,
    RotationGate.matrices (RotationGate.mk [0%nat] 1 "X" IMAT XMAT) (tensor1 0 [PI]) = Ok M1 /\
    RotationGate.matrices (RotationGate.mk [0%nat] 1 "X" IMAT XMAT) (tensor1 0 [1]) = Ok M2 /\
    RotationGate.matrices (RotationGate.mk [0%nat] 1 "X" IMAT XMAT) (tensor1 0 [PI + 1])
    = Ok M3 /\
    meq 2 (mmul 2 (slice M1 0%nat) (slice M2 0%nat)) (slice M3 0%nat).
Proof.
  destruct (@X6_rotation_composition "X"%string [0%nat] 1%nat
              (RotationGate.mk [0%nat] 1 "X" IMAT XMAT)
              (tensor1 0 [PI]) (tensor1 0 [1]) (tensor1 0 [PI + 1]) 1%nat eq_refl
              (or_introl eq_refl) (or_introl eq_refl) (or_introl eq_refl))
    as (M1 & M2 & M3 & E1 & E2 & E3 & H).
  - intros k Hk. assert (k = 0)%nat as -> by lia. reflexivity.
  - exists M1, M2, M3. repeat (split; [assumption|]). apply H. lia.
Defined.

(** X7.  Negating the angles gives the adjoint matrices: for a rotation
    gate over a base matrix of the registry and for the controlled-phase
    gate, the k-th matrix built at [-thetas] is the conjugate transpose of
    the k-th matrix built at [thetas]. *)
Theorem X7_negated_angle_is_adjoint :
  (forall gate qubits nq g (thetas : tensor R) (n : nat),
      RotationGate.init gate qubits nq = Ok g -> batch_shape thetas n ->
      exists M M',
        RotationGate.matrices g thetas = Ok M /\
        RotationGate.matrices g (tneg thetas) = Ok M' /\
        forall k, (k < n)%nat -> meq 2 (slice M' k) (madj (slice M k))) /\
  (forall qubits nq (thetas : tensor R) (n : nat),
      batch_shape thetas n ->
      exists M M',
        CPHASE.matrices (CPHASE.init qubits nq) thetas = Ok M /\
        CPHASE.matrices (CPHASE.init qubits nq) (tneg thetas) = Ok M' /\
        forall k, (k < n)%nat -> meq 4 (slice M' k) (madj (slice M k))).
Proof.
  split.
  - intros gate qubits nq g thetas n Hg Hb.
    destruct (@RotationGate_slices gate qubits nq g thetas n Hg Hb) as (M & E & _ & HM).
    destruct (@RotationGate_slices gate qubits nq g (tneg thetas) n Hg
                (@batch_shape_tneg thetas n Hb)) as (M' & E' & _ & HM').
    destruct (@RotationGate_init_inv gate qubits nq g Hg) as (_ & HP & _).
    pose proof (pauli_cases _ HP) as Hcases.
    exists M, M'. repeat (split; [assumption|]).
    intros k Hk.
    eapply meq_trans; [apply (HM' k Hk)|]. rewrite batch_angle_tneg.
    eapply meq_trans; [apply (@rot_adjoint _ _ Hcases)|].
    apply madj_meq, meq_sym, (HM k Hk).
  - intros qubits nq thetas n Hb.
    destruct (@CPHASE_matrices_spec qubits nq thetas n Hb) as (M & E & _ & HM).
    destruct (@CPHASE_matrices_spec qubits nq (tneg thetas) n (@batch_shape_tneg thetas n Hb))
      as (M' & E' & _ & HM').
    exists M, M'. repeat (split; [assumption|]).
    intros k Hk.
    eapply meq_trans; [apply (HM' k Hk)|]. rewrite batch_angle_tneg.
    eapply meq_trans; [|apply madj_meq, meq_sym, (HM k Hk)].
    intros i j Hi Hj. unfold madj, CPHASE_closed_form, expi.
    rewrite cos_neg, sin_neg, (Nat.eqb_sym j i).
    destruct (Nat.eqb_spec i j) as [-> | Hne]; [|unfold Cconj, Czero; cbn; f_equal; lra].
    destruct (Nat.eqb j 3); unfold Cconj, Cone; cbn [fst snd]; f_equal; lra.
Qed.

Lemma X7_witness :
  (exists M M',
      RotationGate.matrices (RotationGate.mk [0%nat] 1 "Z" IMAT ZMAT) (tensor1 0 [PI / 3])
      = Ok M /\
      RotationGate.matrices (RotationGate.mk [0%nat] 1 "Z" IMAT ZMAT)
                            (tneg (tensor1 0 [PI / 3])) = Ok M' /\
      meq 2 (slice M' 0%nat) (madj (slice M 0%nat))) /\
  (exists M M',
      CPHASE.matrices (CPHASE.init [0; 1]%nat 2) (tensor1 0 [PI / 3]) = Ok M /\
      CPHASE.matrices (CPHASE.init [0; 1]%nat 2) (tneg (tensor1 0 [PI / 3])) = Ok M' /\
      meq 4 (slice M' 0%nat) (madj (slice M 0%nat))).
Proof.
  destruct X7_negated_angle_is_adjoint as (Hr & Hc). split.
  - destruct (Hr "Z"%string [0%nat] 1%nat (RotationGate.mk [0%nat] 1 "Z" IMAT ZMAT)
                (tensor1 0 [PI / 3]) 1%nat eq_refl (or_introl eq_refl)) as (M & M' & E & E' & H).
    exists M, M'. repeat (split; [assumption|]). apply H. lia.
  - destruct (Hc [0; 1]%nat 2%nat (tensor1 0 [PI / 3]) 1%nat (or_introl eq_refl))
      as (M & M' & E & E' & H).
    exists M, M'. repeat (split; [assumption|]). apply H. lia.
Defined.

(** X8.  The rotation matrices have period 4 pi in the angle, not 2 pi:
    for a rotation gate over a base matrix of the registry, adding 2 pi to
    the k-th angle negates the k-th matrix, and adding 4 pi leaves it as it
    is. *)
Theorem X8_rotation_period :
  forall gate qubits nq g (thetas thetas' : tensor R) (n : nat),
    RotationGate.init gate qubits nq = Ok g ->
    batch_shape thetas n -> batch_shape thetas' n ->
    exists M M',
      RotationGate.matrices g thetas = Ok M /\
      RotationGate.matrices g thetas' = Ok M' /\
      forall k, (k < n)%nat ->
        (batch_angle thetas' k = batch_angle thetas k + 2 * PI ->
           meq 2 (slice M' k) (mopp (slice M k))) /\
        (batch_angle thetas' k = batch_angle thetas k + 4 * PI ->
           meq 2 (slice M' k) (slice M k)).
Proof.
  intros gate qubits nq g thetas thetas' n Hg Hb Hb'.
  destruct (@RotationGate_slices gate qubits nq g thetas n Hg Hb) as (M & E & _ & HM).
  destruct (@RotationGate_slices gate qubits nq g thetas' n Hg Hb') as (M' & E' & _ & HM').
  destruct (@RotationGate_init_inv gate qubits nq g Hg) as (_ & HP & _).
  pose proof (pauli_cases _ HP) as Hcases.
  exists M, M'. repeat (split; [assumption|]).
  intros k Hk. split; intros Hshift.
  - eapply meq_trans; [apply (HM' k Hk)|]. rewrite Hshift.
    eapply meq_trans; [apply (@rot_shift _ _ Hcases)|].
    intros i j Hi Hj. unfold mopp. now rewrite (HM k Hk i j Hi Hj).
  - eapply meq_trans; [apply (HM' k Hk)|]. rewrite Hshift.
    eapply meq_trans; [apply (@rot_period _ _ Hcases)|].
    apply meq_sym, (HM k Hk).
Qed.

Lemma X8_witness :
  exists M M',
    RotationGate.matrices (RotationGate.mk [0%nat] 1 "X" IMAT XMAT) (tensor1 0 [1]) = Ok M /\
    RotationGate.matrices (RotationGate.mk [0%nat] 1 "X" IMAT XMAT) (tensor1 0 [1 + 2 * PI])
    = Ok M' /\
    meq 2 (slice M' 0%nat) (mopp (slice M 0%nat)).
Proof.
  destruct (@X8_rotation_period "X"%string [0%nat] 1%nat
              (RotationGate.mk [0%nat] 1 "X" IMAT XMAT)
              (tensor1 0 [1]) (tensor1 0 [1 + 2 * PI]) 1%nat eq_refl
              (or_introl eq_refl) (or_introl eq_refl)) as (M & M' & E & E' & H).
  exists M, M'. repeat (split; [assumption|]).
  apply (proj1 (H 0%nat ltac:(lia))). reflexivity.
Defined.

(** X9.  [rot_matrices] builds unitary matrices for every Hermitian
    unitary 2x2 base matrix P, not only for those of the registry, when I
    is the identity. *)
Theorem X9_rot_matrices_unitary_general :
  forall (theta : tensor R) (P I : tensor C) (n : nat),
    shape theta = [n] -> shape P = [2; 2]%nat -> shape I = [2; 2]%nat ->
    meq 2 (as_matrix I) mid ->
    hermitian 2 (as_matrix P) -> unitary 2 (as_matrix P) ->
    exists M, rot_matrices theta P I n = Ok M /\ shape M = [2; 2; n]%nat /\
      forall k, (k < n)%nat -> unitary 2 (slice M k).
Proof.
  intros theta P I n Ht HP HI Hid Hh Hu.
  destruct (@rot_matrices_spec theta P I n Ht HP HI) as (M & E & HM & HMi).
  exists M. split; [assumption|]. split; [assumption|].
  intros k Hk.
  apply (@unitary_meq 2 (slice M k)
           (rotation_closed_form (as_matrix I) (as_matrix P) (item theta [k]))).
  - intros i j Hi Hj. unfold slice. now rewrite HMi.
  - now apply rot_unitary_general.
Qed.

Lemma X9_witness :
  exists M,
    rot_matrices (tensor1 0 [PI / 3; 1])
                 (tensor2 Czero [[Czero; Ci]; [Copp Ci; Czero]]) IMAT 2 = Ok M /\
    unitary 2 (slice M 1%nat).
Proof.
  destruct (@X9_rot_matrices_unitary_general (tensor1 0 [PI / 3; 1])
              (tensor2 Czero [[Czero; Ci]; [Copp Ci; Czero]]) IMAT 2%nat
              eq_refl eq_refl eq_refl IMAT_identity) as (M & E & _ & H).
  - intros i j Hi Hj. destruct i as [|[|i]]; try lia; destruct j as [|[|j]]; try lia;
      cbv [madj as_matrix item tensor2 nth]; c_eq; lra.
  - intros i j Hi Hj. destruct i as [|[|i]]; try lia; destruct j as [|[|j]]; try lia;
      cbv [mmul madj as_matrix item tensor2 nth mid Csum seq map fold_right Nat.eqb];
      c_eq; lra.
  - exists M. split; [exact E | apply H; lia].
Defined.

(** X10.  The matrices built by RX, RY and RZ and by the U gate have
    determinant 1: with their unitarity, they are in SU(2). *)
Theorem X10_special_unitary :
  (forall ctor, In ctor [RX; RY; RZ] ->
   forall qubits nq (thetas : tensor R) (n : nat),
     batch_shape thetas n ->
     exists g M, ctor qubits nq = Ok g /\ RotationGate.matrices g thetas = Ok M /\
       forall k, (k < n)%nat -> mdet2 (slice M k) = Cone) /\
  (forall qubits nq u (thetas : tensor R) (n : nat),
     U.init qubits nq = Ok u -> shape thetas = [3; n]%nat ->
     exists M, U.matrices u thetas = Ok M /\
       forall k, (k < n)%nat -> mdet2 (slice M k) = Cone).
Proof.
  split.
  - intros ctor Hc qubits nq thetas n Hb.
    assert (Hg : exists gate P g, ctor qubits nq = RotationGate.init gate qubits nq /\
                   RotationGate.init gate qubits nq = Ok g /\
                   RotationGate.paulimat g = P /\ (P = XMAT \/ P = YMAT \/ P = ZMAT)).
    { destruct Hc as [<- | [<- | [<- | []]]];
        [exists "X"%string, XMAT | exists "Y"%string, YMAT | exists "Z"%string, ZMAT];
        (eexists; split; [reflexivity|]; split; [reflexivity|]; split; [reflexivity|]); auto. }
    destruct Hg as (gate & P & g & -> & Hg & HP & Hcases).
    destruct (@RotationGate_slices gate qubits nq g thetas n Hg Hb) as (M & E & _ & HM).
    exists g, M. repeat (split; [assumption|]).
    intros k Hk. rewrite (mdet2_meq (HM k Hk)), HP. now apply rot_det.
  - intros qubits nq u thetas n Hu Hs.
    destruct (@U_matrices_spec _ _ _ thetas _ Hu Hs) as (M & E & _ & HM).
    exists M. split; [assumption|].
    intros k Hk. rewrite (mdet2_meq (HM k Hk)). apply U_closed_form_det.
Qed.

Lemma X10_witness :
  (exists g M, RY [0%nat] 1 = Ok g /\
     RotationGate.matrices g (tensor1 0 [PI / 3]) = Ok M /\ mdet2 (slice M 0%nat) = Cone) /\
  (exists u M, U.init [0%nat] 1 = Ok u /\
     U.matrices u (tensor2 0 [[PI]; [1]; [2]]) = Ok M /\ mdet2 (slice M 0%nat) = Cone).
Proof.
  destruct X10_special_unitary as (Hr & Hu). split.
  - destruct (Hr RY (or_intror (or_introl eq_refl)) [0%nat] 1%nat (tensor1 0 [PI / 3]) 1%nat
                (or_introl eq_refl)) as (g & M & Hg & E & H).
    exists g, M. repeat (split; [assumption|]). apply H. lia.
  - destruct (Hu [0%nat] 1%nat _ (tensor2 0 [[PI]; [1]; [2]]) 1%nat (U_init_ok _ _) eq_refl)
      as (M & E & H).
    eexists _, M. split; [apply U_init_ok|]. split; [exact E | apply H; lia].
Defined.

(* ================================================================== *)
(** ** Algebra of the controlled-phase matrices *)

Ltac entries4 i j tac :=
  do 4 (destruct i as [|i]; [do 4 (destruct j as [|j]; [tac|]); lia|]); lia.

Lemma cphase_compose a b :
  meq 4 (mmul 4 (CPHASE_closed_form a) (CPHASE_closed_form b)) (CPHASE_closed_form (a + b)).
Proof.
  intros i j Hi Hj. unfold mmul, CPHASE_closed_form, expi. rewrite cos_plus, sin_plus.
  entries4 i j ltac:(cbv [Csum seq map fold_right Nat.eqb]; c_eq; ring).
Qed.

Lemma cphase_zero : meq 4 (CPHASE_closed_form 0) mid.
Proof.
  intros i j Hi Hj. unfold CPHASE_closed_form, expi, mid. rewrite cos_0, sin_0.
  entries4 i j ltac:(reflexivity).
Qed.

Lemma cphase_period theta :
  meq 4 (CPHASE_closed_form (theta + 2 * PI)) (CPHASE_closed_form theta).
Proof.
  intros i j Hi Hj. unfold CPHASE_closed_form, expi.
  rewrite cos_plus, sin_plus, cos_2PI, sin_2PI.
  entries4 i j ltac:(cbv [Nat.eqb]; try reflexivity; f_equal; ring).
Qed.

(** X11.  Controlled-phase matrices compose by adding their angles, and
    the matrix at angle 0 is the identity: the product of the k-th
    matrices built at two parameter batches is the k-th matrix built at
    the batch of the sums of their angles. *)
Theorem X11_CPHASE_composition :
  forall qubits nq (thetas1 thetas2 thetas3 : tensor R) (n : nat),
    batch_shape thetas1 n -> batch_shape thetas2 n -> batch_shape thetas3 n ->
    (forall k, (k < n)%nat ->
       batch_angle thetas3 k = batch_angle thetas1 k + batch_angle thetas2 k) ->
    exists M1 M2 M3,
      CPHASE.matrices (CPHASE.init qubits nq) thetas1 = Ok M1 /\
      CPHASE.matrices (CPHASE.init qubits nq) thetas2 = Ok M2 /\
      CPHASE.matrices (CPHASE.init qubits nq) thetas3 = Ok M3 /\
      forall k, (k < n)%nat ->
        meq 4 (mmul 4 (slice M1 k) (slice M2 k)) (slice M3 k) /\
        (batch_angle thetas1 k = 0 -> meq 4 (slice M1 k) mid).
Proof.
  intros qubits nq t1 t2 t3 n Hb1 Hb2 Hb3 Hsum.
  destruct (@CPHASE_matrices_spec qubits nq t1 n Hb1) as (M1 & E1 & _ & H1).
  destruct (@CPHASE_matrices_spec qubits nq t2 n Hb2) as (M2 & E2 & _ & H2).
  destruct (@CPHASE_matrices_spec qubits nq t3 n Hb3) as (M3 & E3 & _ & H3).
  exists M1, M2, M3. repeat (split; [assumption|]).
  intros k Hk. split.
  - eapply meq_trans; [apply mmul_meq; [apply (H1 k Hk) | apply (H2 k Hk)]|].
    eapply meq_trans; [apply cphase_compose|].
    rewrite <- (Hsum k Hk). apply meq_sym, (H3 k Hk).
  - intros H0. eapply meq_trans; [apply (H1 k Hk)|]. rewrite H0. apply cphase_zero.
Qed.

Lemma X11_witness :
  exists M1 M2 M3,
    CPHASE.matrices (CPHASE.init [0; 1]%nat 2) (tensor1 0 [0]) = Ok M1 /\
    CPHASE.matrices (CPHASE.init [0; 1]%nat 2) (tensor1 0 [PI]) = Ok M2 /\
    CPHASE.matrices (CPHASE.init [0; 1]%nat 2) (tensor1 0 [0 + PI]) = Ok M3 /\
    meq 4 (mmul 4 (slice M1 0%nat) (slice M2 0%nat)) (slice M3 0%nat) /\
    meq 4 (slice M1 0%nat) mid.
Proof.
  destruct (@X11_CPHASE_composition [0; 1]%nat 2%nat
              (tensor1 0 [0]) (tensor1 0 [PI]) (tensor1 0 [0 + PI]) 1%nat
              (or_introl eq_refl) (or_introl eq_refl) (or_introl eq_refl))
    as (M1 & M2 & M3 & E1 & E2 & E3 & H).
  - intros k Hk. assert (k = 0)%nat as -> by lia. reflexivity.
  - exists M1, M2, M3. repeat (split; [assumption|]).
    destruct (H 0%nat ltac:(lia)) as [Hc Hz]. split; [exact Hc | apply Hz; reflexivity].
Defined.

(** X12.  The controlled-phase matrices have period 2 pi in the angle
    (where the rotation matrices change sign): adding 2 pi to the k-th
    angle leaves the k-th matrix as it is. *)
Theorem X12_CPHASE_period :
  forall qubits nq (thetas thetas' : tensor R) (n : nat),
    batch_shape thetas n -> batch_shape thetas' n ->
    exists M M',
      CPHASE.matrices (CPHASE.init qubits nq) thetas = Ok M /\
      CPHASE.matrices (CPHASE.init qubits nq) thetas' = Ok M' /\
      forall k, (k < n)%nat ->
        batch_angle thetas' k = batch_angle thetas k + 2 * PI ->
        meq 4 (slice M' k) (slice M k).
Proof.
  intros qubits nq thetas thetas' n Hb Hb'.
  destruct (@CPHASE_matrices_spec qubits nq thetas n Hb) as (M & E & _ & HM).
  destruct (@CPHASE_matrices_spec qubits nq thetas' n Hb') as (M' & E' & _ & HM').
  exists M, M'. repeat (split; [assumption|]).
  intros k Hk Hshift.
  eapply meq_trans; [apply (HM' k Hk)|]. rewrite Hshift.
  eapply meq_trans; [apply cphase_period | apply meq_sym, (HM k Hk)].
Qed.

Lemma X12_witness :
  exists M M',
    CPHASE.matrices (CPHASE.init [0; 1]%nat 2) (tensor1 0 [1]) = Ok M /\
    CPHASE.matrices (CPHASE.init [0; 1]%nat 2) (tensor1 0 [1 + 2 * PI]) = Ok M' /\
    meq 4 (slice M' 0%nat) (slice M 0%nat).
Proof.
  destruct (@X12_CPHASE_period [0; 1]%nat 2%nat (tensor1 0 [1]) (tensor1 0 [1 + 2 * PI]) 1%nat
              (or_introl eq_refl) (or_introl eq_refl)) as (M & M' & E & E' & H).
  exists M, M'. repeat (split; [assumption|]). apply (H 0%nat); [lia | reflexivity].
Defined.

(* ================================================================== *)
(** ** More on the U gate *)

Lemma U_closed_form_adjoint phi theta omega :
  meq 2 (U_closed_form (- omega) (- theta) (- phi)) (madj (U_closed_form phi theta omega)).
Proof.
  intros i j Hi Hj. unfold madj, U_closed_form, expi.
  replace ((- omega + - phi) / 2) with (- ((phi + omega) / 2)) by lra.
  replace ((- omega - - phi) / 2) with ((phi - omega) / 2) by lra.
  replace (- theta / 2) with (- (theta / 2)) by lra.
  rewrite !cos_neg, !sin_neg, !Ropp_involutive.
  destruct i as [|[|i]]; try lia; destruct j as [|[|j]]; try lia; c_eq; ring.
Qed.

(** X13.  The U gate is inverted by reversing and negating its
    parameters: when the k-th parameters of a second tensor are
    (-omega, -theta, -phi) for the k-th parameters (phi, theta, omega) of a
    first one, the k-th matrix of the second is the conjugate transpose of
    the k-th matrix of the first, and their product is the identity. *)
Theorem X13_U_inverse :
  forall qubits nq u (thetas thetas' : tensor R) (n : nat),
    U.init qubits nq = Ok u ->
    shape thetas = [3; n]%nat -> shape thetas' = [3; n]%nat ->
    exists M M',
      U.matrices u thetas = Ok M /\ U.matrices u thetas' = Ok M' /\
      forall k, (k < n)%nat ->
        item thetas' [0; k]%nat = - item thetas [2; k]%nat ->
        item thetas' [1; k]%nat = - item thetas [1; k]%nat ->
        item thetas' [2; k]%nat = - item thetas [0; k]%nat ->
        meq 2 (slice M' k) (madj (slice M k)) /\
        meq 2 (mmul 2 (slice M k) (slice M' k)) mid.
Proof.
  intros qubits nq u thetas thetas' n Hu Hs Hs'.
  destruct (@U_matrices_spec _ _ _ thetas _ Hu Hs) as (M & E & _ & HM).
  destruct (@U_matrices_spec _ _ _ thetas' _ Hu Hs') as (M' & E' & _ & HM').
  exists M, M'. repeat (split; [assumption|]).
  intros k Hk H0 H1 H2.
  assert (Hadj : meq 2 (slice M' k) (madj (slice M k))).
  { eapply meq_trans; [apply (HM' k Hk)|]. rewrite H0, H1, H2.
    eapply meq_trans; [apply U_closed_form_adjoint|].
    apply madj_meq, meq_sym, (HM k Hk). }
  split; [exact Hadj|].
  eapply meq_trans; [apply mmul_meq; [apply meq_refl | exact Hadj]|].
  apply (@unitary_meq 2 _ _ (HM k Hk)), U_closed_form_unitary.
Qed.

Lemma X13_witness :
  exists u M M',
    U.init [0%nat] 1 = Ok u /\
    U.matrices u (tensor2 0 [[1]; [2]; [3]]) = Ok M /\
    U.matrices u (tensor2 0 [[- 3]; [- 2]; [- 1]]) = Ok M' /\
    meq 2 (mmul 2 (slice M 0%nat) (slice M' 0%nat)) mid.
Proof.
  destruct (@X13_U_inverse [0%nat] 1%nat _ (tensor2 0 [[1]; [2]; [3]])
              (tensor2 0 [[- 3]; [- 2]; [- 1]]) 1%nat (U_init_ok _ _) eq_refl eq_refl)
    as (M & M' & E & E' & H).
  eexists _, M, M'. split; [apply U_init_ok|]. repeat (split; [assumption|]).
  apply (proj2 (H 0%nat ltac:(lia) eq_refl eq_refl eq_refl)).
Defined.

Lemma U_closed_form_RY theta :
  meq 2 (U_closed_form 0 theta 0)
        (rotation_closed_form (as_matrix IMAT) (as_matrix YMAT) theta).
Proof.
  intros i j Hi Hj. unfold U_closed_form, expi.
  replace ((0 + 0) / 2) with 0 by lra. replace ((0 - 0) / 2) with 0 by lra.
  rewrite Ropp_0, cos_0, sin_0.
  destruct i as [|[|i]]; try lia; destruct j as [|[|j]]; try lia;
    cbv [rotation_closed_form msub mscale as_matrix item IMAT YMAT tensor2 nth];
    c_eq; ring.
Qed.

Lemma U_closed_form_RZ phi omega :
  meq 2 (U_closed_form phi 0 omega)
        (rotation_closed_form (as_matrix IMAT) (as_matrix ZMAT) (phi + omega)).
Proof.
  intros i j Hi Hj. unfold U_closed_form, expi.
  replace (0 / 2) with 0 by lra. rewrite cos_0, sin_0, !cos_neg, !sin_neg.
  destruct i as [|[|i]]; try lia; destruct j as [|[|j]]; try lia;
    cbv [rotation_closed_form msub mscale as_matrix item IMAT ZMAT tensor2 nth];
    c_eq; ring.
Qed.

(** X14.  The U gate contains the rotations about Y and Z: where phi and
    omega are 0 its matrix is the one RY builds at theta, and where theta
    is 0 its matrix is the one RZ builds at phi + omega. *)
Theorem X14_U_special_cases :
  forall qubits nq u (thetas angles : tensor R) (n : nat),
    U.init qubits nq = Ok u ->
    shape thetas = [3; n]%nat -> batch_shape angles n ->
    exists gy gz M My Mz,
      RY qubits nq = Ok gy /\ RZ qubits nq = Ok gz /\
      U.matrices u thetas = Ok M /\
      RotationGate.matrices gy angles = Ok My /\
      RotationGate.matrices gz angles = Ok Mz /\
      forall k, (k < n)%nat ->
        (item thetas [0; k]%nat = 0 -> item thetas [2; k]%nat = 0 ->
         batch_angle angles k = item thetas [1; k]%nat ->
         meq 2 (slice M k) (slice My k)) /\
        (item thetas [1; k]%nat = 0 ->
         batch_angle angles k = item thetas [0; k]%nat + item thetas [2; k]%nat ->
         meq 2 (slice M k) (slice Mz k)).
Proof.
  intros qubits nq u thetas angles n Hu Hs Hb.
  assert (Hz : RZ qubits nq = Ok (RotationGate.mk qubits nq "Z" IMAT ZMAT)) by reflexivity.
  assert (Hy : RY qubits nq = Ok (RotationGate.mk qubits nq "Y" IMAT YMAT)) by reflexivity.
  destruct (@U_matrices_spec _ _ _ thetas _ Hu Hs) as (M & E & _ & HM).
  destruct (@RotationGate_slices _ _ _ _ angles n Hy Hb) as (My & Ey & _ & HMy).
  destruct (@RotationGate_slices _ _ _ _ angles n Hz Hb) as (Mz & Ez & _ & HMz).
  eexists _, _, M, My, Mz. repeat (split; [eassumption|]).
  intros k Hk. split.
  - intros H0 H2 Ha. eapply meq_trans; [apply (HM k Hk)|]. rewrite H0, H2.
    eapply meq_trans; [apply U_closed_form_RY|]. rewrite <- Ha.
    apply meq_sym, (HMy k Hk).
  - intros H1 Ha. eapply meq_trans; [apply (HM k Hk)|]. rewrite H1.
    eapply meq_trans; [apply U_closed_form_RZ|]. rewrite <- Ha.
    apply meq_sym, (HMz k Hk).
Qed.

Lemma X14_witness :
  exists u gy M My,
    U.init [0%nat] 1 = Ok u /\ RY [0%nat] 1 = Ok gy /\
    U.matrices u (tensor2 0 [[0]; [PI]; [0]]) = Ok M /\
    RotationGate.matrices gy (tensor1 0 [PI]) = Ok My /\
    meq 2 (slice M 0%nat) (slice My 0%nat).
Proof.
  destruct (@X14_U_special_cases [0%nat] 1%nat _ (tensor2 0 [[0]; [PI]; [0]])
              (tensor1 0 [PI]) 1%nat (U_init_ok _ _) eq_refl (or_introl eq_refl))
    as (gy & gz & M & My & Mz & Hy & _ & E & Ey & _ & H).
  eexists _, gy, M, My. split; [apply U_init_ok|]. repeat (split; [assumption|]).
  apply (proj1 (H 0%nat ltac:(lia))); reflexivity.
Defined.

(* ================================================================== *)
(** ** What forward hands to the collaborators *)

Lemma size_last_3 {A} (M : tensor A) a b n : shape M = [a; b; n] -> size_last M = Ok n.
Proof. intros H. unfold size_last. now rewrite H. Qed.

(** X15.  Whatever the collaborators are, for a parameter batch of n
    entries [forward] calls the applicator once, with the state it was
    given, the qubits and the qubit count given to the constructor, and n
    as batch size, read off the last axis of the matrices; the state is not
    inspected before.  The rotation, U and controlled-phase gates hand over
    the matrices they built; the controlled rotation hands over what the
    embedder returns for these matrices and the same batch size, and fails
    as the embedder does. *)
Theorem X15_forward_arguments :
  forall (collaborators : Collaborators) (state : tensor C) (thetas : tensor R) (n : nat),
    (forall gate qubits nq g,
        RotationGate.init gate qubits nq = Ok g -> batch_shape thetas n ->
        exists M, RotationGate.matrices g thetas = Ok M /\
          RotationGate.forward g state thetas = _apply_batch_gate state M qubits nq n) /\
    (forall qubits nq u,
        U.init qubits nq = Ok u -> shape thetas = [3; n]%nat ->
        exists M, U.matrices u thetas = Ok M /\
          U.forward u state thetas = _apply_batch_gate state M qubits nq n) /\
    (forall gate qubits nq g,
        ControlledRotationGate.init gate qubits nq = Ok g -> batch_shape thetas n ->
        exists M, ControlledRotationGate.matrices g thetas = Ok M /\
          ControlledRotationGate.forward g state thetas =
          match create_controlled_batch_from_operation M n with
          | Ok controlled_mats => _apply_batch_gate state controlled_mats qubits nq n
          | Raise e => Raise e
          end) /\
    (forall qubits nq,
        batch_shape thetas n ->
        exists M, CPHASE.matrices (CPHASE.init qubits nq) thetas = Ok M /\
          CPHASE.forward (CPHASE.init qubits nq) state thetas =
          _apply_batch_gate state M qubits nq n).
Proof.
  intros collaborators state thetas n. split; [|split; [|split]].
  - intros gate qubits nq g Hg Hb.
    destruct (@RotationGate_slices gate qubits nq g thetas n Hg Hb) as (M & E & HS & _).
    destruct (@RotationGate_init_inv gate qubits nq g Hg) as (_ & _ & Hq & Hn).
    exists M. split; [assumption|].
    unfold RotationGate.forward, RotationGate.apply.
    rewrite E. cbn [bind]. rewrite (@size_last_3 _ M _ _ n HS), Hq, Hn. reflexivity.
  - intros qubits nq u Hu Hs.
    destruct (@U_matrices_spec _ _ _ thetas _ Hu Hs) as (M & E & HS & _).
    assert (Hq : (U.qubits u, U.n_qubits u) = (qubits, nq)).
    { rewrite U_init_ok in Hu.
      apply (f_equal (fun r => match r with
                               | Ok x => (U.qubits x, U.n_qubits x)
                               | Raise _ => (qubits, nq)
                               end)) in Hu.
      symmetry. exact Hu. }
    injection Hq as Hq Hn.
    exists M. split; [assumption|].
    unfold U.forward, U.apply. rewrite E. cbn [bind].
    rewrite (@size_last_3 _ M _ _ n HS), Hq, Hn. reflexivity.
  - intros gate qubits nq g Hg Hb.
    destruct (@ControlledRotationGate_init_inv gate qubits nq g Hg)
      as (r & Hr & HI & HP & Hq & Hn).
    destruct (@RotationGate_slices gate qubits nq r thetas n Hr Hb) as (M & E & HS & _).
    rewrite <- (@ControlledRotationGate_matrices_plain g r thetas HI HP) in E.
    exists M. split; [assumption|].
    unfold ControlledRotationGate.forward, ControlledRotationGate.apply.
    rewrite E. cbn [bind]. rewrite (@size_last_3 _ M _ _ n HS), Hq, Hn. reflexivity.
  - intros qubits nq Hb.
    destruct (@CPHASE_matrices_spec qubits nq thetas n Hb) as (M & E & HS & _).
    exists M. split; [assumption|].
    unfold CPHASE.forward, CPHASE.apply. rewrite E. cbn [bind].
    rewrite (@size_last_3 _ M _ _ n HS). reflexivity.
Qed.

Lemma X15_witness :
  exists M,
    ControlledRotationGate.matrices (ControlledRotationGate.mk [0; 1]%nat 2 "X" IMAT XMAT)
                                    (tensor1 0 [PI; 1]) = Ok M /\
    @ControlledRotationGate.forward spec_collaborators
       (ControlledRotationGate.mk [0; 1]%nat 2 "X" IMAT XMAT)
       (basis_state [1; 0]%nat) (tensor1 0 [PI; 1]) =
    match embed_as_controlled M 2 with
    | Ok controlled_mats =>
        apply_batch_gate (basis_state [1; 0]%nat) controlled_mats [0; 1]%nat 2 2
    | Raise e => Raise e
    end.
Proof.
  apply (proj1 (proj2 (proj2 (@X15_forward_arguments spec_collaborators
           (basis_state [1; 0]%nat) (tensor1 0 [PI; 1]) 2%nat)))
         "X"%string [0; 1]%nat 2%nat
         (ControlledRotationGate.mk [0; 1]%nat 2 "X" IMAT XMAT) eq_refl (or_introl eq_refl)).
Defined.

(* ================================================================== *)
(** ** The matrix batch of each gate, and where the controlled block is built *)

(** C6, amended.  For a parameter batch of batch size [n], [matrices]
    returns a batch of shape (2,2,n) for the rotation gates, for the U
    gate and also for the controlled-rotation gates, whose batch is the one
    of the rotation gate over the same base matrix; it returns a batch of
    shape (4,4,n) for the controlled-phase gate.  The controlled block
    matrix of a controlled rotation is built afterwards, inside [apply]:
    whatever the collaborators are, [apply] hands the (2,2,n) batch and
    the batch size n to the embedder and the result of the embedder to the
    applicator; and the embedder of the contract returns for this batch a
    (4,4,n) batch, with the rotation in the lower-right block and the
    identity elsewhere. *)
Theorem C6_matrices_shape :
  (forall gate qubits nq g (thetas : tensor R) (n : nat),
      RotationGate.init gate qubits nq = Ok g -> batch_shape thetas n ->
      exists M, RotationGate.matrices g thetas = Ok M /\ shape M = [2; 2; n]%nat) /\
  (forall qubits nq u (thetas : tensor R) (n : nat),
      U.init qubits nq = Ok u ->
      shape thetas = [3; n]%nat \/ (shape thetas = [3%nat] /\ n = 1%nat) ->
      exists M, U.matrices u thetas = Ok M /\ shape M = [2; 2; n]%nat) /\
  (forall gate qubits nq g (thetas : tensor R) (n : nat),
      ControlledRotationGate.init gate qubits nq = Ok g -> batch_shape thetas n ->
      exists r M, RotationGate.init gate qubits nq = Ok r /\
        ControlledRotationGate.matrices g thetas = Ok M /\
        RotationGate.matrices r thetas = Ok M /\ shape M = [2; 2; n]%nat) /\
  (forall qubits nq (thetas : tensor R) (n : nat),
      batch_shape thetas n ->
      exists M, CPHASE.matrices (CPHASE.init qubits nq) thetas = Ok M /\
        shape M = [4; 4; n]%nat) /\
  (forall (collaborators : Collaborators) gate qubits nq g
          (state : tensor C) (thetas : tensor R) (n : nat),
      ControlledRotationGate.init gate qubits nq = Ok g -> batch_shape thetas n ->
      exists M CM,
        ControlledRotationGate.matrices g thetas = Ok M /\
        shape M = [2; 2; n]%nat /\
        ControlledRotationGate.apply g M state =
        match create_controlled_batch_from_operation M n with
        | Ok controlled_mats => _apply_batch_gate state controlled_mats qubits nq n
        | Raise e => Raise e
        end /\
        embed_as_controlled M n = Ok CM /\
        shape CM = [4; 4; n]%nat /\
        forall i j k,
          item CM [i; j; k] =
          if (2 <=? i)%nat && (2 <=? j)%nat then item M [i - 2; j - 2; k]%nat
          else if Nat.eqb i j then Cone else Czero).
Proof.
  split; [|split; [|split; [|split]]].
  - intros gate qubits nq g thetas n Hg Hb.
    destruct (@RotationGate_slices gate qubits nq g thetas n Hg Hb) as (M & E & HS & _).
    exists M. split; assumption.
  - intros qubits nq u thetas n Hu [Hs | [Hs ->]].
    + destruct (@U_matrices_spec _ _ _ thetas _ Hu Hs) as (M & E & HS & _).
      exists M. split; assumption.
    + destruct (@U_matrices_promote u thetas _ Hs) as (t' & _ & Hs' & _ & ->).
      destruct (@U_matrices_spec _ _ _ t' _ Hu Hs') as (M & E & HS & _).
      exists M. split; assumption.
  - intros gate qubits nq g thetas n Hg Hb.
    destruct (@ControlledRotationGate_init_inv gate qubits nq g Hg) as (r & Hr & HI & HP & _).
    destruct (@RotationGate_slices gate qubits nq r thetas n Hr Hb) as (M & E & HS & _).
    exists r, M. split; [assumption|].
    rewrite (@ControlledRotationGate_matrices_plain g r thetas HI HP).
    repeat split; assumption.
  - intros qubits nq thetas n Hb.
    destruct (@CPHASE_matrices_spec qubits nq thetas n Hb) as (M & E & HS & _).
    exists M. split; assumption.
  - intros collaborators gate qubits nq g state thetas n Hg Hb.
    destruct (@ControlledRotationGate_init_inv gate qubits nq g Hg)
      as (r & Hr & HI & HP & Hq & Hn).
    destruct (@RotationGate_slices gate qubits nq r thetas n Hr Hb) as (M & E & HS & _).
    rewrite <- (@ControlledRotationGate_matrices_plain g r thetas HI HP) in E.
    destruct (@embed_as_controlled_22 M n HS) as (CM & ECM & HCM & HCMi).
    exists M, CM. split; [assumption|]. split; [assumption|].
    split; [|split; [assumption | split; assumption]].
    unfold ControlledRotationGate.apply.
    rewrite (@size_last_3 _ M _ _ n HS), Hq, Hn. reflexivity.
Qed.

Lemma C6_witness :
  (exists M, RotationGate.matrices (RotationGate.mk [0%nat] 1 "Y" IMAT YMAT)
               (tensor1 0 [PI]) = Ok M /\ shape M = [2; 2; 1]%nat) /\
  (exists u M, U.init [0%nat] 1 = Ok u /\
               U.matrices u (tensor2 0 [[PI; 0]; [1; 2]; [0; PI]]) = Ok M /\
               shape M = [2; 2; 2]%nat) /\
  (exists r M, RotationGate.init "Z" [0; 1]%nat 2 = Ok r /\
     ControlledRotationGate.matrices
       (ControlledRotationGate.mk [0; 1]%nat 2 "Z" IMAT ZMAT) (tensor2 0 [[PI; 0; 1]]) = Ok M /\
     RotationGate.matrices r (tensor2 0 [[PI; 0; 1]]) = Ok M /\ shape M = [2; 2; 3]%nat) /\
  (exists M, CPHASE.matrices (CPHASE.init [0; 1]%nat 2) (tensor1 0 [PI; 1]) = Ok M /\
             shape M = [4; 4; 2]%nat) /\
  (exists M CM,
     ControlledRotationGate.matrices
       (ControlledRotationGate.mk [0; 1]%nat 2 "X" IMAT XMAT) (tensor1 0 [PI; 1]) = Ok M /\
     @ControlledRotationGate.apply spec_collaborators
       (ControlledRotationGate.mk [0; 1]%nat 2 "X" IMAT XMAT) M (basis_state [1; 0]%nat) =
     match embed_as_controlled M 2 with
     | Ok controlled_mats =>
         apply_batch_gate (basis_state [1; 0]%nat) controlled_mats [0; 1]%nat 2 2
     | Raise e => Raise e
     end /\
     embed_as_controlled M 2 = Ok CM /\ shape CM = [4; 4; 2]%nat).
Proof.
  destruct C6_matrices_shape as (Hr & Hu & Hc & Hp & Ha).
  split; [|split; [|split; [|split]]].
  - apply (Hr "Y"%string [0%nat] 1%nat (RotationGate.mk [0%nat] 1 "Y" IMAT YMAT)
             (tensor1 0 [PI]) 1%nat eq_refl (or_introl eq_refl)).
  - destruct (Hu [0%nat] 1%nat _ (tensor2 0 [[PI; 0]; [1; 2]; [0; PI]]) 2%nat
                (U_init_ok _ _) (or_introl eq_refl)) as (M & E & HM).
    eexists _, M. split; [apply U_init_ok|]. split; assumption.
  - apply (Hc "Z"%string [0; 1]%nat 2%nat
             (ControlledRotationGate.mk [0; 1]%nat 2 "Z" IMAT ZMAT)
             (tensor2 0 [[PI; 0; 1]]) 3%nat eq_refl (or_intror eq_refl)).
  - apply (Hp [0; 1]%nat 2%nat (tensor1 0 [PI; 1]) 2%nat (or_introl eq_refl)).
  - destruct (Ha spec_collaborators "X"%string [0; 1]%nat 2%nat
                (ControlledRotationGate.mk [0; 1]%nat 2 "X" IMAT XMAT)
                (basis_state [1; 0]%nat) (tensor1 0 [PI; 1]) 2%nat eq_refl
                (or_introl eq_refl)) as (M & CM & E & _ & Happ & ECM & HCM & _).
    exists M, CM. repeat (split; [assumption|]). assumption.
Defined.

(* ================================================================== *)
(** ** The shape check of the U gate, beyond rank 2 *)

(** C7, as stated, fails: a tensor of shape (3,1,1) has a first axis of
    size 3, passes the assertion of [U.matrices] and still fails, in
    [repeat]; so failing is not equivalent to a first axis of another
    size. *)
Lemma C7_counterexample :
  exists u,
    U.init [0%nat] 1 = Ok u /\
    hd 0%nat (shape (mkTensor [3; 1; 1]%nat (fun _ => 0))) = 3%nat /\
    U.matrices u (mkTensor [3; 1; 1]%nat (fun _ => 0)) = Raise RuntimeError /\
    ~ ((exists e, U.matrices u (mkTensor [3; 1; 1]%nat (fun _ => 0)) = Raise e) <->
       hd 0%nat (shape (mkTensor [3; 1; 1]%nat (fun _ => 0))) <> 3%nat).
Proof.
  eexists. split; [apply U_init_ok|]. split; [reflexivity|].
  assert (E : forall u, U.matrices u (mkTensor [3; 1; 1]%nat (fun _ => 0))
                        = Raise RuntimeError).
  { intros u. apply (@U_matrices_rank3 u _ 1%nat 1%nat). reflexivity. }
  split; [apply E|].
  intros [Hfail _]. apply Hfail; [|reflexivity].
  exists RuntimeError. apply E.
Qed.
